(** * Connection lifecycle engine of the point-cloud scene (main.js)

    A shallow embedding of the connection builder ([createConnections]),
    the lifecycle tick ([updateConnections]), the population balancer
    inside [render] and the viewport handler ([resize]) of [src/main.js],
    followed by the properties checked against the specification.

    Modelling conventions.
    - JavaScript numbers that hold times, coordinates, colours and hub
      counts are rationals ([Q]).  Where the result of an operation on
      doubles decides what the program does next, it is rounded as the
      machine rounds it ([fl64], to the nearest double, ties to even): the
      elapsed time [tNow - conn.startTime] the two fading loops compare
      with the fade durations, and the stored [nextConnectionUpdateTime =
      tNow + SMALL_BATCH_INTERVAL].  Stores into the [Float32Array] of
      point positions made by [setupScene] are rounded to single precision
      ([fround]).  The colour and geometry arithmetic is exact; the
      integer computations of the balancer ([Math.ceil (x * 0.3)] and the
      like) agree with their rational counterparts on the integers the
      program feeds them.
    - [Math.sqrt] and [Math.sin] are functions of the host and are taken as
      section variables; [Math.random] is an oracle [rnd : nat -> Q] whose
      [k]-th value is the [k]-th draw of the call; [performance.now() *
      0.001] is an input of the operation that reads it.
    - A batch object (the [newConnections] literal) keeps its identity
      through the buckets; the model gives every batch a number [bid]
      drawn from the allocation counter [nextId] of the world.
    - The scene graph is the list of the batches whose [lines] object is
      attached to [scene].
    - [hexToRgbNorm] is modelled on numeric arguments, through the string
      [toString(16)] makes of them. *)

From Stdlib Require Import List ZArith QArith Qround Qminmax Qpower Bool Ascii.
From Stdlib Require Import Lia Lqa.
From Stdlib Require Import Permutation Sorted.
From AAC_tactics Require Import AAC.
From AAC_tactics Require Instances.
Import Instances.Lists.
Import ListNotations.

Local Open Scope Q_scope.

(** ** Numbers *)

Definition Qltb (a b : Q) : bool := negb (Qle_bool b a).
Definition Qgtb (a b : Q) : bool := Qltb b a.
Definition Qgeb (a b : Q) : bool := Qle_bool b a.

(** [Math.pow(x, 2)] and [Math.pow(x, 3)] *)
Definition sq (x : Q) : Q := x ^ 2.
Definition cube (x : Q) : Q := x ^ 3.

(** ** Rounding

    A double has 53 significant bits, a [Float32Array] entry 24.  The
    result of an operation is the representable number nearest to the
    exact one, ties going to the one whose last bit is 0. *)

Definition pow2 (e : Z) : Q := 2 ^ e.

(** The binade of a positive number: the [k] with [2^k <= x < 2^(k+1)]. *)
Definition ilog2 (x : Q) : Z :=
  let k := (Z.log2 (Qnum x) - Z.log2 (Zpos (Qden x)))%Z in
  if Qle_bool (pow2 k) x then k else (k - 1)%Z.

(** The nearest integer, ties to even. *)
Definition roundHalfEven (q : Q) : Z :=
  let f := Qfloor q in
  let r := q - inject_Z f in
  if Qltb r (1 # 2) then f
  else if Qltb (1 # 2) r then (f + 1)%Z
  else if Z.even f then f else (f + 1)%Z.

(** The exponent of the last place of [x] at precision [prec]; [emin] is
    the exponent of the subnormal numbers, when the format is taken with
    them. *)
Definition exponentOf (prec : Z) (emin : option Z) (x : Q) : Z :=
  let e := (ilog2 x - (prec - 1))%Z in
  match emin with Some m => Z.max e m | None => e end.

Definition roundPos (prec : Z) (emin : option Z) (x : Q) : Q :=
  let e := exponentOf prec emin x in
  inject_Z (roundHalfEven (x / pow2 e)) * pow2 e.

Definition roundTo (prec : Z) (emin : option Z) (x : Q) : Q :=
  match Qnum x with
  | Z0 => 0
  | Zpos _ => roundPos prec emin x
  | Zneg _ => - roundPos prec emin (- x)
  end.

(** The double nearest to [x].  The exponent is left unbounded: the sum
    or difference of two doubles that falls among the subnormal numbers is
    a multiple of [2^-1074] and so is exact in either reading, and the
    times of this program stay far below [2^1024]. *)
Definition fl64 : Q -> Q := roundTo 53 None.

(** [Math.fround]: the value a [Float32Array] store keeps of a number
    below [2^128] in magnitude (beyond that it keeps an infinity). *)
Definition fround : Q -> Q := roundTo 24 (Some (-149)%Z).

(** [a - b] and [a + b] on doubles. *)
Definition sub64 (a b : Q) : Q := fl64 (a - b).
Definition add64 (a b : Q) : Q := fl64 (a + b).

Arguments pow2 : simpl never.
Arguments roundTo : simpl never.
Arguments fl64 : simpl never.
Arguments fround : simpl never.
Arguments sub64 : simpl never.
Arguments add64 : simpl never.

(** ** Constants of main.js *)

Definition SMALL_BATCH_INTERVAL : Q := 1.
Definition CONNECTION_REFRESH_RATE : Q := 5 # 100.
Definition INITIAL_CONNECTIONS : Z := 300.
Definition MAX_TOTAL_CONNECTIONS : Q := 600.
Definition TARGET_CONNECTIONS : Q := 400.
Definition FADE_IN_DURATION : Q := 75 # 100.
Definition FADE_OUT_DURATION : Q := 15 # 10.
Definition NUM_POINTS : Z := 50000.
Definition NUM_CONNECTED_POINTS : Q := 500.
Definition CONNECTION_THRESHOLD : Q := 2.

(** ** Strings

    A string is the list of its characters. *)

(** The character of the base-16 digit [d]. *)
Definition hexDigitChar (d : Z) : ascii :=
  nth (Z.to_nat d)
    ["0"; "1"; "2"; "3"; "4"; "5"; "6"; "7"; "8"; "9";
     "a"; "b"; "c"; "d"; "e"; "f"]%char "0"%char.

(** The digits of [n], most significant first, in front of [acc]; [fuel]
    bounds their number. *)
Fixpoint hexDigits (fuel : nat) (n : Z) (acc : list ascii) : list ascii :=
  match fuel with
  | O => acc
  | S fuel' =>
      let acc' := hexDigitChar (n mod 16) :: acc in
      if (n <? 16)%Z then acc' else hexDigits fuel' (n / 16) acc'
  end.

(** [Number.prototype.toString(16)] on an integer: the digits of the
    magnitude after a minus sign when it is negative. *)
Definition toString16 (n : Z) : list ascii :=
  let digits := hexDigits (S (Z.to_nat (Z.log2 (Z.abs n)))) (Z.abs n) [] in
  if (n <? 0)%Z then "-"%char :: digits else digits.

(** [String.prototype.padStart] *)
Definition padStart (targetLength : nat) (c : ascii) (s : list ascii)
  : list ascii :=
  repeat c (targetLength - length s) ++ s.

(** The value of a base-16 digit, in either case. *)
Definition hexDigitValue (c : ascii) : option Z :=
  let n := Z.of_nat (nat_of_ascii c) in
  if (48 <=? n)%Z && (n <=? 57)%Z then Some (n - 48)%Z
  else if (97 <=? n)%Z && (n <=? 102)%Z then Some (n - 87)%Z
  else if (65 <=? n)%Z && (n <=? 70)%Z then Some (n - 55)%Z
  else None.

(** The longest run of digits at the head of [s]; [acc] is [None] until a
    digit has been read. *)
Fixpoint parseDigits (s : list ascii) (acc : option Z) : option Z :=
  match s with
  | [] => acc
  | c :: s' =>
      match hexDigitValue c with
      | Some d =>
          parseDigits s'
            (Some (16 * match acc with Some a => a | None => 0 end + d)%Z)
      | None => acc
      end
  end.

(** [parseInt(s, 16)]: an optional sign, then the longest run of base-16
    digits; [None] stands for [NaN].  White space and a [0x] prefix, which
    [parseInt] also skips, do not occur in the strings
    [Number.prototype.toString] makes. *)
Definition parseInt16 (s : list ascii) : option Z :=
  match s with
  | "-"%char :: s' => option_map Z.opp (parseDigits s' None)
  | "+"%char :: s' => parseDigits s' None
  | _ => parseDigits s None
  end.

(** [ToInt32], applied by [>>] and [&] to their operands. *)
Definition toInt32 (n : Z) : Z := ((n + 2 ^ 31) mod 2 ^ 32 - 2 ^ 31)%Z.

(** [hexToRgbNorm] on a numeric argument (an integer below [2^53] in
    magnitude); [NaN >> 16] and [NaN & 255] are [0]. *)
Definition hexToRgbNorm (hex : Z) : Q * Q * Q :=
  let hex := padStart 6 "0"%char (toString16 hex) in
  let hex :=
    if (length hex =? 3)%nat then flat_map (fun x => [x; x]) hex else hex in
  let num :=
    match parseInt16 hex with Some n => toInt32 n | None => 0%Z end in
  (inject_Z (Z.land (Z.shiftr num 16) 255) / 255,
   inject_Z (Z.land (Z.shiftr num 8) 255) / 255,
   inject_Z (Z.land num 255) / 255).

Record Config := mkConfig {
  backgroundColor : Z;
  centerColor : Z;
  outerColor : Z;
  useLineGradient : bool;
  lineColorFlat : Z
}.

Definition CONFIG : Config :=
  mkConfig 0x000000 0x0f766e 0x14b8a6 false 0x000000.

(** ** Data model *)

Inductive BatchState := SActive | SFadingIn | SFadingOut.

(** The [newConnections] object together with its [lines] (a
    [LineSegments] with a position and a colour buffer and a [visible]
    flag). *)
Record Batch := mkBatch {
  bid : nat;
  linePositions : list Q;
  colors : list Q;
  visible : bool;
  opacities : list Q;
  state : BatchState;
  startTime : Q;
  hubsCount : Q
}.

Record ConnectionStates := mkStates {
  active : list Batch;
  fadingIn : list Batch;
  fadingOut : list Batch;
  pendingRemoval : list Batch
}.

Record ConnectionStats := mkStats {
  stat_active : Q;
  stat_fadingIn : Q;
  stat_fadingOut : Q;
  stat_total : Q
}.

Record World := mkWorld {
  connections : option nat;
  connectionStates : ConnectionStates;
  connectionStats : ConnectionStats;
  scene : list nat;
  nextConnectionUpdateTime : Q;
  initialSetupDone : bool;
  nextId : nat
}.

(** [scene.remove(o)] and [scene.add(o)] of the scene graph: [add] first
    detaches the object from its parent. *)
Definition scene_remove (i : nat) (s : list nat) : list nat :=
  filter (fun j => negb (Nat.eqb j i)) s.
Definition scene_add (i : nat) (s : list nat) : list nat :=
  scene_remove i s ++ [i].
Definition has_parent (i : nat) (s : list nat) : bool :=
  existsb (Nat.eqb i) s.

(** One sampled candidate: the object pushed on [potentialNeighbors]. *)
Record Neighbor := mkNeighbor {
  n_index : Z;
  n_dist : Q;
  n_position : Q * Q * Q
}.

Definition bids (l : list Batch) : list nat := map bid l.

Definition all_batches (cs : ConnectionStates) : list Batch :=
  fadingIn cs ++ active cs ++ fadingOut cs ++ pendingRemoval cs.

(** Position of a batch in the lifecycle; 4 stands for a batch that is in
    no bucket. *)
Definition mem_id (i : nat) (l : list Batch) : bool :=
  existsb (fun b => Nat.eqb (bid b) i) l.

Definition rank (cs : ConnectionStates) (i : nat) : nat :=
  if mem_id i (fadingIn cs) then 0
  else if mem_id i (active cs) then 1
  else if mem_id i (fadingOut cs) then 2
  else if mem_id i (pendingRemoval cs) then 3
  else 4.

Definition sum_hubs (l : list Batch) : Q :=
  fold_left (fun sum conn => sum + hubsCount conn) l 0.

Section Model.

(** Host functions. *)
Variable Math_sqrt : Q -> Q.
Variable Math_sin : Q -> Q.

(** ** createConnections *)

Section Builder.

(** [positions] is the attribute array of the point cloud, [rnd] the
    stream of [Math.random()] results. *)
Variable positions : Z -> Q.
Variable rnd : nat -> Q.

Definition randomIndex (r : Q) : Z := Qfloor (r * inject_Z NUM_POINTS).

Definition coord (i : Z) (c : Z) : Q := positions (i * 3 + c)%Z.

Definition distTo (hubIndex otherIndex : Z) : Q :=
  Math_sqrt (sq (coord otherIndex 0 - coord hubIndex 0) +
             sq (coord otherIndex 1 - coord hubIndex 1) +
             sq (coord otherIndex 2 - coord hubIndex 2)).

(** The loop [for (j = 0; j < 50; j++)]: [n] iterations left, [k] the
    index of the next draw.  The result lists the pushed candidates in
    push order. *)
Fixpoint probeLoop (hubIndex : Z) (n : nat) (k : nat) : list Neighbor :=
  match n with
  | O => []
  | S n' =>
      let otherIndex := randomIndex (rnd k) in
      if (otherIndex =? hubIndex)%Z then probeLoop hubIndex n' (S k)
      else
        let dist := distTo hubIndex otherIndex in
        if Qltb dist CONNECTION_THRESHOLD then
          mkNeighbor otherIndex dist
            (coord otherIndex 0, coord otherIndex 1, coord otherIndex 2)
            :: probeLoop hubIndex n' (S k)
        else probeLoop hubIndex n' (S k)
  end.

(** Number of distance computations the same loop performs. *)
Fixpoint probeChecks (hubIndex : Z) (n : nat) (k : nat) : nat :=
  match n with
  | O => O
  | S n' =>
      if (randomIndex (rnd k) =? hubIndex)%Z then probeChecks hubIndex n' (S k)
      else S (probeChecks hubIndex n' (S k))
  end.

(** [potentialNeighbors.sort((a, b) => a.dist - b.dist)]: a stable sort
    by ascending [dist]. *)
Fixpoint insertByDist (x : Neighbor) (l : list Neighbor) : list Neighbor :=
  match l with
  | [] => [x]
  | y :: l' =>
      if Qle_bool (n_dist x) (n_dist y) then x :: y :: l'
      else y :: insertByDist x l'
  end.

Definition sortByDist (l : list Neighbor) : list Neighbor :=
  fold_right insertByDist [] l.

(** Draws of one iteration of the hub loop, starting at draw [k]: the hub
    index, three jitters, fifty probes. *)
Definition drawsPerHub : nat := 54.

Definition hubIndexAt (k : nat) : Z := randomIndex (rnd k).

Definition hubOffset : Q := 5 # 100.

Definition virtualHub (k : nat) : Q * Q * Q :=
  let hubIndex := hubIndexAt k in
  (coord hubIndex 0 + (rnd (k + 1) * 2 - 1) * hubOffset,
   coord hubIndex 1 + (rnd (k + 2) * 2 - 1) * hubOffset,
   coord hubIndex 2 + (rnd (k + 3) * 2 - 1) * hubOffset).

Definition potentialNeighbors (k : nat) : list Neighbor :=
  sortByDist (probeLoop (hubIndexAt k) 50 (k + 4)).

Definition xyz (p : Q * Q * Q) : list Q :=
  let '(x, y, z) := p in [x; y; z].

(** The colour block of one hub: three (hub end, spoke end) pairs. *)
Definition hubColors (k : nat) : list Q :=
  if useLineGradient CONFIG then
    let hubIndex := hubIndexAt k in
    let hubDist := Math_sqrt (coord hubIndex 0 * coord hubIndex 0 +
                              coord hubIndex 1 * coord hubIndex 1 +
                              coord hubIndex 2 * coord hubIndex 2) in
    let ratio := Qmin (hubDist / 6) 1 in
    let red := (1 # 10) + ratio * (7 # 10) in
    let green := (7 # 10) - ratio * (5 # 10) in
    let blue := (5 # 10) + ratio * (3 # 10) in
    flat_map (fun j : Z =>
      let r := red + inject_Z j * (5 # 100) in
      let g := green - inject_Z j * (3 # 100) in
      let b := blue + inject_Z j * (2 # 100) in
      [r; g; b; r * (8 # 10); g * (8 # 10); b * (8 # 10)]) [0; 1; 2]%Z
  else
    let '(r, g, b) := hexToRgbNorm (lineColorFlat CONFIG) in
    flat_map (fun _ : Z =>
      [r; g; b; r * (8 # 10); g * (8 # 10); b * (8 # 10)]) [0; 1; 2]%Z.

Definition initialOpacity (replacementPercentage : Q) : Q :=
  if Qgeb replacementPercentage 1 then 5 # 10 else 1 # 100.

(** One iteration of the hub loop: what it pushes on [linePositions],
    [lineColors] and [lineOpacities]. *)
Definition hubIteration (replacementPercentage : Q) (k : nat)
  : list Q * list Q * list Q :=
  match potentialNeighbors k with
  | n0 :: n1 :: n2 :: _ =>
      let hub := xyz (virtualHub k) in
      (hub ++ xyz (n_position n0) ++
       hub ++ xyz (n_position n1) ++
       hub ++ xyz (n_position n2),
       hubColors k,
       let o := initialOpacity replacementPercentage in [o; o; o])
  | _ => ([], [], [])
  end.

Fixpoint hubLoop (replacementPercentage : Q) (n : nat) (k : nat)
  : list Q * list Q * list Q :=
  match n with
  | O => ([], [], [])
  | S n' =>
      let '(p, c, o) := hubIteration replacementPercentage k in
      let '(ps, cs, os) := hubLoop replacementPercentage n' (k + drawsPerHub) in
      (p ++ ps, c ++ cs, o ++ os)
  end.

(** [explicitConnectionCount || Math.floor((NUM_CONNECTED_POINTS / 4) *
    replacementPercentage)] *)
Definition numHubsToCreate (replacementPercentage : Q)
  (explicitConnectionCount : option Z) : Z :=
  match explicitConnectionCount with
  | Some c => if (c =? 0)%Z
              then Qfloor ((NUM_CONNECTED_POINTS / 4) * replacementPercentage)
              else c
  | None => Qfloor ((NUM_CONNECTED_POINTS / 4) * replacementPercentage)
  end.

Definition lengthQ {A} (l : list A) : Q := inject_Z (Z.of_nat (length l)).

(** The object literal [newConnections]; [now] is [performance.now() *
    0.001] at this point. *)
Definition newBatch (w : World) (now replacementPercentage : Q)
  (geo : list Q * list Q * list Q) : Batch :=
  let '(linePositions, lineColors, lineOpacities) := geo in
  mkBatch (nextId w) linePositions lineColors true lineOpacities
    (if Qgeb replacementPercentage 1 then SActive else SFadingIn)
    now
    (lengthQ lineOpacities / 3).

Definition createConnections (now : Q) (replacementPercentage : Q)
  (explicitConnectionCount : option Z) (w : World) : World :=
  (* full replacement clears the previous object *)
  let '(conn0, scene0) :=
    match connections w with
    | Some c => if Qgeb replacementPercentage 1
                then (None, scene_remove c (scene w))
                else (Some c, scene w)
    | None => (None, scene w)
    end in
  let n := numHubsToCreate replacementPercentage explicitConnectionCount in
  let geo := hubLoop replacementPercentage (Z.to_nat n) 0 in
  let '(linePositions, _, _) := geo in
  match linePositions with
  | [] => mkWorld conn0 (connectionStates w) (connectionStats w) scene0
            (nextConnectionUpdateTime w) (initialSetupDone w) (nextId w)
  | _ :: _ =>
      let nb := newBatch w now replacementPercentage geo in
      let cs := connectionStates w in
      if Qgeb replacementPercentage 1 then
        mkWorld (Some (bid nb)) (mkStates [nb] [] [] [])
          (connectionStats w) (scene_add (bid nb) scene0)
          (nextConnectionUpdateTime w) (initialSetupDone w) (S (nextId w))
      else
        match conn0 with
        | None =>
            mkWorld (Some (bid nb))
              (mkStates (active cs ++ [nb]) (fadingIn cs) (fadingOut cs)
                 (pendingRemoval cs))
              (connectionStats w) (scene_add (bid nb) scene0)
              (nextConnectionUpdateTime w) (initialSetupDone w) (S (nextId w))
        | Some _ =>
            mkWorld conn0
              (mkStates (active cs) (fadingIn cs ++ [nb]) (fadingOut cs)
                 (pendingRemoval cs))
              (connectionStats w) (scene_add (bid nb) scene0)
              (nextConnectionUpdateTime w) (initialSetupDone w) (S (nextId w))
        end
  end.

End Builder.

(** ** updateConnections *)

(** The two nested colour loops ([j] over the spokes, [k] over the six
    components of a spoke) when every component gets the same update: the
    first [6 * n] entries of the buffer are rewritten. *)
Definition onSpokes (n : nat) (f : Q -> Q) (cs : list Q) : list Q :=
  map f (firstn (6 * n) cs) ++ skipn (6 * n) cs.

Definition setColors (conn : Batch) (cs : list Q) : Batch :=
  mkBatch (bid conn) (linePositions conn) cs (visible conn) (opacities conn)
    (state conn) (startTime conn) (hubsCount conn).

Definition setVisible (conn : Batch) (v : bool) : Batch :=
  mkBatch (bid conn) (linePositions conn) (colors conn) v (opacities conn)
    (state conn) (startTime conn) (hubsCount conn).

(** The [else] branch of the fading-in loop. *)
Definition fadeInStep (tNow : Q) (conn : Batch) : Batch :=
  let elapsed := sub64 tNow (startTime conn) in
  let progress := elapsed / FADE_IN_DURATION in
  let opacity := (6 # 10) * progress in
  setColors conn
    (onSpokes (length (opacities conn))
       (fun c => c * (9 # 10) + (1 # 10) * opacity) (colors conn)).

(** The fading-in loop with its [splice(i, 1); i--]: the batches that stay
    in [fadingIn] and, in push order, those pushed on [active]. *)
Fixpoint fadingInLoop (tNow : Q) (l : list Batch) : list Batch * list Batch :=
  match l with
  | [] => ([], [])
  | conn :: rest =>
      let '(stay, moved) := fadingInLoop tNow rest in
      let elapsed := sub64 tNow (startTime conn) in
      if Qgtb elapsed FADE_IN_DURATION
      then (stay, conn :: moved)
      else (fadeInStep tNow conn :: stay, moved)
  end.

Definition fadeOutFactor (tNow : Q) (conn : Batch) : Q :=
  let elapsed := sub64 tNow (startTime conn) in
  let progress := elapsed / FADE_OUT_DURATION in
  let easedProgress := 1 - cube (1 - progress) in
  1 - easedProgress.

(** The [else] branch of the fading-out loop. *)
Definition fadeOutStep (tNow : Q) (conn : Batch) : Batch :=
  let factor := fadeOutFactor tNow conn in
  let conn1 :=
    setColors conn
      (onSpokes (length (opacities conn))
         (fun c => c * (95 # 100) * factor) (colors conn)) in
  if Qltb factor (1 # 10) then setVisible conn1 false else conn1.

(** The fading-out loop: the batches that stay in [fadingOut] and those
    pushed on [pendingRemoval]. *)
Fixpoint fadingOutLoop (tNow : Q) (l : list Batch) : list Batch * list Batch :=
  match l with
  | [] => ([], [])
  | conn :: rest =>
      let '(stay, moved) := fadingOutLoop tNow rest in
      let elapsed := sub64 tNow (startTime conn) in
      if Qgtb elapsed FADE_OUT_DURATION
      then (stay, conn :: moved)
      else (fadeOutStep tNow conn :: stay, moved)
  end.

(** The pulse of an active batch: spoke [i] is pulled towards
    [0.5 + 0.2 * sin(tNow * 2 + i * 0.1)]; [n] spokes are left. *)
Fixpoint pulseColors (tNow : Q) (n : nat) (i : nat) (cs : list Q) : list Q :=
  match n with
  | O => cs
  | S n' =>
      let opacity :=
        (5 # 10) + (2 # 10) *
          Math_sin (tNow * 2 + inject_Z (Z.of_nat i) * (1 # 10)) in
      map (fun c => c * (95 # 100) + (5 # 100) * opacity) (firstn 6 cs)
        ++ pulseColors tNow n' (S i) (skipn 6 cs)
  end.

Definition pulseStep (tNow : Q) (conn : Batch) : Batch :=
  match opacities conn with
  | [] => conn
  | _ :: _ =>
      setColors conn
        (pulseColors tNow (length (opacities conn)) 0 (colors conn))
  end.

(** [pendingRemoval.forEach]: detach the lines that still have a parent. *)
Definition detachAll (l : list Batch) (s : list nat) : list nat :=
  fold_left
    (fun s conn => if has_parent (bid conn) s then scene_remove (bid conn) s
                   else s) l s.

Definition computeStats (cs : ConnectionStates) : ConnectionStats :=
  let a := sum_hubs (active cs) in
  let fi := sum_hubs (fadingIn cs) in
  let fo := sum_hubs (fadingOut cs) in
  mkStats a fi fo (a + fi + fo).

Definition tickStates (tNow : Q) (cs : ConnectionStates) : ConnectionStates :=
  let '(stayIn, promoted) := fadingInLoop tNow (fadingIn cs) in
  let '(stayOut, removed) := fadingOutLoop tNow (fadingOut cs) in
  mkStates (map (pulseStep tNow) (active cs ++ promoted)) stayIn stayOut
    removed.

Definition updateConnections (tNow : Q) (w : World) : World :=
  let cs := connectionStates w in
  let scene1 := detachAll (pendingRemoval cs) (scene w) in
  let cs' := tickStates tNow cs in
  mkWorld (connections w) cs' (computeStats cs') scene1
    (nextConnectionUpdateTime w) (initialSetupDone w) (nextId w).

(** ** The population balancer of render *)

Definition demote (tNow : Q) (conn : Batch) : Batch :=
  mkBatch (bid conn) (linePositions conn) (colors conn) (visible conn)
    (opacities conn) SFadingOut tNow (hubsCount conn).

(** [n] rounds of [conn = active.shift(); ...; fadingOut.push(conn)],
    stopping when [active] is empty.  The loop of the normal branch has no
    such test in its condition; its count never exceeds [active.length]
    (lemma [actualFadeOut_le_length]), so the test is never the one that
    stops it. *)
Fixpoint demoteLoop (n : nat) (tNow : Q) (cs : ConnectionStates)
  : ConnectionStates :=
  match n with
  | O => cs
  | S n' =>
      match active cs with
      | [] => cs
      | conn :: rest =>
          demoteLoop n' tNow
            (mkStates rest (fadingIn cs) (fadingOut cs ++ [demote tNow conn])
               (pendingRemoval cs))
      end
  end.

Definition activeLength (cs : ConnectionStates) : Z :=
  Z.of_nat (length (active cs)).

Definition numToRemove (total : Q) (cs : ConnectionStates) : Z :=
  let excessConnections := total - TARGET_CONNECTIONS in
  Z.min (activeLength cs) (Qceiling (excessConnections * (3 # 10))).

Definition numToFadeOut (cs : ConnectionStates) : Z :=
  Z.max 1 (Qceiling (inject_Z (activeLength cs) * CONNECTION_REFRESH_RATE)).

Definition minActiveToKeep : Z := Qfloor (TARGET_CONNECTIONS * (6 # 10)).

Definition actualFadeOut (cs : ConnectionStates) : Z :=
  if (activeLength cs - numToFadeOut cs <? minActiveToKeep)%Z
  then (activeLength cs - minActiveToKeep)%Z
  else numToFadeOut cs.

Definition balanceDemote (tNow : Q) (total : Q) (cs : ConnectionStates)
  : ConnectionStates :=
  if Qgtb total MAX_TOTAL_CONNECTIONS then
    demoteLoop (Z.to_nat (numToRemove total cs)) tNow cs
  else if (0 <? activeLength cs)%Z then
    if (0 <? actualFadeOut cs)%Z
    then demoteLoop (Z.to_nat (actualFadeOut cs)) tNow cs
    else cs
  else cs.

(** The spawn test of render and the count it passes to
    [createConnections]. *)
Definition connectionsToAdd (stats : ConnectionStats) : option Z :=
  let total := stat_total stats in
  if Qltb total MAX_TOTAL_CONNECTIONS &&
     Qltb (total - stat_fadingOut stats + 20) TARGET_CONNECTIONS
  then
    let deficit := TARGET_CONNECTIONS - (total - stat_fadingOut stats) in
    Some (Z.min 20 (Qceiling (deficit * (2 # 10))))
  else None.

Definition setStates (w : World) (next : Q) (cs : ConnectionStates) : World :=
  mkWorld (connections w) cs (connectionStats w) (scene w) next
    (initialSetupDone w) (nextId w).

(** The balancing cycle of [render]; [now] is the clock read by
    [createConnections]. *)
Definition balance (positions : Z -> Q) (rnd : nat -> Q) (tNow now : Q)
  (w : World) : World :=
  let totalCurrentConnections := stat_total (connectionStats w) in
  let w1 :=
    setStates w (add64 tNow SMALL_BATCH_INTERVAL)
      (balanceDemote tNow totalCurrentConnections (connectionStates w)) in
  match connectionsToAdd (connectionStats w) with
  | Some n =>
      if (0 <? n)%Z
      then createConnections positions rnd now CONNECTION_REFRESH_RATE
             (Some n) w1
      else w1
  | None => w1
  end.

(** The part of [render] that touches the connections: the point
    animation and the rotations do not. *)
Definition render (positions : Z -> Q) (rnd : nat -> Q) (tNow now : Q)
  (w : World) : World :=
  let w1 :=
    if initialSetupDone w && Qgeb tNow (nextConnectionUpdateTime w)
    then balance positions rnd tNow now w
    else w in
  updateConnections tNow w1.

(** One frame's inputs: the position buffer, the random draws, the clock
    at the start of [render] and the clock read by the builder. *)
Record Frame := mkFrame {
  f_positions : Z -> Q;
  f_rnd : nat -> Q;
  f_tNow : Q;
  f_now : Q
}.

Definition renderFrame (f : Frame) (w : World) : World :=
  render (f_positions f) (f_rnd f) (f_tNow f) (f_now f) w.

Definition run (fs : list Frame) (w : World) : World :=
  fold_left (fun w f => renderFrame f w) fs w.

(** [setupScene] as far as the connections go: the first build on the
    empty world, then [initialSetupDone = true]. *)
Definition emptyWorld : World :=
  mkWorld None (mkStates [] [] [] []) (mkStats 0 0 0 0) [] 0 false 0.

Definition createInitialConnections (positions : Z -> Q) (rnd : nat -> Q)
  (now : Q) (w : World) : World :=
  let w1 :=
    createConnections positions rnd now 1 (Some INITIAL_CONNECTIONS) w in
  mkWorld (connections w1) (connectionStates w1) (connectionStats w1)
    (scene w1) (nextConnectionUpdateTime w1) true (nextId w1).

End Model.

(** ** resize *)

(** A JavaScript number as far as finiteness goes. *)
Inductive jsnum := Fin (q : Q) | PosInf | NegInf | NaN.

Definition is_finite (x : jsnum) : bool :=
  match x with Fin _ => true | _ => false end.

Definition sign_inf (positive : bool) : jsnum :=
  if positive then PosInf else NegInf.

(** The [/] of the language (signed zeros apart: a zero divisor counts as
    [+0], which is what [window.innerHeight] gives). *)
Definition js_div (a b : jsnum) : jsnum :=
  match a, b with
  | NaN, _ | _, NaN => NaN
  | Fin x, Fin y =>
      if Qeq_bool y 0 then
        if Qeq_bool x 0 then NaN else sign_inf (Qltb 0 x)
      else Fin (x / y)
  | Fin _, _ => Fin 0
  | PosInf, Fin y => sign_inf (Qle_bool 0 y)
  | NegInf, Fin y => sign_inf (negb (Qle_bool 0 y))
  | _, _ => NaN
  end.

(** The camera and renderer fields [resize] writes; [projectionAspect] is
    the aspect [camera.updateProjectionMatrix()] last read. *)
Record Viewport := mkViewport {
  aspect : jsnum;
  projectionAspect : jsnum;
  rendererSize : jsnum * jsnum
}.

Definition updateProjectionMatrix (v : Viewport) : Viewport :=
  mkViewport (aspect v) (aspect v) (rendererSize v).

Definition resize (innerWidth innerHeight : Z) (v : Viewport) : Viewport :=
  let width := Fin (inject_Z innerWidth) in
  let height := Fin (inject_Z innerHeight) in
  let v1 := mkViewport (js_div width height) (projectionAspect v)
              (rendererSize v) in
  let v2 := updateProjectionMatrix v1 in
  mkViewport (aspect v2) (projectionAspect v2) (width, height).

(** ** The point field: randomGalaxyPoint, setupScene, the animation of
    render *)

Section PointField.

(** Host functions and constants: [Math_pow15 x] is [Math.pow(x, 1.5)]. *)
Variable Math_sqrt : Q -> Q.
Variable Math_sin : Q -> Q.
Variable Math_cos : Q -> Q.
Variable Math_acos : Q -> Q.
Variable Math_pow15 : Q -> Q.
Variable Math_PI : Q.

(** [randomGalaxyPoint], reading its draws from [rnd] at index [k] on; the
    result carries the index of the next draw, since the outer shell costs
    one more draw. *)
Definition randomGalaxyPoint (rnd : nat -> Q) (k : nat) : (Q * Q * Q) * nat :=
  let distance := Math_pow15 (rnd k) * 4 in
  let '(distance, k1) :=
    if Qgtb (rnd (k + 1)%nat) (95 # 100)
    then (4 + rnd (k + 2)%nat * 4, (k + 3)%nat)
    else (distance, (k + 2)%nat) in
  let theta := rnd k1 * Math_PI * 2 in
  let phi := Math_acos (2 * rnd (k1 + 1)%nat - 1) in
  let x := distance * Math_sin phi * Math_cos theta in
  let y := distance * Math_sin phi * Math_sin theta in
  let z := distance * Math_cos phi in
  ((x, y, z), (k1 + 2)%nat).

(** What [setupScene] computes for one point. *)
Record PointData := mkPoint {
  p_position : Q * Q * Q;
  p_color : Q * Q * Q;
  p_animated : Q
}.

Definition PERCENTAGE_ANIMATED : Q := 5 # 10.

(** The colour mix of [setupScene] for a point at distance [dist]. *)
Definition mixColor (dist : Q) : Q * Q * Q :=
  let distRatio := Qmin (dist / 6) 1 in
  let '(cenR, cenG, cenB) := hexToRgbNorm (centerColor CONFIG) in
  let '(outR, outG, outB) := hexToRgbNorm (outerColor CONFIG) in
  (cenR * (1 - distRatio) + outR * distRatio,
   cenG * (1 - distRatio) + outG * distRatio,
   cenB * (1 - distRatio) + outB * distRatio).

(** One iteration of the point loop of [setupScene], from draw [k] on. *)
Definition setupPoint (rnd : nat -> Q) (k : nat) : PointData * nat :=
  let '((x, y, z), k1) := randomGalaxyPoint rnd k in
  let dist := Math_sqrt (x * x + y * y + z * z) in
  (mkPoint (x, y, z) (mixColor dist)
     (if Qltb (rnd k1) PERCENTAGE_ANIMATED then 1 else 0),
   S k1).

(** [n] iterations of that loop: the points in index order and the index of
    the next draw. *)
Fixpoint setupPoints (rnd : nat -> Q) (n : nat) (k : nat)
  : list PointData * nat :=
  match n with
  | O => ([], k)
  | S n' =>
      let '(p, k1) := setupPoint rnd k in
      let '(ps, k2) := setupPoints rnd n' k1 in
      (p :: ps, k2)
  end.

(** A buffer write [a[i] = v]. *)
Definition setAt (a : Z -> Q) (i : Z) (v : Q) : Z -> Q :=
  fun j => if (j =? i)%Z then v else a j.

(** The writes [positions[i * 3] = x], [positions[i * 3 + 1] = y],
    [positions[i * 3 + 2] = z] of the point loop, for the points from
    index [i] on; [positions] is a [Float32Array], which keeps the single
    precision rounding of what is stored. *)
Fixpoint fillPositions (ps : list PointData) (i : Z) (positions : Z -> Q)
  : Z -> Q :=
  match ps with
  | [] => positions
  | p :: ps' =>
      let '(x, y, z) := p_position p in
      fillPositions ps' (i + 1)%Z
        (setAt (setAt (setAt positions (i * 3)%Z (fround x))
                  (i * 3 + 1)%Z (fround y))
           (i * 3 + 2)%Z (fround z))
  end.

(** The [positions] buffer after the loop, on its indices [0] to
    [NUM_POINTS * 3 - 1]: a new [Float32Array] holds zeros. *)
Definition positionsOf (ps : list PointData) : Z -> Q :=
  fillPositions ps 0 (fun _ => 0).

(** [setupScene] as far as points and connections go: the point loop, then
    the first build, which goes on reading the same random stream. *)
Definition setupScene (rnd : nat -> Q) (now : Q) : list PointData * World :=
  let '(ps, k) := setupPoints rnd (Z.to_nat NUM_POINTS) 0 in
  (ps,
   createInitialConnections Math_sqrt (positionsOf ps)
     (fun j => rnd (k + j)%nat) now emptyWorld).

(** The scale factor render gives point [i] at time [tNow]. *)
Definition pointScale (tNow : Q) (i : Z) : Q :=
  let phase := inject_Z i * (1 # 10000) in
  let frequency := (5 # 10) + (5 # 10) * inject_Z (i mod 5) * (1 # 10) in
  (9 # 10) + (2 # 10) * Math_sin (tNow * frequency + phase).

(** The animation loop of [render]: [n] points left, [i] the current one;
    [positions] is the rendered buffer, [originalPositions] its copy made
    at setup, [animatedFlags] the flags. *)
Fixpoint animateLoop (tNow : Q) (originalPositions animatedFlags : Z -> Q)
  (n : nat) (i : Z) (positions : Z -> Q) : Z -> Q :=
  match n with
  | O => positions
  | S n' =>
      let positions' :=
        if Qgtb (animatedFlags i) 0 then
          let x := originalPositions (i * 3)%Z in
          let y := originalPositions (i * 3 + 1)%Z in
          let z := originalPositions (i * 3 + 2)%Z in
          let dist := Math_sqrt (x * x + y * y + z * z) in
          if Qltb dist (1 # 10) then positions
          else
            let scale := pointScale tNow i in
            setAt (setAt (setAt positions (i * 3)%Z (x * scale))
                     (i * 3 + 1)%Z (y * scale))
              (i * 3 + 2)%Z (z * scale)
        else positions in
      animateLoop tNow originalPositions animatedFlags n' (i + 1)%Z positions'
  end.

Definition animatePoints (tNow : Q) (originalPositions animatedFlags : Z -> Q)
  (positions : Z -> Q) : Z -> Q :=
  animateLoop tNow originalPositions animatedFlags (Z.to_nat NUM_POINTS) 0
    positions.

End PointField.

(** ** Vocabulary of the properties *)



(** The channels of a 24-bit colour number. *)
Definition rgbOf (num : Z) : Q * Q * Q :=
  (inject_Z (Z.land (Z.shiftr num 16) 255) / 255,
   inject_Z (Z.land (Z.shiftr num 8) 255) / 255,
   inject_Z (Z.land num 255) / 255).

(** The value [parseInt] has accumulated so far. *)
Definition accValue (acc : option Z) : Z :=
  match acc with Some a => a | None => 0%Z end.



(** Number of probes that draw the anchor itself. *)
Fixpoint anchorDraws (rnd : nat -> Q) (hubIndex : Z) (n k : nat) : nat :=
  match n with
  | O => O
  | S n' =>
      (if (randomIndex (rnd k) =? hubIndex)%Z then 1 else 0)
      + anchorDraws rnd hubIndex n' (S k)
  end.

(** The elapsed time a tick at [tNow] computes for a batch. *)
Definition elapsedAt (tNow : Q) (conn : Batch) : Q :=
  sub64 tNow (startTime conn).

(** The tests of the two fading loops. *)
Definition fadeInDone (tNow : Q) (conn : Batch) : bool :=
  Qgtb (elapsedAt tNow conn) FADE_IN_DURATION.
Definition fadeOutDone (tNow : Q) (conn : Batch) : bool :=
  Qgtb (elapsedAt tNow conn) FADE_OUT_DURATION.

(** How one bucket feeds the next over a step. *)
Definition feeds (cs cs' : ConnectionStates) (i : nat) : Prop :=
  (In i (bids (fadingIn cs')) -> In i (bids (fadingIn cs))) /\
  (In i (bids (active cs')) ->
   In i (bids (active cs)) \/ In i (bids (fadingIn cs))) /\
  (In i (bids (fadingOut cs')) ->
   In i (bids (fadingOut cs)) \/ In i (bids (active cs))) /\
  (In i (bids (pendingRemoval cs')) -> In i (bids (fadingOut cs))) /\
  (In i (bids (fadingIn cs)) ->
   In i (bids (fadingIn cs')) \/ In i (bids (active cs'))) /\
  (In i (bids (active cs)) ->
   In i (bids (active cs')) \/ In i (bids (fadingOut cs'))) /\
  (In i (bids (fadingOut cs)) ->
   In i (bids (fadingOut cs')) \/ In i (bids (pendingRemoval cs'))).

(** The buckets just before the tick of a frame: [n] batches demoted from
    the front of [active], and the batch the builder added, if any. *)
Definition preTickStates (tNow : Q) (cs : ConnectionStates) (n : nat)
  (newA newFI : list Batch) : ConnectionStates :=
  mkStates (skipn n (active cs) ++ newA) (fadingIn cs ++ newFI)
    (fadingOut cs ++ map (demote tNow) (firstn n (active cs)))
    (pendingRemoval cs).

(** The world a frame hands to [updateConnections]. *)
Definition preTick sqrt positions rnd (tNow now : Q) (w : World) : World :=
  if initialSetupDone w && Qgeb tNow (nextConnectionUpdateTime w)
  then balance sqrt positions rnd tNow now w
  else w.

(** Every batch object sits in at most one place of the four buckets, and
    its identity was allocated before [nextId]. *)
Definition wfWorld (w : World) : Prop :=
  NoDup (bids (all_batches (connectionStates w))) /\
  Forall (fun i => (i < nextId w)%nat)
    (bids (all_batches (connectionStates w))).

(** [a] was created no later than [b]: the start time of a batch that has
    not been demoted is the clock value of its creation. *)
Definition older (a b : Batch) : Prop := startTime a <= startTime b.

(** The live batches in creation order: [active] followed by [fadingIn] is
    sorted by creation time, nothing was created after clock value [T], and
    the buckets are empty as long as [connections] is null. *)
Definition clockInv (T : Q) (w : World) : Prop :=
  let cs := connectionStates w in
  StronglySorted older (active cs ++ fadingIn cs) /\
  Forall (fun b => startTime b <= T) (active cs ++ fadingIn cs) /\
  (connections w = None -> active cs = [] /\ fadingIn cs = []).

(** Frames whose clock readings never go back, starting after [T]. *)
Fixpoint clockOrdered (T : Q) (fs : list Frame) : Prop :=
  match fs with
  | [] => True
  | f :: fs' =>
      T <= f_tNow f /\ f_tNow f <= f_now f /\ clockOrdered (f_now f) fs'
  end.

(** A batch of [h] whole hubs, [h] at least 1: three opacities and
    eighteen colour and position values per hub. *)
Definition shaped (b : Batch) : Prop :=
  exists h : nat,
    (1 <= h)%nat /\
    length (opacities b) = (3 * h)%nat /\
    length (colors b) = (18 * h)%nat /\
    length (linePositions b) = (18 * h)%nat /\
    hubsCount b == inject_Z (Z.of_nat h).

(** Hubs that are live: in [active] or [fadingIn]. *)
Definition liveHubs (cs : ConnectionStates) : Q :=
  sum_hubs (active cs) + sum_hubs (fadingIn cs).

(** The statistics agree with the buckets on the live hubs. *)
Definition statsLive (w : World) : Prop :=
  stat_total (connectionStats w) - stat_fadingOut (connectionStats w)
  == liveHubs (connectionStates w).

(** Frames that only tick. *)
Definition tickOnly (sin : Q -> Q) (fs : list Frame) (w : World) : World :=
  fold_left (fun w f => updateConnections sin (f_tNow f) w) fs w.

(** Scene and buckets hold the same batches. *)
Definition sceneTracks (w : World) : Prop :=
  NoDup (scene w) /\
  forall i, In i (scene w) <-> In i (bids (all_batches (connectionStates w))).

(** Every colour component of the batch lies in [[lo, hi]]. *)
Definition colorsIn (lo hi : Q) (b : Batch) : Prop :=
  Forall (fun c => lo <= c <= hi) (colors b).

(** A generated point with every coordinate within the outer shell radius,
    colour channels in [[0, 1]] and a flag that is 0 or 1. *)
Definition pointInRange (p : PointData) : Prop :=
  let '(x, y, z) := p_position p in
  let '(r, g, b) := p_color p in
  (-8 <= x <= 8 /\ -8 <= y <= 8 /\ -8 <= z <= 8) /\
  (0 <= r <= 1 /\ 0 <= g <= 1 /\ 0 <= b <= 1) /\
  (p_animated p = 0 \/ p_animated p = 1).

(** Point [i] is moved by the animation: it is flagged and not within 0.1
    of the centre. *)
Definition pointMoves (sqrt : Q -> Q) (originalPositions animatedFlags : Z -> Q)
  (i : Z) : bool :=
  Qgtb (animatedFlags i) 0 &&
  negb (Qltb (sqrt (originalPositions (i * 3)%Z * originalPositions (i * 3)%Z
                    + originalPositions (i * 3 + 1)%Z
                      * originalPositions (i * 3 + 1)%Z
                    + originalPositions (i * 3 + 2)%Z
                      * originalPositions (i * 3 + 2)%Z))
          (1 # 10)).

(** Coordinate [c] of a point. *)
Definition component (c : Z) (p : PointData) : Q :=
  let '(x, y, z) := p_position p in
  if (c =? 0)%Z then x else if (c =? 1)%Z then y else z.

(** [b'] is [b] up to its colour values and its visibility. *)
Definition sameBatch (b b' : Batch) : Prop :=
  bid b' = bid b /\ state b' = state b /\ startTime b' = startTime b /\
  hubsCount b' = hubsCount b /\ opacities b' = opacities b /\
  linePositions b' = linePositions b /\
  length (colors b') = length (colors b).

(** ** Sample inputs

    Concrete hosts, buffers and worlds on which the model is run. *)

(** A square root that is exact on squares of rationals, and a polynomial
    in place of the sine: the results below hold for every host function,
    these two only serve to evaluate the model. *)
Definition sqrtQ (q : Q) : Q :=
  let r := Qred q in Z.sqrt (Qnum r) # Pos.sqrt (Qden r).

Definition sinPoly (x : Q) : Q := x - x * x * x / 6.

(** Point 0 at the origin, points 1, 2, 3 one unit away on the axes, all
    other points at [(10, 0, 0)]. *)
Definition samplePositions (i : Z) : Q :=
  if (i <? 3)%Z then 0
  else if (i =? 3)%Z || (i =? 7)%Z || (i =? 11)%Z then 1
  else if (i <? 12)%Z then 0
  else if (i mod 3 =? 0)%Z then 10 else 0.

(** Draws that pick point 0 as the anchor of every hub and point 1 at
    every probe. *)
Definition rndSameNeighbor (k : nat) : Q :=
  if (k mod 54 =? 0)%nat then 0 else 1 # 50000.

(** The same, except that the first probe of every hub draws the anchor
    itself. *)
Definition rndAnchorProbe (k : nat) : Q :=
  if (k mod 54 =? 0)%nat || (k mod 54 =? 4)%nat then 0 else 1 # 50000.

(** Draws that pick points 3, 1, 2 in turn at the probes. *)
Definition rndThreeNeighbors (k : nat) : Q :=
  if (k mod 54 =? 0)%nat then 0
  else if (k mod 3 =? 0)%nat then 3 # 50000
  else if (k mod 3 =? 1)%nat then 1 # 50000
  else 2 # 50000.

(** A batch of [h] hubs with every colour component at [c]. *)
Definition sampleBatch (i : nat) (h : nat) (c : Q) (st : BatchState)
  (start : Q) : Batch :=
  mkBatch i (repeat 1 (18 * h)) (repeat c (18 * h)) true
    (repeat (5 # 10) (3 * h)) st start (inject_Z (Z.of_nat h)).

Definition sampleBatches (first n h : nat) : list Batch :=
  map (fun i => sampleBatch i h (5 # 10) SActive 0) (seq first n).

Definition worldOf (cs : ConnectionStates) (n : nat) : World :=
  mkWorld (Some 0%nat) cs (computeStats cs) (bids (all_batches cs)) 0 true n.

(** One batch that entered [fadingOut] at time 5. *)
Definition fadingOutWorld : World :=
  worldOf (mkStates [] [] [sampleBatch 0 1 (5 # 10) SFadingOut 5] []) 1.

(** One batch of each bucket. *)
Definition mixedWorld : World :=
  worldOf (mkStates [sampleBatch 0 2 (5 # 10) SActive 0]
                    [sampleBatch 1 1 (1 # 100) SFadingIn 4]
                    [sampleBatch 2 1 (3 # 10) SFadingOut 3]
                    [sampleBatch 3 1 0 SFadingOut 1]) 4.

(** A hundred active batches of seven hubs each: 700 hubs. *)
Definition crowdedWorld : World :=
  worldOf (mkStates (sampleBatches 0 100 7) [] [] []) 100.

(** 250 active batches of one hub each. *)
Definition steadyWorld : World :=
  worldOf (mkStates (sampleBatches 0 250 1) [] [] []) 250.

Definition sampleViewport : Viewport :=
  mkViewport (Fin (16 # 9)) (Fin (16 # 9)) (Fin 1600, Fin 900).

(** The world after a first build that found no hub: every probe drew the
    anchor itself. *)
Definition noHubWorld : World :=
  createInitialConnections sqrtQ samplePositions (fun _ => 0) 0 emptyWorld.

(** Two frames: the first one balances at time 5, the second only ticks
    at time 5.5. *)
Definition sampleFrames : list Frame :=
  [mkFrame samplePositions rndSameNeighbor 5 (501 # 100);
   mkFrame samplePositions rndThreeNeighbors (55 # 10) (551 # 100)].

(** Rational functions with the range of sine and cosine. *)
Definition sinRat (x : Q) : Q := 2 * x / (1 + x * x).
Definition cosRat (x : Q) : Q := (1 - x * x) / (1 + x * x).

(** Draws that send the points whose shell test falls on a draw index
    [11 * m + 1] to the outer shell. *)
Definition rndShell (k : nat) : Q :=
  if (k mod 11 =? 1)%nat then 96 # 100 else 1 # 2.

(** Three points as the point loop may compute them. *)
Definition samplePoints : list PointData :=
  [mkPoint (1 # 10, 2, -3) (0, 0, 0) 1;
   mkPoint (8, -(1 # 3), 0) (0, 0, 0) 0;
   mkPoint (-8, 5 # 7, 1 # 1000) (0, 0, 0) 1].

(** Flags that animate the even points. *)
Definition sampleFlags (i : Z) : Q := if (i mod 2 =? 0)%Z then 1 else 0.

(** Two frames, at times 1.5 and 1.9. *)
Definition quietFrames : list Frame :=
  [mkFrame samplePositions rndThreeNeighbors (15 # 10) (151 # 100);
   mkFrame samplePositions rndThreeNeighbors (19 # 10) (191 # 100)].

(** * Properties *)

(** ** Comparisons *)

Lemma Qltb_lt (a b : Q) : Qltb a b = true <-> a < b.
Proof.
  unfold Qltb. rewrite negb_true_iff.
  split; intro H.
  - apply Qnot_le_lt. intro L. apply Qle_bool_iff in L. congruence.
  - destruct (Qle_bool b a) eqn:E; [|reflexivity].
    apply Qle_bool_iff in E. exfalso. exact (Qlt_not_le _ _ H E).
Qed.

Lemma Qltb_ge (a b : Q) : Qltb a b = false <-> b <= a.
Proof.
  unfold Qltb. rewrite negb_false_iff. apply Qle_bool_iff.
Qed.

Lemma Qgtb_gt (a b : Q) : Qgtb a b = true <-> b < a.
Proof. apply Qltb_lt. Qed.

Lemma Qgtb_le (a b : Q) : Qgtb a b = false <-> a <= b.
Proof. apply Qltb_ge. Qed.

(** ** Powers of two *)

Lemma pow2_pos (e : Z) : 0 < pow2 e.
Proof. apply Qpower_0_lt. reflexivity. Qed.

Lemma pow2_add (a b : Z) : pow2 (a + b) == pow2 a * pow2 b.
Proof. apply Qpower_plus. discriminate. Qed.

Lemma pow2_sub (a b : Z) : pow2 (a - b) == pow2 a / pow2 b.
Proof. apply Qpower_minus. discriminate. Qed.

Lemma pow2_le (a b : Z) : (a <= b)%Z -> pow2 a <= pow2 b.
Proof. intro H. apply Qpower_le_compat_l; [exact H | discriminate]. Qed.

Lemma pow2_lt (a b : Z) : (a < b)%Z -> pow2 a < pow2 b.
Proof. intro H. apply Qpower_lt_compat_l; [exact H | reflexivity]. Qed.

Lemma pow2_lt_inv (a b : Z) : pow2 a < pow2 b -> (a < b)%Z.
Proof. intro H. eapply Qpower_lt_compat_l_inv; [exact H | reflexivity]. Qed.

Lemma pow2_Z (e : Z) : (0 <= e)%Z -> pow2 e == inject_Z (2 ^ e).
Proof. intro H. unfold pow2. now rewrite Zpower_Qpower. Qed.

Lemma Qdiv_lt_cross (a b c d : Q) :
  0 < b -> 0 < d -> a * d < c * b -> a / b < c / d.
Proof.
  intros Hb Hd H.
  apply Qlt_shift_div_r; [exact Hb|].
  assert (E : c / d * b == (c * b) / d) by (field; lra).
  rewrite E. apply Qlt_shift_div_l; assumption.
Qed.

Lemma Qdiv_le_cross (a b c d : Q) :
  0 < b -> 0 < d -> a * d <= c * b -> a / b <= c / d.
Proof.
  intros Hb Hd H.
  apply Qle_shift_div_r; [exact Hb|].
  assert (E : c / d * b == (c * b) / d) by (field; lra).
  rewrite E. apply Qle_shift_div_l; assumption.
Qed.

(** ** The binary logarithm *)

Lemma ilog2_spec (x : Q) :
  0 < x -> pow2 (ilog2 x) <= x /\ x < pow2 (ilog2 x + 1).
Proof.
  intro Hx. destruct x as [n d].
  assert (Hn : (0 < n)%Z) by (unfold Qlt in Hx; simpl in Hx; lia).
  unfold ilog2. cbn [Qnum Qden].
  set (a := Z.log2 n). set (b := Z.log2 (Z.pos d)).
  assert (Ha : (2 ^ a <= n < 2 ^ (a + 1))%Z).
  { unfold a. pose proof (Z.log2_spec n Hn). rewrite <- Z.add_1_r in H. lia. }
  assert (Hb : (2 ^ b <= Z.pos d < 2 ^ (b + 1))%Z).
  { unfold b. pose proof (Z.log2_spec (Z.pos d) eq_refl).
    rewrite <- Z.add_1_r in H. lia. }
  assert (A0 : (0 <= a)%Z) by apply Z.log2_nonneg.
  assert (B0 : (0 <= b)%Z) by apply Z.log2_nonneg.
  assert (E : n # d == inject_Z n / inject_Z (Z.pos d)) by apply Qmake_Qdiv.
  assert (Dpos : 0 < inject_Z (Z.pos d)) by reflexivity.
  assert (Up : n # d < pow2 (a - b + 1)).
  { replace (a - b + 1)%Z with ((a + 1) - b)%Z by lia.
    rewrite pow2_sub, E, !pow2_Z by lia.
    apply Qdiv_lt_cross; [exact Dpos | |].
    - rewrite <- pow2_Z by lia. apply pow2_pos.
    - rewrite <- !inject_Z_mult, <- Zlt_Qlt. nia. }
  assert (Lo : pow2 (a - b - 1) <= n # d).
  { replace (a - b - 1)%Z with (a - (b + 1))%Z by lia.
    rewrite pow2_sub, E, !pow2_Z by lia.
    apply Qdiv_le_cross; [| exact Dpos |].
    - rewrite <- pow2_Z by lia. apply pow2_pos.
    - rewrite <- !inject_Z_mult, <- Zle_Qle. nia. }
  destruct (Qle_bool (pow2 (a - b)) (n # d)) eqn:T.
  - apply Qle_bool_iff in T. split; assumption.
  - split; [exact Lo|].
    replace (a - b - 1 + 1)%Z with (a - b)%Z by lia.
    apply Qnot_le_lt. intro L. apply Qle_bool_iff in L. congruence.
Qed.

Lemma ilog2_unique (x : Q) (k : Z) :
  pow2 k <= x -> x < pow2 (k + 1) -> ilog2 x = k.
Proof.
  intros L U.
  assert (Hx : 0 < x) by (pose proof (pow2_pos k); lra).
  destruct (ilog2_spec x Hx) as [L' U'].
  assert (k < ilog2 x + 1)%Z by (apply pow2_lt_inv; lra).
  assert (ilog2 x < k + 1)%Z by (apply pow2_lt_inv; lra).
  lia.
Qed.

Lemma ilog2_mono (x y : Q) : 0 < x -> x <= y -> (ilog2 x <= ilog2 y)%Z.
Proof.
  intros Hx Hxy.
  destruct (ilog2_spec x Hx) as [L _].
  destruct (ilog2_spec y) as [_ U]; [lra|].
  assert (ilog2 x < ilog2 y + 1)%Z by (apply pow2_lt_inv; lra).
  lia.
Qed.

(** ** Rounding to the nearest integer, ties to even *)

Lemma roundHalfEven_cases (q : Q) :
  (roundHalfEven q = Qfloor q /\ q - inject_Z (Qfloor q) <= 1 # 2 /\
   (q - inject_Z (Qfloor q) == 1 # 2 -> Z.even (Qfloor q) = true)) \/
  (roundHalfEven q = (Qfloor q + 1)%Z /\ 1 # 2 <= q - inject_Z (Qfloor q) /\
   (q - inject_Z (Qfloor q) == 1 # 2 -> Z.even (Qfloor q) = false)).
Proof.
  unfold roundHalfEven.
  destruct (Qltb (q - inject_Z (Qfloor q)) (1 # 2)) eqn:A.
  - apply Qltb_lt in A. left. split; [reflexivity|]. split; [lra|].
    intro E. lra.
  - apply Qltb_ge in A.
    destruct (Qltb (1 # 2) (q - inject_Z (Qfloor q))) eqn:B.
    + apply Qltb_lt in B. right. split; [reflexivity|]. split; [lra|].
      intro E. lra.
    + apply Qltb_ge in B.
      destruct (Z.even (Qfloor q)) eqn:Ev.
      * left. split; [reflexivity|]. split; [lra|auto].
      * right. split; [reflexivity|]. split; [lra|auto].
Qed.

Lemma Qfloor_bounds (q : Q) :
  inject_Z (Qfloor q) <= q /\ q < inject_Z (Qfloor q) + 1.
Proof.
  split; [apply Qfloor_le|].
  pose proof (Qlt_floor q) as H. rewrite inject_Z_plus in H. exact H.
Qed.

Lemma roundHalfEven_mono (q1 q2 : Q) :
  q1 <= q2 -> (roundHalfEven q1 <= roundHalfEven q2)%Z.
Proof.
  intro H.
  pose proof (Qfloor_resp_le _ _ H) as F.
  pose proof (Qfloor_bounds q1) as [L1 U1].
  pose proof (Qfloor_bounds q2) as [L2 U2].
  destruct (Z.eq_dec (Qfloor q1) (Qfloor q2)) as [E|N].
  - destruct (roundHalfEven_cases q1) as [(R1 & A1 & B1)|(R1 & A1 & B1)];
    destruct (roundHalfEven_cases q2) as [(R2 & A2 & B2)|(R2 & A2 & B2)];
      rewrite R1, R2; try lia.
    exfalso. rewrite E in *.
    assert (E1 : q1 - inject_Z (Qfloor q2) == 1 # 2) by lra.
    assert (E2 : q2 - inject_Z (Qfloor q2) == 1 # 2) by lra.
    specialize (B1 E1). specialize (B2 E2). congruence.
  - destruct (roundHalfEven_cases q1) as [(R1 & _)|(R1 & _)];
    destruct (roundHalfEven_cases q2) as [(R2 & _)|(R2 & _)];
      rewrite R1, R2; lia.
Qed.

Lemma roundHalfEven_Z (n : Z) : roundHalfEven (inject_Z n) = n.
Proof.
  unfold roundHalfEven. rewrite Qfloor_Z.
  destruct (Qltb (inject_Z n - inject_Z n) (1 # 2)) eqn:A; [reflexivity|].
  apply Qltb_ge in A. lra.
Qed.

Lemma roundHalfEven_comp (q1 q2 : Q) :
  q1 == q2 -> roundHalfEven q1 = roundHalfEven q2.
Proof.
  intro E. apply Z.le_antisymm; apply roundHalfEven_mono; lra.
Qed.

Lemma roundHalfEven_le (q : Q) (n : Z) :
  q <= inject_Z n -> (roundHalfEven q <= n)%Z.
Proof.
  intro H. rewrite <- (roundHalfEven_Z n). now apply roundHalfEven_mono.
Qed.

Lemma roundHalfEven_ge (q : Q) (n : Z) :
  inject_Z n <= q -> (n <= roundHalfEven q)%Z.
Proof.
  intro H. rewrite <- (roundHalfEven_Z n) at 1. now apply roundHalfEven_mono.
Qed.

(** Above the midpoint the next integer is taken. *)
Lemma roundHalfEven_above (q : Q) (n : Z) :
  inject_Z n + (1 # 2) < q -> (n + 1 <= roundHalfEven q)%Z.
Proof.
  intro H.
  pose proof (Qfloor_bounds q) as [L U].
  assert (F : (n <= Qfloor q)%Z).
  { apply Z.lt_succ_r. rewrite Zlt_Qlt. unfold Z.succ.
    rewrite inject_Z_plus. change (inject_Z 1) with 1. lra. }
  destruct (roundHalfEven_cases q) as [(R & A & _)|(R & _)]; rewrite R.
  - destruct (Z.eq_dec n (Qfloor q)) as [E|N]; [|lia].
    rewrite <- E in A. lra.
  - lia.
Qed.

(** ** Rounding to a precision *)

Lemma exponentOf_mono prec emin (x y : Q) :
  0 < x -> x <= y -> (exponentOf prec emin x <= exponentOf prec emin y)%Z.
Proof.
  intros Hx Hxy. pose proof (ilog2_mono x y Hx Hxy).
  unfold exponentOf. destruct emin; lia.
Qed.

Lemma roundPos_mono prec emin (x y : Q) :
  (1 <= prec)%Z -> 0 < x -> x <= y ->
  roundPos prec emin x <= roundPos prec emin y.
Proof.
  intros Hp Hx Hxy.
  assert (Hy : 0 < y) by lra.
  pose proof (exponentOf_mono prec emin x y Hx Hxy) as He.
  unfold roundPos.
  set (ex := exponentOf prec emin x) in *.
  set (ey := exponentOf prec emin y) in *.
  pose proof (pow2_pos ex) as Px. pose proof (pow2_pos ey) as Py.
  destruct (Z.eq_dec ex ey) as [E|N].
  - rewrite <- E.
    apply Qmult_le_compat_r; [|lra].
    rewrite <- Zle_Qle. apply roundHalfEven_mono.
    apply Qmult_le_compat_r; [exact Hxy|].
    apply Qlt_le_weak, Qinv_lt_0_compat, Px.
  - assert (Hlt : (ex < ey)%Z) by lia.
    (* the power of two between x and y *)
    assert (Ey : ey = (ilog2 y - (prec - 1))%Z).
    { subst ex ey. unfold exponentOf in *. destruct emin as [m|]; [|reflexivity].
      pose proof (ilog2_mono x y Hx Hxy). lia. }
    assert (Lxy : (ilog2 x < ilog2 y)%Z).
    { subst ex ey. unfold exponentOf in *. destruct emin as [m|]; lia. }
    assert (Ex : (ilog2 x - (prec - 1) <= ex)%Z).
    { subst ex. unfold exponentOf. destruct emin; lia. }
    destruct (ilog2_spec x Hx) as [_ Ux].
    destruct (ilog2_spec y Hy) as [Ly _].
    set (B := pow2 (ilog2 y)).
    assert (HxB : x <= B).
    { apply Qlt_le_weak. eapply Qlt_le_trans; [exact Ux|].
      apply pow2_le. lia. }
    assert (Bx : B == inject_Z (2 ^ (ilog2 y - ex)) * pow2 ex).
    { rewrite <- pow2_Z by lia. rewrite <- pow2_add. unfold B.
      now replace (ilog2 y - ex + ex)%Z with (ilog2 y) by lia. }
    assert (By : B == inject_Z (2 ^ (ilog2 y - ey)) * pow2 ey).
    { rewrite <- pow2_Z by lia. rewrite <- pow2_add. unfold B.
      now replace (ilog2 y - ey + ey)%Z with (ilog2 y) by lia. }
    apply Qle_trans with B.
    + rewrite Bx. apply Qmult_le_compat_r; [|lra].
      rewrite <- Zle_Qle. apply roundHalfEven_le.
      apply Qle_shift_div_r; [exact Px|]. rewrite <- Bx. exact HxB.
    + rewrite By. apply Qmult_le_compat_r; [|lra].
      rewrite <- Zle_Qle. apply roundHalfEven_ge.
      apply Qle_shift_div_l; [exact Py|]. rewrite <- By. exact Ly.
Qed.

Lemma roundPos_nonneg prec emin (x : Q) : 0 < x -> 0 <= roundPos prec emin x.
Proof.
  intro Hx. unfold roundPos.
  pose proof (pow2_pos (exponentOf prec emin x)) as P.
  apply Qmult_le_0_compat; [|lra].
  change 0 with (inject_Z 0). rewrite <- Zle_Qle. apply roundHalfEven_ge.
  change (inject_Z 0) with 0.
  apply Qle_shift_div_l; [exact P|]. lra.
Qed.

(** Without a least exponent, a positive number rounds to a positive one. *)
Lemma roundPos_pos prec (x : Q) :
  (1 <= prec)%Z -> 0 < x -> 0 < roundPos prec None x.
Proof.
  intros Hp Hx. unfold roundPos, exponentOf.
  set (e := (ilog2 x - (prec - 1))%Z).
  pose proof (pow2_pos e) as P.
  destruct (ilog2_spec x Hx) as [L _].
  apply Qmult_lt_0_compat; [|exact P].
  change 0 with (inject_Z 0). rewrite <- Zlt_Qlt.
  apply Z.lt_le_trans with 1%Z; [lia|].
  apply roundHalfEven_ge. change (inject_Z 1) with 1.
  apply Qle_shift_div_l; [exact P|].
  rewrite Qmult_1_l. eapply Qle_trans; [|exact L].
  apply pow2_le. lia.
Qed.

Lemma Qnum_pos (x : Q) : 0 < x <-> (0 < Qnum x)%Z.
Proof. unfold Qlt. simpl. lia. Qed.

Lemma Qnum_neg (x : Q) : x < 0 <-> (Qnum x < 0)%Z.
Proof. unfold Qlt. simpl. lia. Qed.

Lemma roundTo_pos_eq prec emin (x : Q) :
  0 < x -> roundTo prec emin x = roundPos prec emin x.
Proof.
  intro H. apply Qnum_pos in H. unfold roundTo.
  destruct (Qnum x); try lia. reflexivity.
Qed.

Lemma roundTo_neg_eq prec emin (x : Q) :
  x < 0 -> roundTo prec emin x = - roundPos prec emin (- x).
Proof.
  intro H. apply Qnum_neg in H. unfold roundTo.
  destruct (Qnum x); try lia. reflexivity.
Qed.

Lemma roundTo_zero_eq prec emin (x : Q) : x == 0 -> roundTo prec emin x = 0.
Proof.
  intro H. unfold roundTo.
  assert (Qnum x = 0%Z) by (unfold Qeq in H; simpl in H; lia).
  now rewrite H0.
Qed.

Lemma roundTo_mono prec emin (x y : Q) :
  (1 <= prec)%Z -> x <= y -> roundTo prec emin x <= roundTo prec emin y.
Proof.
  intros Hp H.
  destruct (Q_dec x 0) as [[Xn|Xp]|X0]; destruct (Q_dec y 0) as [[Yn|Yp]|Y0];
    try lra.
  - rewrite (roundTo_neg_eq _ _ x Xn), (roundTo_neg_eq _ _ y Yn).
    apply Qopp_le_compat. apply roundPos_mono; [exact Hp | lra | lra].
  - rewrite (roundTo_neg_eq _ _ x Xn), (roundTo_pos_eq _ _ y Yp).
    assert (0 <= roundPos prec emin (- x)) by (apply roundPos_nonneg; lra).
    pose proof (roundPos_nonneg prec emin y Yp). lra.
  - rewrite (roundTo_neg_eq _ _ x Xn), (roundTo_zero_eq _ _ y Y0).
    assert (0 <= roundPos prec emin (- x)) by (apply roundPos_nonneg; lra).
    lra.
  - rewrite (roundTo_pos_eq _ _ x Xp), (roundTo_pos_eq _ _ y Yp).
    apply roundPos_mono; [exact Hp | lra | lra].
  - rewrite (roundTo_zero_eq _ _ x X0), (roundTo_pos_eq _ _ y Yp).
    now apply roundPos_nonneg.
  - rewrite (roundTo_zero_eq _ _ x X0), (roundTo_zero_eq _ _ y Y0). lra.
Qed.

Lemma roundTo_comp prec emin (x y : Q) :
  (1 <= prec)%Z -> x == y -> roundTo prec emin x == roundTo prec emin y.
Proof.
  intros Hp E. apply Qle_antisym; apply roundTo_mono; auto; lra.
Qed.

Lemma roundTo_opp prec emin (x : Q) :
  roundTo prec emin (- x) == - roundTo prec emin x.
Proof.
  destruct (Q_dec x 0) as [[Xn|Xp]|X0].
  - rewrite (roundTo_neg_eq _ _ x Xn), roundTo_pos_eq by lra. lra.
  - rewrite (roundTo_pos_eq _ _ x Xp), roundTo_neg_eq by lra.
    unfold roundPos, exponentOf.
    assert (E : - - x == x) by lra.
    assert (I : ilog2 (- - x) = ilog2 x).
    { destruct (ilog2_spec x Xp). apply ilog2_unique; lra. }
    rewrite I.
    match goal with
    | |- - (inject_Z (roundHalfEven ?a) * _) == - (inject_Z (roundHalfEven ?b) * _) =>
        assert (R : roundHalfEven a = roundHalfEven b)
    end.
    { apply roundHalfEven_comp. now rewrite E. }
    rewrite R. reflexivity.
  - rewrite (roundTo_zero_eq _ _ x X0), roundTo_zero_eq by lra. lra.
Qed.

(** The result is within half a unit of the last place. *)
Lemma roundHalfEven_error (q : Q) :
  q - (1 # 2) <= inject_Z (roundHalfEven q) <= q + (1 # 2).
Proof.
  pose proof (Qfloor_bounds q) as [L U].
  destruct (roundHalfEven_cases q) as [(R & A & _)|(R & A & _)]; rewrite R.
  - lra.
  - rewrite inject_Z_plus. change (inject_Z 1) with 1. lra.
Qed.

Lemma roundPos_error prec emin (x : Q) :
  let u := pow2 (exponentOf prec emin x) in
  x - u / 2 <= roundPos prec emin x <= x + u / 2.
Proof.
  intro u. unfold roundPos. fold u.
  assert (P : 0 < u) by apply pow2_pos.
  pose proof (roundHalfEven_error (x / u)) as [A B].
  assert (E1 : (x / u - (1 # 2)) * u == x - u / 2) by (field; lra).
  assert (E2 : (x / u + (1 # 2)) * u == x + u / 2) by (field; lra).
  split; [rewrite <- E1 | rewrite <- E2]; apply Qmult_le_compat_r; lra.
Qed.

(** A number with at most [prec] significant bits is not changed. *)
Lemma roundTo_representable prec (m e : Z) :
  (1 <= prec)%Z -> (Z.abs m < 2 ^ prec)%Z ->
  roundTo prec None (inject_Z m * pow2 e) == inject_Z m * pow2 e.
Proof.
  intros Hp Hm.
  assert (Pos : forall m, (0 < m < 2 ^ prec)%Z ->
            roundTo prec None (inject_Z m * pow2 e) == inject_Z m * pow2 e).
  { clear m Hm. intros m Hm.
    pose proof (pow2_pos e) as Pe.
    assert (Hx : 0 < inject_Z m * pow2 e).
    { apply Qmult_lt_0_compat; [|exact Pe].
      change 0 with (inject_Z 0). rewrite <- Zlt_Qlt. lia. }
    rewrite roundTo_pos_eq by exact Hx.
    unfold roundPos, exponentOf.
    pose proof (Z.log2_spec m (proj1 Hm)) as [La Ua].
    assert (L0 : (0 <= Z.log2 m)%Z) by apply Z.log2_nonneg.
    assert (Lp : (Z.log2 m < prec)%Z).
    { apply Z.log2_lt_pow2; lia. }
    assert (I : ilog2 (inject_Z m * pow2 e) = (Z.log2 m + e)%Z).
    { apply ilog2_unique.
      - rewrite pow2_add, (pow2_Z (Z.log2 m)) by lia.
        apply Qmult_le_compat_r; [|lra]. now rewrite <- Zle_Qle.
      - replace (Z.log2 m + e + 1)%Z with (Z.succ (Z.log2 m) + e)%Z by lia.
        rewrite pow2_add, (pow2_Z (Z.succ (Z.log2 m))) by lia.
        apply Qmult_lt_compat_r; [exact Pe|]. now rewrite <- Zlt_Qlt. }
    rewrite I.
    set (E := (Z.log2 m + e - (prec - 1))%Z).
    pose proof (pow2_pos E) as PE.
    assert (Q1 : inject_Z m * pow2 e / pow2 E
                 == inject_Z (m * 2 ^ (e - E))).
    { rewrite inject_Z_mult, <- pow2_Z by (unfold E; lia).
      rewrite pow2_sub. field. lra. }
    rewrite (roundHalfEven_comp _ _ Q1), roundHalfEven_Z.
    rewrite inject_Z_mult, <- pow2_Z by (unfold E; lia).
    rewrite pow2_sub. field. lra. }
  destruct (Z.lt_trichotomy m 0) as [N|[Z0|P]].
  - assert (E : inject_Z m * pow2 e == - (inject_Z (- m) * pow2 e)).
    { rewrite inject_Z_opp. ring. }
    rewrite (roundTo_comp _ _ _ _ Hp E), roundTo_opp, Pos by lia.
    symmetry. exact E.
  - subst m. rewrite roundTo_zero_eq; ring.
  - apply Pos. lia.
Qed.

(** At and above a power of two the result is at least that power. *)
Lemma roundPos_ge_pow2 prec (x : Q) (k : Z) :
  (1 <= prec)%Z -> pow2 k <= x -> pow2 k <= roundPos prec None x.
Proof.
  intros Hp H.
  assert (Hx : 0 < x) by (pose proof (pow2_pos k); lra).
  destruct (ilog2_spec x Hx) as [L U].
  assert (K : (k <= ilog2 x)%Z).
  { assert (k < ilog2 x + 1)%Z by (apply pow2_lt_inv; lra). lia. }
  unfold roundPos, exponentOf. set (E := (ilog2 x - (prec - 1))%Z).
  pose proof (pow2_pos E) as PE.
  apply Qle_trans with (inject_Z (2 ^ (prec - 1)) * pow2 E).
  - rewrite <- pow2_Z, <- pow2_add by lia. apply pow2_le. unfold E. lia.
  - apply Qmult_le_compat_r; [|lra].
    rewrite <- Zle_Qle. apply roundHalfEven_ge.
    apply Qle_shift_div_l; [exact PE|].
    rewrite <- pow2_Z, <- pow2_add by lia.
    replace (prec - 1 + E)%Z with (ilog2 x) by (unfold E; lia). exact L.
Qed.

(** Above the midpoint between a representable number and the next one,
    the next one is reached. *)
Lemma roundTo_above prec (m e : Z) (x : Q) :
  (1 <= prec)%Z -> (2 ^ (prec - 1) <= m < 2 ^ prec)%Z ->
  inject_Z m * pow2 e + pow2 (e - 1) < x ->
  inject_Z (m + 1) * pow2 e <= roundTo prec None x.
Proof.
  intros Hp Hm H.
  pose proof (pow2_pos e) as Pe.
  assert (Half : pow2 (e - 1) == pow2 e * (1 # 2)).
  { rewrite pow2_sub. unfold Qdiv. apply Qmult_comp; reflexivity. }
  rewrite Half in H.
  assert (M0 : (0 < 2 ^ (prec - 1))%Z) by (apply Z.pow_pos_nonneg; lia).
  assert (Hm0 : 0 < inject_Z m).
  { change 0 with (inject_Z 0). rewrite <- Zlt_Qlt. lia. }
  assert (Hx : 0 < x).
  { assert (0 < inject_Z m * pow2 e) by (apply Qmult_lt_0_compat; assumption).
    lra. }
  rewrite roundTo_pos_eq by exact Hx.
  assert (Top : inject_Z (m + 1) * pow2 e <= pow2 (e + prec)).
  { replace (e + prec)%Z with (prec + e)%Z by lia.
    rewrite pow2_add, (pow2_Z prec) by lia.
    apply Qmult_le_compat_r; [|lra]. rewrite <- Zle_Qle. lia. }
  destruct (Qlt_le_dec x (pow2 (e + prec))) as [Lt|Ge].
  - assert (I : ilog2 x = (e + prec - 1)%Z).
    { apply ilog2_unique.
      - apply Qle_trans with (inject_Z m * pow2 e); [|lra].
        replace (e + prec - 1)%Z with (prec - 1 + e)%Z by lia.
        rewrite pow2_add, (pow2_Z (prec - 1)) by lia.
        apply Qmult_le_compat_r; [|lra]. rewrite <- Zle_Qle. lia.
      - now replace (e + prec - 1 + 1)%Z with (e + prec)%Z by lia. }
    unfold roundPos, exponentOf. rewrite I.
    replace (e + prec - 1 - (prec - 1))%Z with e by lia.
    apply Qmult_le_compat_r; [|lra].
    rewrite <- Zle_Qle. apply roundHalfEven_above.
    apply Qlt_shift_div_l; [exact Pe|]. lra.
  - eapply Qle_trans; [exact Top|]. now apply roundPos_ge_pow2.
Qed.

(** ** Doubles *)

Lemma fl64_mono (x y : Q) : x <= y -> fl64 x <= fl64 y.
Proof. apply roundTo_mono. lia. Qed.

Lemma fl64_comp (x y : Q) : x == y -> fl64 x == fl64 y.
Proof. apply roundTo_comp. lia. Qed.

Lemma fl64_pos (x : Q) : 0 < x -> 0 < fl64 x.
Proof.
  intro H. unfold fl64. rewrite roundTo_pos_eq by exact H.
  apply roundPos_pos; [lia | exact H].
Qed.

Lemma fl64_neg (x : Q) : x < 0 -> fl64 x < 0.
Proof.
  intro H. unfold fl64. rewrite roundTo_neg_eq by exact H.
  assert (0 < roundPos 53 None (- x)) by (apply roundPos_pos; [lia | lra]).
  lra.
Qed.

Lemma fl64_zero (x : Q) : x == 0 -> fl64 x = 0.
Proof. apply roundTo_zero_eq. Qed.

(** A number with at most 53 significant bits is a double; so is, in
    particular, every multiple of [2^-1074] below [2^-1021] in magnitude,
    which is why the subnormal range needs no exponent bound. *)
Lemma fl64_exact (m e : Z) :
  (Z.abs m < 2 ^ 53)%Z -> fl64 (inject_Z m * pow2 e) == inject_Z m * pow2 e.
Proof. apply roundTo_representable. lia. Qed.

(** ** Elapsed times *)

Lemma fl64_FADE_IN : fl64 FADE_IN_DURATION == FADE_IN_DURATION.
Proof. vm_compute. reflexivity. Qed.

Lemma fl64_FADE_OUT : fl64 FADE_OUT_DURATION == FADE_OUT_DURATION.
Proof. vm_compute. reflexivity. Qed.

Lemma sub64_same (a b : Q) : a == b -> sub64 a b = 0.
Proof. intro E. apply fl64_zero. lra. Qed.

Lemma sub64_nonneg (a b : Q) : b <= a -> 0 <= sub64 a b.
Proof.
  intro H. unfold sub64. rewrite <- (fl64_zero 0) by reflexivity.
  apply fl64_mono. lra.
Qed.

Lemma sub64_neg (a b : Q) : a < b -> sub64 a b < 0.
Proof. intro H. apply fl64_neg. lra. Qed.

Lemma sub64_le_fade_in (a b : Q) :
  a - b <= FADE_IN_DURATION -> sub64 a b <= FADE_IN_DURATION.
Proof.
  intro H. rewrite <- fl64_FADE_IN. now apply fl64_mono.
Qed.

Lemma sub64_le_fade_out (a b : Q) :
  a - b <= FADE_OUT_DURATION -> sub64 a b <= FADE_OUT_DURATION.
Proof.
  intro H. rewrite <- fl64_FADE_OUT. now apply fl64_mono.
Qed.

(** The double after [FADE_IN_DURATION] is [0.75 + 2^-53], the one after
    [FADE_OUT_DURATION] is [1.5 + 2^-52]: a difference beyond the midpoint
    is rounded up to it. *)
Lemma sub64_gt_fade_in (a b : Q) :
  b + FADE_IN_DURATION + pow2 (-54) < a -> FADE_IN_DURATION < sub64 a b.
Proof.
  intro H.
  pose proof (roundTo_above 53 (3 * 2 ^ 51) (-53) (a - b)) as R.
  assert (E : inject_Z (3 * 2 ^ 51) * pow2 (-53) == FADE_IN_DURATION)
    by (vm_compute; reflexivity).
  assert (E' : inject_Z (3 * 2 ^ 51 + 1) * pow2 (-53)
               == FADE_IN_DURATION + pow2 (-53))
    by (vm_compute; reflexivity).
  change (-53 - 1)%Z with (-54)%Z in R.
  rewrite E, E' in R.
  assert (P : 0 < pow2 (-53)) by apply pow2_pos.
  unfold sub64, fl64.
  eapply Qlt_le_trans; [|apply R; [lia | lia | lra]]. lra.
Qed.


Lemma minActiveToKeep_value : minActiveToKeep = 240%Z.
Proof. reflexivity. Qed.

(** ** Sums of hub counts *)

Lemma sum_hubs_acc (l : list Batch) (a : Q) :
  fold_left (fun sum conn => sum + hubsCount conn) l a
  == a + sum_hubs l.
Proof.
  unfold sum_hubs. revert a.
  induction l as [|x l IH]; intro a; simpl.
  - ring.
  - rewrite (IH (a + hubsCount x)), (IH (0 + hubsCount x)). ring.
Qed.

Lemma sum_hubs_cons (x : Batch) (l : list Batch) :
  sum_hubs (x :: l) == hubsCount x + sum_hubs l.
Proof.
  unfold sum_hubs at 1. simpl. rewrite sum_hubs_acc. ring.
Qed.

Lemma sum_hubs_ge_length (l : list Batch) :
  Forall (fun b => 1 <= hubsCount b) l ->
  inject_Z (Z.of_nat (length l)) <= sum_hubs l.
Proof.
  induction 1 as [|x l Hx Hl IH].
  - simpl. apply Qle_refl.
  - rewrite sum_hubs_cons.
    change (length (x :: l)) with (S (length l)).
    rewrite Nat2Z.inj_succ. unfold Z.succ. rewrite inject_Z_plus.
    change (inject_Z 1) with 1. lra.
Qed.

(** ** The demotion loop *)

Lemma demoteLoop_shape (n : nat) (tNow : Q) (cs : ConnectionStates) :
  demoteLoop n tNow cs =
  mkStates (skipn n (active cs)) (fadingIn cs)
    (fadingOut cs ++ map (demote tNow) (firstn n (active cs)))
    (pendingRemoval cs).
Proof.
  revert cs. induction n as [|n IH]; intros [a fi fo pr]; simpl.
  - now rewrite app_nil_r.
  - destruct a as [|conn rest]; simpl.
    + now rewrite app_nil_r.
    + rewrite IH. simpl. now rewrite <- app_assoc.
Qed.

Lemma numToFadeOut_bounds (cs : ConnectionStates) :
  (0 < activeLength cs -> 1 <= numToFadeOut cs <= activeLength cs)%Z.
Proof.
  intro H. unfold numToFadeOut. split; [lia|].
  apply Z.max_lub; [lia|].
  rewrite <- (Qceiling_Z (activeLength cs)) at 2.
  apply Qceiling_resp_le.
  assert (0 <= inject_Z (activeLength cs)).
  { change 0 with (inject_Z 0). rewrite <- Zle_Qle. lia. }
  unfold CONNECTION_REFRESH_RATE. lra.
Qed.

(** The loop of the normal branch never shifts an empty array. *)
Lemma actualFadeOut_le_length (cs : ConnectionStates) :
  (0 < activeLength cs -> actualFadeOut cs <= activeLength cs)%Z.
Proof.
  intro H. pose proof (numToFadeOut_bounds cs H) as B.
  unfold actualFadeOut. rewrite minActiveToKeep_value.
  destruct (_ <? _)%Z; lia.
Qed.

Lemma balanceDemote_normal_cases (tNow total : Q) (cs : ConnectionStates) :
  Qgtb total MAX_TOTAL_CONNECTIONS = false ->
  balanceDemote tNow total cs = cs \/
  exists n : nat,
    (minActiveToKeep <= activeLength cs - Z.of_nat n)%Z /\
    balanceDemote tNow total cs =
    mkStates (skipn n (active cs)) (fadingIn cs)
      (fadingOut cs ++ map (demote tNow) (firstn n (active cs)))
      (pendingRemoval cs).
Proof.
  intro Hmax. unfold balanceDemote. rewrite Hmax.
  destruct (0 <? activeLength cs)%Z eqn:Hlen; [|now left].
  destruct (0 <? actualFadeOut cs)%Z eqn:Hact; [|now left].
  right. exists (Z.to_nat (actualFadeOut cs)).
  apply Z.ltb_lt in Hlen, Hact.
  split; [|apply demoteLoop_shape].
  rewrite Z2Nat.id by lia.
  pose proof (numToFadeOut_bounds cs Hlen).
  unfold actualFadeOut in *.
  destruct (_ <? _)%Z eqn:E; [lia|]. apply Z.ltb_ge in E. lia.
Qed.

Lemma balanceDemote_shape (tNow total : Q) (cs : ConnectionStates) :
  exists n : nat,
    balanceDemote tNow total cs =
    mkStates (skipn n (active cs)) (fadingIn cs)
      (fadingOut cs ++ map (demote tNow) (firstn n (active cs)))
      (pendingRemoval cs).
Proof.
  assert (Hid : cs = mkStates (skipn 0 (active cs)) (fadingIn cs)
            (fadingOut cs ++ map (demote tNow) (firstn 0 (active cs)))
            (pendingRemoval cs)).
  { destruct cs; simpl. now rewrite app_nil_r. }
  unfold balanceDemote.
  destruct (Qgtb total MAX_TOTAL_CONNECTIONS).
  - eexists. apply demoteLoop_shape.
  - destruct (0 <? activeLength cs)%Z; [|now exists 0%nat].
    destruct (0 <? actualFadeOut cs)%Z; [|now exists 0%nat].
    eexists. apply demoteLoop_shape.
Qed.

(** ** The normal branch (C4) *)

(** C4: in the normal branch (total not above MAX_TOTAL_CONNECTIONS) the
    demotion never takes the active population below
    floor(TARGET_CONNECTIONS * 0.6) = 240 once it is at least that: this
    holds for the number of active batches, which the code compares, and
    for the number of active hubs when every batch has at least one hub. *)
Theorem normal_branch_keeps_floor (tNow total : Q) (cs : ConnectionStates) :
  total <= MAX_TOTAL_CONNECTIONS ->
  let cs' := balanceDemote tNow total cs in
  ((minActiveToKeep <= activeLength cs)%Z ->
   (minActiveToKeep <= activeLength cs')%Z) /\
  (Forall (fun b => 1 <= hubsCount b) (active cs) ->
   inject_Z minActiveToKeep <= sum_hubs (active cs) ->
   inject_Z minActiveToKeep <= sum_hubs (active cs')).
Proof.
  intros Hmax cs'. apply Qgtb_le in Hmax.
  destruct (balanceDemote_normal_cases tNow total cs Hmax) as [E | [n [Hn E]]];
    subst cs'; rewrite E.
  - split; auto.
  - assert (Hlen : (minActiveToKeep <=
              Z.of_nat (length (skipn n (active cs))))%Z).
    { rewrite length_skipn. unfold activeLength in Hn. lia. }
    split; intros; simpl.
    + exact Hlen.
    + eapply Qle_trans; [|apply sum_hubs_ge_length].
      * rewrite <- Zle_Qle. exact Hlen.
      * rewrite <- (firstn_skipn n (active cs)) in H.
        apply Forall_app in H. tauto.
Qed.

Lemma normal_branch_keeps_floor_witness :
  (minActiveToKeep <=
   activeLength (balanceDemote 10 250 (connectionStates steadyWorld)))%Z /\
  inject_Z minActiveToKeep <=
   sum_hubs (active (balanceDemote 10 250 (connectionStates steadyWorld))).
Proof.
  destruct (normal_branch_keeps_floor 10 250 (connectionStates steadyWorld))
    as [H1 H2].
  - unfold MAX_TOTAL_CONNECTIONS. lra.
  - split.
    + apply H1. vm_compute. discriminate.
    + apply H2.
      * apply Forall_forall. intros b Hb.
        apply in_map_iff in Hb. destruct Hb as [i [<- _]].
        unfold Qle. simpl. lia.
      * vm_compute. discriminate.
Defined.

(** ** resize (C2) *)

(** C2, as stated, fails: a resize notification with height 0 is neither
    ignored nor clamped; the aspect becomes Infinity and is the value the
    projection matrix is recomputed from. *)
Lemma resize_zero_height_unguarded :
  aspect (resize 800 0 sampleViewport) = PosInf /\
  is_finite (projectionAspect (resize 800 0 sampleViewport)) = false /\
  resize 800 0 sampleViewport <> sampleViewport.
Proof.
  repeat split; discriminate.
Qed.

Lemma inject_Z_eq_bool_0 (h : Z) : Qeq_bool (inject_Z h) 0 = (h =? 0)%Z.
Proof.
  unfold Qeq_bool. simpl. rewrite Z.mul_1_r.
  destruct h; reflexivity.
Qed.

(** C2 (amended): resize has no guard: it always sets camera.aspect to
    innerWidth / innerHeight and recomputes the projection from it, so the
    value handed to the projection matrix is finite exactly when the height
    is not zero; at height zero it is Infinity, NaN or -Infinity according
    to the sign of the width. *)
Theorem resize_aspect_finite_iff (w h : Z) (v : Viewport) :
  aspect (resize w h v) = js_div (Fin (inject_Z w)) (Fin (inject_Z h)) /\
  projectionAspect (resize w h v) = aspect (resize w h v) /\
  rendererSize (resize w h v) = (Fin (inject_Z w), Fin (inject_Z h)) /\
  (is_finite (projectionAspect (resize w h v)) = true <-> h <> 0%Z) /\
  projectionAspect (resize w 0 v) =
    (if (0 <? w)%Z then PosInf else if (w =? 0)%Z then NaN else NegInf).
Proof.
  repeat split; simpl.
  - rewrite inject_Z_eq_bool_0.
    destruct (Z.eqb_spec h 0) as [->|]; [|congruence].
    rewrite inject_Z_eq_bool_0. destruct (w =? 0)%Z; [discriminate|].
    destruct (Qltb 0 (inject_Z w)); discriminate.
  - intro Hh. rewrite inject_Z_eq_bool_0.
    destruct (Z.eqb_spec h 0); [contradiction|reflexivity].
  - rewrite inject_Z_eq_bool_0.
    destruct (Z.eqb_spec w 0) as [->|Hw]; [reflexivity|].
    destruct (Z.ltb_spec 0 w) as [Hp|Hp].
    + assert (E : Qltb 0 (inject_Z w) = true).
      { apply Qltb_lt. change 0 with (inject_Z 0). rewrite <- Zlt_Qlt. lia. }
      now rewrite E.
    + assert (E : Qltb 0 (inject_Z w) = false).
      { apply Qltb_ge. change 0 with (inject_Z 0). rewrite <- Zle_Qle. lia. }
      now rewrite E.
Qed.

(** ** The connection builder *)






Lemma probeChecks_count rnd hubIndex (n k : nat) :
  (probeChecks rnd hubIndex n k + anchorDraws rnd hubIndex n k = n)%nat.
Proof.
  revert k. induction n as [|n IH]; intro k; simpl; [reflexivity|].
  specialize (IH (S k)).
  destruct (randomIndex (rnd k) =? hubIndex)%Z; lia.
Qed.

Lemma probeLoop_length sqrt positions rnd hubIndex (n k : nat) :
  (length (probeLoop sqrt positions rnd hubIndex n k)
   <= probeChecks rnd hubIndex n k)%nat.
Proof.
  revert k. induction n as [|n IH]; intro k; simpl; [lia|].
  specialize (IH (S k)).
  destruct (randomIndex (rnd k) =? hubIndex)%Z; [exact IH|].
  destruct (Qltb _ _); simpl; lia.
Qed.

Lemma hubColors_length sqrt positions rnd (k : nat) :
  length (hubColors sqrt positions rnd k) = 18%nat.
Proof. reflexivity. Qed.

Lemma hubIteration_cases sqrt positions rnd pct (k : nat) :
  hubIteration sqrt positions rnd pct k = ([], [], []) \/
  exists p c,
    hubIteration sqrt positions rnd pct k =
      (p, c, repeat (initialOpacity pct) 3) /\
    length p = 18%nat /\ length c = 18%nat.
Proof.
  unfold hubIteration.
  destruct (potentialNeighbors sqrt positions rnd k) as [|n0 [|n1 [|n2 r]]];
    auto.
  right. do 2 eexists. split; [reflexivity|].
  split; [|apply hubColors_length].
  destruct (virtualHub positions rnd k) as [[? ?] ?].
  destruct (n_position n0) as [[? ?] ?], (n_position n1) as [[? ?] ?],
    (n_position n2) as [[? ?] ?].
  reflexivity.
Qed.

(** The three buffers of a build hold [m] whole hubs, [m] at most the
    number of iterations. *)
Lemma hubLoop_lengths sqrt positions rnd pct (n k : nat) :
  exists m : nat,
    (m <= n)%nat /\
    length (fst (fst (hubLoop sqrt positions rnd pct n k))) = (18 * m)%nat /\
    length (snd (fst (hubLoop sqrt positions rnd pct n k))) = (18 * m)%nat /\
    snd (hubLoop sqrt positions rnd pct n k)
      = repeat (initialOpacity pct) (3 * m).
Proof.
  revert k. induction n as [|n IH]; intro k; cbn [hubLoop].
  - exists 0%nat. repeat split; auto.
  - destruct (IH (k + drawsPerHub)%nat) as (m & Hm & Hp & Hc & Ho).
    destruct (hubLoop sqrt positions rnd pct n (k + drawsPerHub))
      as [[ps cs] os]. cbn [fst snd] in *.
    destruct (hubIteration_cases sqrt positions rnd pct k)
      as [E | (p & c & E & Lp & Lc)]; rewrite E; cbn [fst snd app].
    + exists m. repeat split; auto.
    + exists (S m). rewrite !length_app, Lp, Lc, Hp, Hc, Ho.
      split; [lia|]. split; [lia|]. split; [lia|].
      replace (3 * S m)%nat with (3 + 3 * m)%nat by lia.
      now rewrite repeat_app.
Qed.

Lemma newBatch_facts sqrt positions rnd (w : World) (now pct : Q) (n : nat) :
  let geo := hubLoop sqrt positions rnd pct n 0 in
  let nb := newBatch w now pct geo in
  exists m : nat,
    (m <= n)%nat /\
    (fst (fst geo) <> [] -> (1 <= m)%nat) /\
    bid nb = nextId w /\
    startTime nb = now /\
    visible nb = true /\
    state nb = (if Qgeb pct 1 then SActive else SFadingIn) /\
    length (linePositions nb) = (18 * m)%nat /\
    length (colors nb) = (18 * m)%nat /\
    opacities nb = repeat (initialOpacity pct) (3 * m) /\
    hubsCount nb == inject_Z (Z.of_nat m).
Proof.
  intros geo nb. subst nb geo.
  destruct (hubLoop_lengths sqrt positions rnd pct n 0)
    as (m & Hm & Hp & Hc & Ho).
  destruct (hubLoop sqrt positions rnd pct n 0) as [[p c] o].
  cbn [fst snd] in *. exists m. unfold newBatch. cbn [bid startTime visible
    state linePositions colors opacities hubsCount].
  split; [exact Hm|]. split.
  { intro Hne. destruct m; [|lia]. destruct p; [congruence|discriminate]. }
  do 4 (split; [reflexivity|]).
  do 3 (split; [assumption|]).
  subst o. unfold lengthQ. rewrite repeat_length, Nat2Z.inj_mul.
  rewrite inject_Z_mult. change (inject_Z (Z.of_nat 3)) with 3. field.
Qed.

Lemma createConnections_partial sqrt positions rnd (now pct : Q)
  (cnt : option Z) (w : World) :
  Qgeb pct 1 = false ->
  let geo := hubLoop sqrt positions rnd pct
               (Z.to_nat (numHubsToCreate pct cnt)) 0 in
  let nb := newBatch w now pct geo in
  let cs := connectionStates w in
  createConnections sqrt positions rnd now pct cnt w =
  match fst (fst geo) with
  | [] => w
  | _ :: _ =>
      match connections w with
      | None =>
          mkWorld (Some (nextId w))
            (mkStates (active cs ++ [nb]) (fadingIn cs) (fadingOut cs)
               (pendingRemoval cs))
            (connectionStats w) (scene_add (nextId w) (scene w))
            (nextConnectionUpdateTime w) (initialSetupDone w) (S (nextId w))
      | Some c =>
          mkWorld (Some c)
            (mkStates (active cs) (fadingIn cs ++ [nb]) (fadingOut cs)
               (pendingRemoval cs))
            (connectionStats w) (scene_add (nextId w) (scene w))
            (nextConnectionUpdateTime w) (initialSetupDone w) (S (nextId w))
      end
  end.
Proof.
  intros Hp geo nb cs. subst nb cs. unfold createConnections. fold geo.
  rewrite Hp. destruct geo as [[p c] o]. cbn [fst snd].
  destruct w as [conn cs st sc nx ini nid]; cbn [connections scene
    connectionStates connectionStats nextConnectionUpdateTime
    initialSetupDone nextId].
  destruct conn; destruct p; reflexivity.
Qed.

Lemma createConnections_full sqrt positions rnd (now pct : Q)
  (cnt : option Z) (w : World) :
  Qgeb pct 1 = true ->
  let geo := hubLoop sqrt positions rnd pct
               (Z.to_nat (numHubsToCreate pct cnt)) 0 in
  let nb := newBatch w now pct geo in
  let scene0 := match connections w with
                | Some c => scene_remove c (scene w)
                | None => scene w
                end in
  createConnections sqrt positions rnd now pct cnt w =
  match fst (fst geo) with
  | [] =>
      mkWorld None (connectionStates w) (connectionStats w) scene0
        (nextConnectionUpdateTime w) (initialSetupDone w) (nextId w)
  | _ :: _ =>
      mkWorld (Some (nextId w)) (mkStates [nb] [] [] [])
        (connectionStats w) (scene_add (nextId w) scene0)
        (nextConnectionUpdateTime w) (initialSetupDone w) (S (nextId w))
  end.
Proof.
  intros Hp geo nb scene0. subst nb scene0. unfold createConnections.
  fold geo. rewrite Hp. destruct geo as [[p c] o]. cbn [fst snd].
  destruct (connections w); destruct p; reflexivity.
Qed.






(** The candidates are, in draw order, all the probes that differ from the
    anchor and lie under the threshold: repeated draws are all kept. *)
Lemma probeLoop_indices sqrt positions rnd hubIndex (n k : nat) :
  map n_index (probeLoop sqrt positions rnd hubIndex n k) =
  filter (fun i => negb (i =? hubIndex)%Z &&
                   Qltb (distTo sqrt positions hubIndex i)
                     CONNECTION_THRESHOLD)
    (map (fun j => randomIndex (rnd j)) (seq k n)).
Proof.
  revert k. induction n as [|n IH]; intro k; simpl; [reflexivity|].
  destruct (randomIndex (rnd k) =? hubIndex)%Z; simpl; [apply IH|].
  destruct (Qltb _ CONNECTION_THRESHOLD); simpl; [f_equal|]; apply IH.
Qed.

(** C9: the probes are drawn independently and the candidates are not
    deduplicated (they are, in draw order, all the probes other than the
    anchor under the threshold): on draws that hit the same point at every
    probe, the three spokes of the hub all end at that point; a probe that
    draws the anchor is skipped without a redraw, so the loop performs 50
    distance checks minus the number of such probes (49 on draws whose
    first probe hits the anchor). *)
Theorem sampler_repeats_and_skips :
  (map n_index (firstn 3 (potentialNeighbors sqrtQ samplePositions
                            rndSameNeighbor 0)) = [1; 1; 1]%Z /\
   let hub := xyz (virtualHub samplePositions rndSameNeighbor 0) in
   fst (fst (hubIteration sqrtQ samplePositions rndSameNeighbor
               CONNECTION_REFRESH_RATE 0))
   = hub ++ [1; 0; 0] ++ hub ++ [1; 0; 0] ++ hub ++ [1; 0; 0]) /\
  (forall rnd hubIndex k,
     (probeChecks rnd hubIndex 50 k + anchorDraws rnd hubIndex 50 k = 50)%nat)
  /\
  (forall sqrt positions rnd hubIndex k,
     (length (probeLoop sqrt positions rnd hubIndex 50 k)
      <= probeChecks rnd hubIndex 50 k)%nat /\
     map n_index (probeLoop sqrt positions rnd hubIndex 50 k) =
     filter (fun i => negb (i =? hubIndex)%Z &&
                      Qltb (distTo sqrt positions hubIndex i)
                        CONNECTION_THRESHOLD)
       (map (fun j => randomIndex (rnd j)) (seq k 50))) /\
  probeChecks rndAnchorProbe (hubIndexAt rndAnchorProbe 0) 50 4 = 49%nat.
Proof.
  split; [split|split; [|split]].
  - vm_compute. reflexivity.
  - vm_compute. reflexivity.
  - intros. apply probeChecks_count.
  - intros. split; [apply probeLoop_length | apply probeLoop_indices].
  - vm_compute. reflexivity.
Qed.

(** ** An incremental build (C10, C7) *)

Lemma tickStates_fields sin (tNow : Q) (cs : ConnectionStates) :
  tickStates sin tNow cs =
  mkStates
    (map (pulseStep sin tNow)
       (active cs ++ snd (fadingInLoop tNow (fadingIn cs))))
    (fst (fadingInLoop tNow (fadingIn cs)))
    (fst (fadingOutLoop tNow (fadingOut cs)))
    (snd (fadingOutLoop tNow (fadingOut cs))).
Proof.
  unfold tickStates.
  destruct (fadingInLoop tNow (fadingIn cs)),
    (fadingOutLoop tNow (fadingOut cs)).
  reflexivity.
Qed.

(** C10: an incremental build (replacementPercentage below 1) that yields
    at least one hub while the global connections reference is null puts
    the new batch at the end of the active bucket and leaves fadingIn
    untouched, although the batch carries state fadingIn and opacities
    0.01; the next tick pulses it as an active batch. *)
Theorem partial_build_without_connections_goes_active
  sqrt sin positions rnd (now pct : Q) (cnt : option Z) (w : World) :
  pct < 1 ->
  connections w = None ->
  fst (fst (hubLoop sqrt positions rnd pct
              (Z.to_nat (numHubsToCreate pct cnt)) 0)) <> [] ->
  let w' := createConnections sqrt positions rnd now pct cnt w in
  exists nb : Batch,
    active (connectionStates w') = active (connectionStates w) ++ [nb] /\
    fadingIn (connectionStates w') = fadingIn (connectionStates w) /\
    fadingOut (connectionStates w') = fadingOut (connectionStates w) /\
    pendingRemoval (connectionStates w')
      = pendingRemoval (connectionStates w) /\
    connections w' = Some (bid nb) /\
    bid nb = nextId w /\
    In (bid nb) (scene w') /\
    state nb = SFadingIn /\
    startTime nb = now /\
    opacities nb <> [] /\
    Forall (fun o => o = 1 # 100) (opacities nb) /\
    forall tNow,
      In (pulseStep sin tNow nb)
        (active (connectionStates (updateConnections sin tNow w'))) /\
      fadingIn (connectionStates (updateConnections sin tNow w'))
        = fst (fadingInLoop tNow (fadingIn (connectionStates w))).
Proof.
  intros Hpct Hconn Hgeo w'.
  assert (Hp : Qgeb pct 1 = false).
  { unfold Qgeb. destruct (Qle_bool 1 pct) eqn:E; [|reflexivity].
    apply Qle_bool_iff in E. exfalso. exact (Qlt_not_le _ _ Hpct E). }
  subst w'. rewrite (createConnections_partial _ _ _ _ _ _ _ Hp).
  destruct (newBatch_facts sqrt positions rnd w now pct
              (Z.to_nat (numHubsToCreate pct cnt)))
    as (m & _ & Hm & Hbid & Hst & _ & Hstate & _ & _ & Hop & _).
  specialize (Hm Hgeo).
  set (geo := hubLoop sqrt positions rnd pct _ 0) in *.
  set (nb := newBatch w now pct geo) in *.
  destruct (fst (fst geo)) as [|x p]; [congruence|].
  rewrite Hconn. exists nb. cbn [connectionStates active fadingIn fadingOut
    pendingRemoval connections scene].
  repeat (split; [reflexivity || assumption|]).
  split; [now rewrite Hbid|]. split; [exact Hbid|].
  split. { unfold scene_add. apply in_or_app. right. rewrite Hbid. now left. }
  split. { rewrite Hstate, Hp. reflexivity. }
  split; [exact Hst|].
  split. { rewrite Hop. destruct m; [lia|]. discriminate. }
  split.
  { rewrite Hop. apply Forall_forall. intros o Ho.
    apply repeat_spec in Ho. subst o. unfold initialOpacity. now rewrite Hp. }
  intro tNow. unfold updateConnections.
  cbn [connectionStates]. rewrite tickStates_fields.
  cbn [active fadingIn]. split; [|reflexivity].
  apply in_map. apply in_or_app. left. apply in_or_app. right. now left.
Qed.

Lemma partial_build_without_connections_goes_active_witness :
  connections noHubWorld = None /\
  exists nb : Batch,
    active (connectionStates
              (createConnections sqrtQ samplePositions rndSameNeighbor 7
                 CONNECTION_REFRESH_RATE (Some 1%Z) noHubWorld)) = [nb] /\
    state nb = SFadingIn.
Proof.
  split; [vm_compute; reflexivity|].
  destruct (partial_build_without_connections_goes_active sqrtQ sinPoly
              samplePositions rndSameNeighbor 7 CONNECTION_REFRESH_RATE
              (Some 1%Z) noHubWorld)
    as (nb & Ha & _ & _ & _ & _ & _ & _ & Hs & _).
  - reflexivity.
  - vm_compute. reflexivity.
  - vm_compute. discriminate.
  - exists nb. split; [exact Ha | exact Hs].
Defined.

Lemma bids_app (l1 l2 : list Batch) : bids (l1 ++ l2) = bids l1 ++ bids l2.
Proof. apply map_app. Qed.

Lemma bids_map_demote (tNow : Q) (l : list Batch) :
  bids (map (demote tNow) l) = bids l.
Proof. unfold bids. rewrite map_map. reflexivity. Qed.

Lemma balanceDemote_bids (tNow total : Q) (cs : ConnectionStates) :
  Permutation (bids (all_batches (balanceDemote tNow total cs)))
    (bids (all_batches cs)).
Proof.
  destruct (balanceDemote_shape tNow total cs) as [n ->].
  unfold all_batches. cbn [active fadingIn fadingOut pendingRemoval].
  rewrite <- (firstn_skipn n (active cs)) at 3.
  rewrite !bids_app, bids_map_demote.
  apply Permutation_app_head.
  rewrite <- !app_assoc.
  set (S := bids (skipn n (active cs))). set (FO := bids (fadingOut cs)).
  set (F := bids (firstn n (active cs))). set (PR := bids (pendingRemoval cs)).
  rewrite (app_assoc S FO (F ++ PR)), (app_assoc S FO PR).
  apply Permutation_app_swap_app.
Qed.

Lemma connectionsToAdd_spec (stats : ConnectionStats) :
  let total := stat_total stats in
  let projected := total - stat_fadingOut stats in
  let requested :=
    Z.min 20 (Qceiling ((TARGET_CONNECTIONS - projected) * (2 # 10))) in
  (connectionsToAdd stats = Some requested /\
   total < MAX_TOTAL_CONNECTIONS /\ projected + 20 < TARGET_CONNECTIONS /\
   (0 < requested <= 20)%Z) \/
  (connectionsToAdd stats = None /\
   ~ (total < MAX_TOTAL_CONNECTIONS /\ projected + 20 < TARGET_CONNECTIONS)).
Proof.
  intros total projected requested. unfold connectionsToAdd.
  fold total. fold projected.
  destruct (Qltb total MAX_TOTAL_CONNECTIONS) eqn:E1;
    [destruct (Qltb (projected + 20) TARGET_CONNECTIONS) eqn:E2|]; simpl.
  - left. apply Qltb_lt in E1, E2.
    repeat split; auto; subst requested; [|lia].
    apply Z.min_glb_lt; [lia|].
    rewrite Zlt_Qlt. eapply Qlt_le_trans; [|apply Qle_ceiling].
    change (inject_Z 0) with 0. unfold TARGET_CONNECTIONS in *. lra.
  - right. split; [reflexivity|]. intros [_ H].
    apply Qltb_lt in H. congruence.
  - right. split; [reflexivity|]. intros [H _].
    apply Qltb_lt in H. congruence.
Qed.

(** C7: in a balancing cycle the builder is called exactly when total <
    MAX_TOTAL_CONNECTIONS and total - fadingOut + 20 < TARGET_CONNECTIONS
    (both read from the statistics of the last tick); it is then asked for
    min(20, ceil(0.2 * (TARGET_CONNECTIONS - (total - fadingOut)))) hubs, a
    number between 1 and 20, and any batch the cycle adds holds at most
    that many hubs, so at most 20. *)
Theorem spawn_rule sqrt positions rnd (tNow now : Q) (w : World) :
  let stats := connectionStats w in
  let total := stat_total stats in
  let projected := total - stat_fadingOut stats in
  let requested :=
    Z.min 20 (Qceiling ((TARGET_CONNECTIONS - projected) * (2 # 10))) in
  let w1 := setStates w (add64 tNow SMALL_BATCH_INTERVAL)
              (balanceDemote tNow total (connectionStates w)) in
  let w' := balance sqrt positions rnd tNow now w in
  ((w' = createConnections sqrt positions rnd now CONNECTION_REFRESH_RATE
           (Some requested) w1 /\
    total < MAX_TOTAL_CONNECTIONS /\ projected + 20 < TARGET_CONNECTIONS /\
    (0 < requested <= 20)%Z) \/
   (w' = w1 /\
    ~ (total < MAX_TOTAL_CONNECTIONS /\
       projected + 20 < TARGET_CONNECTIONS))) /\
  forall b : Batch,
    In b (all_batches (connectionStates w')) ->
    ~ In (bid b) (bids (all_batches (connectionStates w))) ->
    hubsCount b <= inject_Z requested /\ hubsCount b <= 20.
Proof.
  intros stats total projected requested w1 w'.
  assert (Hold : forall b, In b (all_batches (connectionStates w1)) ->
                   In (bid b) (bids (all_batches (connectionStates w)))).
  { intros b Hb. eapply Permutation_in; [apply balanceDemote_bids|].
    apply in_map. exact Hb. }
  pose proof (connectionsToAdd_spec (connectionStats w)) as Sp.
  cbv zeta in Sp. subst stats total projected requested.
  set (requested := Z.min 20 _) in *.
  destruct Sp as [(E & H1 & H2 & H3) | (E & H)].
  - assert (Ew : w' = createConnections sqrt positions rnd now
                        CONNECTION_REFRESH_RATE (Some requested) w1).
    { subst w'. unfold balance. rewrite E.
      destruct (Z.ltb_spec 0 requested); [reflexivity|lia]. }
    split; [left; auto|].
    intros b Hb Hnew. rewrite Ew in Hb.
    rewrite (createConnections_partial sqrt positions rnd now
               CONNECTION_REFRESH_RATE (Some requested) w1 eq_refl) in Hb.
    destruct (newBatch_facts sqrt positions rnd w1 now CONNECTION_REFRESH_RATE
                (Z.to_nat (numHubsToCreate CONNECTION_REFRESH_RATE
                             (Some requested))))
      as (m & Hm & _ & _ & _ & _ & _ & _ & _ & _ & Hh).
    assert (Hreq : numHubsToCreate CONNECTION_REFRESH_RATE (Some requested)
                   = requested).
    { unfold numHubsToCreate. destruct (Z.eqb_spec requested 0); [lia|auto]. }
    rewrite Hreq in *.
    set (nb := newBatch w1 now CONNECTION_REFRESH_RATE _) in *.
    assert (Hnb : hubsCount nb <= inject_Z requested /\ hubsCount nb <= 20).
    { rewrite Hh. change 20 with (inject_Z 20). rewrite <- !Zle_Qle. lia. }
    assert (Hcase : In b (all_batches (connectionStates w1)) \/ nb = b).
    { destruct (fst (fst _)); [now left|].
      destruct (connections w1); unfold all_batches in *;
        cbn [connectionStates active fadingIn fadingOut pendingRemoval] in Hb;
        rewrite ?in_app_iff in *; cbn [In] in Hb; tauto. }
    destruct Hcase as [Hin | <-]; [|exact Hnb].
    exfalso. apply Hnew, Hold, Hin.
  - assert (Ew : w' = w1).
    { subst w'. unfold balance. now rewrite E. }
    split; [right; auto|].
    intros b Hb Hnew. rewrite Ew in Hb. exfalso. apply Hnew, Hold, Hb.
Qed.

Lemma spawn_rule_witness :
  stat_total (connectionStats mixedWorld) < MAX_TOTAL_CONNECTIONS /\
  exists w1 : World,
    balance sqrtQ samplePositions rndSameNeighbor 5 (501 # 100) mixedWorld
    = createConnections sqrtQ samplePositions rndSameNeighbor (501 # 100)
        CONNECTION_REFRESH_RATE (Some 20%Z) w1.
Proof.
  destruct (spawn_rule sqrtQ samplePositions rndSameNeighbor 5 (501 # 100)
              mixedWorld) as [[(E & H1 & _) | (_ & H)] _].
  - split; [exact H1|]. eexists. exact E.
  - exfalso. apply H. split; reflexivity.
Defined.

(** ** The lifecycle tick *)

Lemma fadingInLoop_spec (tNow : Q) (l : list Batch) :
  fadingInLoop tNow l =
  (map (fadeInStep tNow) (filter (fun c => negb (fadeInDone tNow c)) l),
   filter (fadeInDone tNow) l).
Proof.
  induction l as [|conn rest IH]; simpl; [reflexivity|].
  rewrite IH.
  change (Qgtb (sub64 tNow (startTime conn)) FADE_IN_DURATION)
    with (fadeInDone tNow conn).
  destruct (fadeInDone tNow conn); reflexivity.
Qed.

Lemma fadingOutLoop_spec (tNow : Q) (l : list Batch) :
  fadingOutLoop tNow l =
  (map (fadeOutStep tNow) (filter (fun c => negb (fadeOutDone tNow c)) l),
   filter (fadeOutDone tNow) l).
Proof.
  induction l as [|conn rest IH]; simpl; [reflexivity|].
  rewrite IH.
  change (Qgtb (sub64 tNow (startTime conn)) FADE_OUT_DURATION)
    with (fadeOutDone tNow conn).
  destruct (fadeOutDone tNow conn); reflexivity.
Qed.

Lemma bid_fadeInStep (tNow : Q) (b : Batch) : bid (fadeInStep tNow b) = bid b.
Proof. reflexivity. Qed.

Lemma bid_fadeOutStep (tNow : Q) (b : Batch) :
  bid (fadeOutStep tNow b) = bid b.
Proof. unfold fadeOutStep. destruct (Qltb _ _); reflexivity. Qed.

Lemma bid_pulseStep sin (tNow : Q) (b : Batch) :
  bid (pulseStep sin tNow b) = bid b.
Proof. unfold pulseStep. destruct (opacities b); reflexivity. Qed.

Lemma bids_map (f : Batch -> Batch) (l : list Batch) :
  (forall b, bid (f b) = bid b) -> bids (map f l) = bids l.
Proof.
  intro H. unfold bids. rewrite map_map. apply map_ext. exact H.
Qed.

Lemma bids_filter_perm (p : Batch -> bool) (l : list Batch) :
  Permutation (bids (filter (fun c => negb (p c)) l) ++ bids (filter p l))
    (bids l).
Proof.
  induction l as [|x l IH]; simpl; [apply perm_nil|].
  destruct (p x); simpl.
  - eapply perm_trans; [apply Permutation_sym, Permutation_middle|].
    now apply perm_skip.
  - now apply perm_skip.
Qed.

Lemma bids_filter_in (p : Batch -> bool) (l : list Batch) (i : nat) :
  In i (bids (filter p l)) -> In i (bids l).
Proof.
  unfold bids. rewrite !in_map_iff. intros (b & E & Hb).
  apply filter_In in Hb. exists b. tauto.
Qed.

Lemma bids_filter_split (p : Batch -> bool) (l : list Batch) (i : nat) :
  In i (bids l) ->
  In i (bids (filter (fun c => negb (p c)) l)) \/ In i (bids (filter p l)).
Proof.
  intro H. apply in_app_or.
  exact (Permutation_in _ (Permutation_sym (bids_filter_perm p l)) H).
Qed.

Lemma tick_bids sin (tNow : Q) (cs : ConnectionStates) :
  let cs' := tickStates sin tNow cs in
  bids (fadingIn cs')
    = bids (filter (fun c => negb (fadeInDone tNow c)) (fadingIn cs)) /\
  bids (active cs')
    = bids (active cs) ++ bids (filter (fadeInDone tNow) (fadingIn cs)) /\
  bids (fadingOut cs')
    = bids (filter (fun c => negb (fadeOutDone tNow c)) (fadingOut cs)) /\
  pendingRemoval cs' = filter (fadeOutDone tNow) (fadingOut cs).
Proof.
  cbv zeta. rewrite tickStates_fields, fadingInLoop_spec, fadingOutLoop_spec.
  cbn [fst snd active fadingIn fadingOut pendingRemoval].
  rewrite (bids_map (fadeInStep tNow)) by apply bid_fadeInStep.
  rewrite (bids_map (fadeOutStep tNow)) by apply bid_fadeOutStep.
  rewrite (bids_map (pulseStep sin tNow)) by apply bid_pulseStep.
  rewrite bids_app. auto.
Qed.

(** A batch demoted at [tNow] has not finished fading out at [tNow]. *)
Lemma demoted_not_done (tNow : Q) (l : list Batch) :
  filter (fadeOutDone tNow) (map (demote tNow) l) = [] /\
  filter (fun c => negb (fadeOutDone tNow c)) (map (demote tNow) l)
    = map (demote tNow) l.
Proof.
  assert (H : forall b, fadeOutDone tNow (demote tNow b) = false).
  { intro b. apply Qgtb_le. unfold elapsedAt. cbn [demote startTime].
    rewrite sub64_same by reflexivity. unfold FADE_OUT_DURATION. lra. }
  induction l as [|x l [IH1 IH2]]; simpl; [auto|].
  rewrite H. simpl. rewrite IH1, IH2. auto.
Qed.

Lemma mem_id_In (i : nat) (l : list Batch) :
  mem_id i l = true <-> In i (bids l).
Proof.
  unfold mem_id, bids. rewrite existsb_exists, in_map_iff.
  split; intros (b & H1 & H2); exists b.
  - apply Nat.eqb_eq in H2. tauto.
  - split; [tauto|]. apply Nat.eqb_eq. tauto.
Qed.

Lemma rank_spec (cs : ConnectionStates) (i : nat) :
  (In i (bids (fadingIn cs)) /\ rank cs i = 0%nat) \/
  (~ In i (bids (fadingIn cs)) /\ In i (bids (active cs)) /\
   rank cs i = 1%nat) \/
  (~ In i (bids (fadingIn cs)) /\ ~ In i (bids (active cs)) /\
   In i (bids (fadingOut cs)) /\ rank cs i = 2%nat) \/
  (~ In i (bids (fadingIn cs)) /\ ~ In i (bids (active cs)) /\
   ~ In i (bids (fadingOut cs)) /\ In i (bids (pendingRemoval cs)) /\
   rank cs i = 3%nat) \/
  (~ In i (bids (fadingIn cs)) /\ ~ In i (bids (active cs)) /\
   ~ In i (bids (fadingOut cs)) /\ ~ In i (bids (pendingRemoval cs)) /\
   rank cs i = 4%nat).
Proof.
  unfold rank. rewrite <- !mem_id_In.
  destruct (mem_id i (fadingIn cs)); [tauto|].
  destruct (mem_id i (active cs)); [right; left; intuition congruence|].
  destruct (mem_id i (fadingOut cs));
    [right; right; left; intuition congruence|].
  destruct (mem_id i (pendingRemoval cs)).
  - right; right; right; left; intuition congruence.
  - right; right; right; right; intuition congruence.
Qed.

Lemma bids_firstn_skipn (n : nat) (l : list Batch) :
  bids l = bids (firstn n l) ++ bids (skipn n l).
Proof. now rewrite <- bids_app, firstn_skipn. Qed.

Lemma feeds_rank (cs cs' : ConnectionStates) (i : nat) :
  feeds cs cs' i ->
  (rank cs i <= rank cs' i <= S (rank cs i))%nat.
Proof.
  intros (M1 & M2 & M3 & M4 & M5 & M6 & M7).
  destruct (rank_spec cs i)
    as [(?&->)|[(?&?&->)|[(?&?&?&->)|[(?&?&?&?&->)|(?&?&?&?&->)]]]];
  destruct (rank_spec cs' i)
    as [(?&->)|[(?&?&->)|[(?&?&?&->)|[(?&?&?&?&->)|(?&?&?&?&->)]]]];
  first [lia | exfalso; tauto].
Qed.

Lemma preTickStates_id (tNow : Q) (cs : ConnectionStates) :
  preTickStates tNow cs 0 [] [] = cs.
Proof.
  destruct cs. unfold preTickStates. simpl. now rewrite !app_nil_r.
Qed.

Lemma tick_after_demote_feeds sin (tNow : Q) (cs : ConnectionStates)
  (n : nat) (newA newFI : list Batch) (i : nat) :
  ~ In i (bids (newA ++ newFI)) ->
  feeds cs (tickStates sin tNow (preTickStates tNow cs n newA newFI)) i.
Proof.
  intro Hnew. rewrite bids_app, in_app_iff in Hnew.
  destruct (tick_bids sin tNow (preTickStates tNow cs n newA newFI))
    as (E1 & E2 & E3 & E4).
  cbv zeta in *. unfold feeds. rewrite E1, E2, E3, E4. clear E1 E2 E3 E4.
  cbn [preTickStates active fadingIn fadingOut pendingRemoval].
  destruct (demoted_not_done tNow (firstn n (active cs))) as [D1 D2].
  rewrite !filter_app, D1, D2, app_nil_r.
  rewrite !bids_app, bids_map_demote.
  pose proof (bids_firstn_skipn n (active cs)) as HA.
  pose proof (bids_filter_in (fun c => negb (fadeInDone tNow c))
                (fadingIn cs) i) as F1.
  pose proof (bids_filter_in (fun c => negb (fadeInDone tNow c)) newFI i)
    as F2.
  pose proof (bids_filter_in (fadeInDone tNow) (fadingIn cs) i) as F3.
  pose proof (bids_filter_in (fadeInDone tNow) newFI i) as F4.
  pose proof (bids_filter_in (fun c => negb (fadeOutDone tNow c))
                (fadingOut cs) i) as F5.
  pose proof (bids_filter_in (fadeOutDone tNow) (fadingOut cs) i) as F6.
  pose proof (bids_filter_split (fadeInDone tNow) (fadingIn cs) i) as S1.
  pose proof (bids_filter_split (fadeOutDone tNow) (fadingOut cs) i) as S2.
  rewrite HA, !in_app_iff. tauto.
Qed.

Lemma tick_feeds sin (tNow : Q) (cs : ConnectionStates) (i : nat) :
  feeds cs (tickStates sin tNow cs) i.
Proof.
  rewrite <- (preTickStates_id tNow cs) at 2.
  apply tick_after_demote_feeds. simpl. tauto.
Qed.

Lemma scene_add_in (i j : nat) (s : list nat) :
  In i (scene_add j s) -> In i s \/ i = j.
Proof.
  unfold scene_add, scene_remove. rewrite in_app_iff, filter_In. simpl.
  intuition.
Qed.

Lemma render_preTick sqrt sin positions rnd (tNow now : Q) (w : World) :
  render sqrt sin positions rnd tNow now w
  = updateConnections sin tNow (preTick sqrt positions rnd tNow now w).
Proof. reflexivity. Qed.

Lemma preTick_shape sqrt positions rnd (tNow now : Q) (w : World) :
  let w1 := preTick sqrt positions rnd tNow now w in
  exists (n : nat) (newA newFI : list Batch),
    connectionStates w1
      = preTickStates tNow (connectionStates w) n newA newFI /\
    Forall (fun b => bid b = nextId w) (newA ++ newFI) /\
    (length (newA ++ newFI) <= 1)%nat /\
    nextId w1 = (nextId w + length (newA ++ newFI))%nat /\
    (forall i, In i (scene w1) -> In i (scene w) \/ i = nextId w).
Proof.
  intro w1. subst w1. unfold preTick.
  destruct (initialSetupDone w && Qgeb tNow (nextConnectionUpdateTime w)).
  2:{ exists 0%nat, [], []. rewrite preTickStates_id. simpl.
      repeat split; auto. }
  unfold balance.
  destruct (balanceDemote_shape tNow (stat_total (connectionStats w))
              (connectionStates w)) as [n En].
  set (w1 := setStates w _ _).
  assert (H1 : connectionStates w1
               = preTickStates tNow (connectionStates w) n [] []).
  { subst w1. cbn [setStates connectionStates]. rewrite En.
    unfold preTickStates. now rewrite !app_nil_r. }
  assert (Hw1 : exists n newA newFI,
             connectionStates w1
               = preTickStates tNow (connectionStates w) n newA newFI /\
             Forall (fun b => bid b = nextId w) (newA ++ newFI) /\
             (length (newA ++ newFI) <= 1)%nat /\
             nextId w1 = (nextId w + length (newA ++ newFI))%nat /\
             (forall i, In i (scene w1) -> In i (scene w) \/ i = nextId w)).
  { exists n, [], []. simpl. repeat split; auto. }
  destruct (connectionsToAdd (connectionStats w)) as [c|]; [|exact Hw1].
  destruct (0 <? c)%Z; [|exact Hw1].
  rewrite (createConnections_partial sqrt positions rnd now
             CONNECTION_REFRESH_RATE (Some c) w1 eq_refl).
  destruct (newBatch_facts sqrt positions rnd w1 now CONNECTION_REFRESH_RATE
              (Z.to_nat (numHubsToCreate CONNECTION_REFRESH_RATE (Some c))))
    as (m & _ & _ & Hbid & _).
  set (nb := newBatch w1 now CONNECTION_REFRESH_RATE _) in *.
  destruct (fst (fst _)); [exact Hw1|].
  assert (Hid : bid nb = nextId w) by exact Hbid.
  assert (Hsc : forall i, In i (scene_add (nextId w1) (scene w1)) ->
                  In i (scene w) \/ i = nextId w).
  { intros i Hi. apply scene_add_in in Hi. exact Hi. }
  destruct (connections w1).
  - exists n, [], [nb].
    cbn [connectionStates nextId scene]. rewrite H1.
    unfold preTickStates. cbn [active fadingIn fadingOut pendingRemoval].
    rewrite !app_nil_r. simpl.
    repeat split; auto. subst w1. simpl. lia.
  - exists n, [nb], [].
    cbn [connectionStates nextId scene]. rewrite H1.
    unfold preTickStates. cbn [active fadingIn fadingOut pendingRemoval].
    rewrite !app_nil_r. simpl.
    repeat split; auto. subst w1. simpl. lia.
Qed.

(** ** Every batch in one bucket, moving forward (C5) *)

Lemma tick_all_bids sin (tNow : Q) (cs : ConnectionStates) :
  Permutation (bids (all_batches (tickStates sin tNow cs)))
    (bids (fadingIn cs) ++ bids (active cs) ++ bids (fadingOut cs)).
Proof.
  destruct (tick_bids sin tNow cs) as (E1 & E2 & E3 & E4). cbv zeta in *.
  unfold all_batches. rewrite !bids_app, E1, E2, E3, E4.
  rewrite <- (bids_filter_perm (fadeInDone tNow) (fadingIn cs)).
  rewrite <- (bids_filter_perm (fadeOutDone tNow) (fadingOut cs)).
  aac_reflexivity.
Qed.

Lemma preTickStates_all_bids (tNow : Q) (cs : ConnectionStates) (n : nat)
  (newA newFI : list Batch) :
  Permutation (bids (all_batches (preTickStates tNow cs n newA newFI)))
    (bids (all_batches cs) ++ bids (newA ++ newFI)).
Proof.
  unfold all_batches, preTickStates.
  cbn [active fadingIn fadingOut pendingRemoval].
  rewrite !bids_app, bids_map_demote, (bids_firstn_skipn n (active cs)).
  aac_reflexivity.
Qed.

Lemma tick_wf sin (tNow : Q) (w : World) :
  wfWorld w -> wfWorld (updateConnections sin tNow w).
Proof.
  intros [Hnd Hlt]. unfold wfWorld, updateConnections.
  cbn [connectionStates nextId].
  pose proof (tick_all_bids sin tNow (connectionStates w)) as P.
  unfold all_batches in Hnd, Hlt. rewrite !bids_app in Hnd, Hlt.
  rewrite !app_assoc in Hnd, Hlt.
  apply NoDup_app_remove_r in Hnd. apply Forall_app in Hlt.
  destruct Hlt as [Hlt _]. rewrite <- !app_assoc in Hnd, Hlt.
  split.
  - eapply Permutation_NoDup; [apply Permutation_sym, P | exact Hnd].
  - eapply Permutation_Forall; [apply Permutation_sym, P | exact Hlt].
Qed.

Lemma frame_wf sqrt sin positions rnd (tNow now : Q) (w : World) :
  wfWorld w ->
  wfWorld (render sqrt sin positions rnd tNow now w) /\
  (nextId w <= nextId (render sqrt sin positions rnd tNow now w))%nat.
Proof.
  intros [Hnd Hlt]. rewrite render_preTick.
  destruct (preTick_shape sqrt positions rnd tNow now w)
    as (n & newA & newFI & Hcs & Hnew & Hlen & Hnext & _).
  set (w1 := preTick sqrt positions rnd tNow now w) in *.
  split; [apply tick_wf | simpl; lia].
  pose proof (preTickStates_all_bids tNow (connectionStates w) n newA newFI)
    as P.
  unfold wfWorld. rewrite Hcs, Hnext. split.
  - eapply Permutation_NoDup; [apply Permutation_sym, P|].
    apply NoDup_app; repeat split.
    + exact Hnd.
    + destruct (newA ++ newFI) as [|x [|y l]]; simpl in *;
        [constructor | repeat constructor; auto | lia].
    + intros i Hi Hi'. rewrite Forall_forall in Hlt, Hnew.
      apply Hlt in Hi. apply in_map_iff in Hi'.
      destruct Hi' as (b & <- & Hb). apply Hnew in Hb. lia.
  - eapply Permutation_Forall; [apply Permutation_sym, P|].
    apply Forall_app. split.
    + eapply Forall_impl; [|exact Hlt]. simpl. intros; lia.
    + apply Forall_forall. intros i Hi. rewrite Forall_forall in Hnew.
      apply in_map_iff in Hi. destruct Hi as (b & <- & Hb).
      pose proof (Hnew _ Hb) as Eb.
      destruct (newA ++ newFI); simpl in *; [contradiction|lia].
Qed.

Lemma frame_feeds sqrt sin positions rnd (tNow now : Q) (w : World) (i : nat) :
  (i < nextId w)%nat ->
  feeds (connectionStates w)
    (connectionStates (render sqrt sin positions rnd tNow now w)) i.
Proof.
  intro Hi. rewrite render_preTick.
  destruct (preTick_shape sqrt positions rnd tNow now w)
    as (n & newA & newFI & Hcs & Hnew & _).
  unfold updateConnections. cbn [connectionStates]. rewrite Hcs.
  apply tick_after_demote_feeds.
  intro H. apply in_map_iff in H. destruct H as (b & E & Hb).
  rewrite Forall_forall in Hnew. apply Hnew in Hb. lia.
Qed.

Lemma run_cons sqrt sin (f : Frame) (fs : list Frame) (w : World) :
  run sqrt sin (f :: fs) w = run sqrt sin fs (renderFrame sqrt sin f w).
Proof. reflexivity. Qed.

Lemma run_invariant sqrt sin (fs : list Frame) (w : World) :
  wfWorld w ->
  wfWorld (run sqrt sin fs w) /\
  (nextId w <= nextId (run sqrt sin fs w))%nat /\
  forall i, (i < nextId w)%nat ->
    (rank (connectionStates w) i
     <= rank (connectionStates (run sqrt sin fs w)) i)%nat.
Proof.
  revert w. induction fs as [|f fs IH]; intros w Hwf.
  - simpl. split; [exact Hwf|]. split; [lia|]. intros; lia.
  - rewrite run_cons.
    destruct (frame_wf sqrt sin (f_positions f) (f_rnd f) (f_tNow f)
                (f_now f) w Hwf) as [Hwf' Hle].
    fold (renderFrame sqrt sin f w) in Hwf', Hle.
    destruct (IH _ Hwf') as (H1 & H2 & H3).
    split; [exact H1|]. split; [lia|].
    intros i Hi.
    pose proof (feeds_rank _ _ i
                  (frame_feeds sqrt sin (f_positions f) (f_rnd f) (f_tNow f)
                     (f_now f) w i Hi)) as Hr.
    fold (renderFrame sqrt sin f w) in Hr.
    specialize (H3 i ltac:(lia)). lia.
Qed.

Lemma NoDup_app_disjoint {A : Type} (l1 l2 : list A) :
  NoDup (l1 ++ l2) -> NoDup l2 /\ forall a, In a l1 -> ~ In a l2.
Proof.
  induction l1 as [|x l1 IH]; simpl; intro H.
  - split; [exact H | contradiction].
  - inversion H as [|? ? Hx Hnd]; subst.
    destruct (IH Hnd) as [H2 Hd]. split; [exact H2|].
    intros a [<- | Ha]; [|now apply Hd].
    intro Hin. apply Hx. apply in_or_app. now right.
Qed.

Lemma wf_fadingOut_only (w : World) (i : nat) :
  wfWorld w ->
  In i (bids (fadingOut (connectionStates w))) ->
  (i < nextId w)%nat /\
  ~ In i (bids (fadingIn (connectionStates w))) /\
  ~ In i (bids (active (connectionStates w))) /\
  ~ In i (bids (pendingRemoval (connectionStates w))) /\
  rank (connectionStates w) i = 2%nat.
Proof.
  intros [Hnd Hlt] Hi. unfold all_batches in *. rewrite !bids_app in *.
  assert (Hlt' : (i < nextId w)%nat).
  { rewrite Forall_forall in Hlt. apply Hlt. rewrite !in_app_iff. tauto. }
  apply NoDup_app_disjoint in Hnd. destruct Hnd as (Hnd & H1).
  apply NoDup_app_disjoint in Hnd. destruct Hnd as (Hnd & H2).
  apply NoDup_app_disjoint in Hnd. destruct Hnd as (_ & H3).
  assert (N1 : ~ In i (bids (fadingIn (connectionStates w)))).
  { intro H. apply (H1 i H). rewrite !in_app_iff. tauto. }
  assert (N2 : ~ In i (bids (active (connectionStates w)))).
  { intro H. apply (H2 i H). rewrite !in_app_iff. tauto. }
  assert (N3 : ~ In i (bids (pendingRemoval (connectionStates w)))).
  { apply H3. exact Hi. }
  repeat (split; [assumption|]).
  destruct (rank_spec (connectionStates w) i)
    as [(?&?)|[(?&?&?)|[(?&?&?&?)|[(?&?&?&?&?)|(?&?&?&?&?)]]]];
    tauto.
Qed.

Lemma setup_wf sqrt positions rnd (now : Q) :
  wfWorld (createInitialConnections sqrt positions rnd now emptyWorld).
Proof.
  unfold createInitialConnections, createConnections.
  cbn [connections emptyWorld scene].
  destruct (hubLoop sqrt positions rnd 1 _ 0) as [[p c] o].
  destruct p; split; cbn; repeat constructor; auto.
Qed.

(** C5: the world that setup builds has every batch in one bucket, and
    along any run of frames from a world in which every batch sits in one
    bucket, every batch still sits in one bucket, and the position of a
    batch in the order fadingIn, active, fadingOut, pendingRemoval, deleted
    never decreases; a batch seen in fadingOut is never again in active or
    fadingIn; one frame, and one lifecycle tick alone, advance a batch by at
    most one position. *)
Theorem buckets_move_forward sqrt sin (fs : list Frame) (w : World) :
  wfWorld w ->
  let cs := connectionStates w in
  let w' := run sqrt sin fs w in
  (forall positions rnd now,
     wfWorld (createInitialConnections sqrt positions rnd now emptyWorld)) /\
  wfWorld w' /\
  (forall i, (i < nextId w)%nat ->
     (rank cs i <= rank (connectionStates w') i)%nat) /\
  (forall i, In i (bids (fadingOut cs)) ->
     ~ In i (bids (active (connectionStates w'))) /\
     ~ In i (bids (fadingIn (connectionStates w')))) /\
  (forall f i, (i < nextId w)%nat ->
     (rank cs i <= rank (connectionStates (renderFrame sqrt sin f w)) i
      <= S (rank cs i))%nat) /\
  (forall tNow i,
     (rank cs i <= rank (connectionStates (updateConnections sin tNow w)) i
      <= S (rank cs i))%nat).
Proof.
  intros Hwf cs w'.
  destruct (run_invariant sqrt sin fs w Hwf) as (H1 & _ & H3).
  split; [intros; apply setup_wf|].
  split; [exact H1|]. split; [exact H3|]. split; [|split].
  - intros i Hi.
    destruct (wf_fadingOut_only w i Hwf Hi) as (Hlt & _ & _ & _ & Hr).
    specialize (H3 i Hlt). fold w' in H3. rewrite Hr in H3.
    destruct (rank_spec (connectionStates w') i)
      as [(?&?)|[(?&?&?)|[(?&?&?&?)|[(?&?&?&?&?)|(?&?&?&?&?)]]]];
      first [lia | tauto].
  - intros f i Hi. apply feeds_rank. apply frame_feeds. exact Hi.
  - intros tNow i. apply feeds_rank. apply tick_feeds.
Qed.

Lemma mixedWorld_wf : wfWorld mixedWorld.
Proof.
  split.
  - repeat constructor; simpl; intuition discriminate.
  - repeat constructor.
Qed.

Lemma buckets_move_forward_witness :
  wfWorld mixedWorld /\
  wfWorld (run sqrtQ sinPoly sampleFrames mixedWorld) /\
  (rank (connectionStates mixedWorld) 2
   <= rank (connectionStates (run sqrtQ sinPoly sampleFrames mixedWorld))
        2)%nat.
Proof.
  split; [exact mixedWorld_wf|].
  destruct (buckets_move_forward sqrtQ sinPoly sampleFrames mixedWorld
              mixedWorld_wf) as (_ & H1 & H2 & _).
  split; [exact H1|]. apply H2. simpl. lia.
Defined.

(** ** Expiry of a fading-out batch (C8) *)

Lemma NoDup_bids_inj (l : list Batch) (b b2 : Batch) :
  NoDup (bids l) -> In b l -> In b2 l -> bid b = bid b2 -> b = b2.
Proof.
  induction l as [|x l IH]; simpl; [contradiction|].
  intros Hnd H1 H2 E. inversion Hnd as [|? ? Hx Hl]; subst.
  destruct H1 as [<- | H1], H2 as [<- | H2]; auto.
  - exfalso. apply Hx. rewrite E. now apply in_map.
  - exfalso. apply Hx. rewrite <- E. now apply in_map.
Qed.

Lemma scene_remove_in (i j : nat) (s : list nat) :
  In i (scene_remove j s) <-> In i s /\ i <> j.
Proof.
  unfold scene_remove. rewrite filter_In, negb_true_iff, Nat.eqb_neq.
  tauto.
Qed.

Lemma has_parent_In (i : nat) (s : list nat) :
  has_parent i s = true <-> In i s.
Proof.
  unfold has_parent. rewrite existsb_exists. split.
  - intros (x & Hx & E). apply Nat.eqb_eq in E. now subst.
  - intro H. exists i. split; [exact H | apply Nat.eqb_refl].
Qed.


Lemma detachAll_cons (x : Batch) (l : list Batch) (s : list nat) :
  detachAll (x :: l) s =
  detachAll l (if has_parent (bid x) s then scene_remove (bid x) s else s).
Proof. reflexivity. Qed.







(** ** A tick at the start time of a batch (C1) *)

Lemma Forall2_Qeq_refl (l : list Q) : Forall2 Qeq l l.
Proof. induction l; constructor; auto. apply Qeq_refl. Qed.

Lemma onSpokes_Forall2 (n : nat) (f g : Q -> Q) (l : list Q) :
  (forall c, f c == g c) ->
  Forall2 Qeq (onSpokes n f l) (onSpokes n g l).
Proof.
  intro H. unfold onSpokes. apply Forall2_app; [|apply Forall2_Qeq_refl].
  induction (firstn (6 * n) l); simpl; constructor; auto.
Qed.

Lemma fadeOutFactor_at_start (tNow : Q) (b : Batch) :
  startTime b == tNow -> fadeOutFactor tNow b == 1.
Proof.
  intro H. unfold fadeOutFactor, cube, FADE_OUT_DURATION.
  rewrite (sub64_same tNow (startTime b)) by (symmetry; exact H).
  reflexivity.
Qed.

Lemma onSpokes_zero (n : nat) (k : Q) (l : list Q) :
  Forall (fun c => c == 0) l ->
  Forall2 Qeq (onSpokes n (fun c => c * k) l) l.
Proof.
  intro H. unfold onSpokes. rewrite <- (firstn_skipn (6 * n) l) at 3.
  rewrite <- (firstn_skipn (6 * n) l) in H. apply Forall_app in H.
  destruct H as [H _].
  apply Forall2_app; [|apply Forall2_Qeq_refl].
  induction H as [|c l' Hc _ IH]; simpl; constructor; auto.
  rewrite Hc. ring.
Qed.

Lemma Forall2_Qeq_trans (a b c : list Q) :
  Forall2 Qeq a b -> Forall2 Qeq b c -> Forall2 Qeq a c.
Proof.
  intro H. revert c. induction H as [|x y a b Hxy _ IH]; intros c Hc;
    inversion Hc; subst; constructor.
  - eapply Qeq_trans; eassumption.
  - now apply IH.
Qed.

(** C1, as stated, fails: a batch that entered fadingOut at time 5 with
    colour components 0.5 has, after the tick at time 5 (elapsed 0),
    colour components 0.475. *)
Lemma tick_at_start_changes_colors :
  map startTime (fadingOut (connectionStates fadingOutWorld)) = [5] /\
  map (fun b => map Qred (colors b))
    (fadingOut (connectionStates fadingOutWorld)) = [repeat (1 # 2) 18] /\
  map (fun b => map Qred (colors b))
    (fadingOut (connectionStates (updateConnections sinPoly 5 fadingOutWorld)))
  = [repeat (19 # 40) 18] /\
  ~ Forall2 (Forall2 Qeq)
      (map colors
         (fadingOut (connectionStates
                       (updateConnections sinPoly 5 fadingOutWorld))))
      (map colors (fadingOut (connectionStates fadingOutWorld))).
Proof.
  repeat split; try (vm_compute; reflexivity).
  intro H. vm_compute in H.
  inversion H as [|? ? ? ? H1 _]; subst.
  inversion H1 as [|? ? ? ? H2 _]; subst.
  discriminate H2.
Qed.

(** C1 (amended): a tick moves no batch out of fadingIn while its elapsed
    time is at most FADE_IN_DURATION, nor out of fadingOut while it is at
    most FADE_OUT_DURATION, and never changes the opacities array of a
    batch; at elapsed 0 the colour components of a fading-in batch are
    multiplied by 0.9 and those of a fading-out batch by 0.95 (its
    visibility is kept), so they are left as they were where they are
    zero, as in a batch just built with the flat black line colour. *)
Theorem tick_before_duration sin (tNow : Q) (w : World) :
  let cs := connectionStates w in
  let cs' := connectionStates (updateConnections sin tNow w) in
  (forall b, In b (fadingIn cs) ->
     tNow - startTime b <= FADE_IN_DURATION ->
     In (fadeInStep tNow b) (fadingIn cs')) /\
  (forall b, In b (fadingOut cs) ->
     tNow - startTime b <= FADE_OUT_DURATION ->
     In (fadeOutStep tNow b) (fadingOut cs')) /\
  (forall b,
     opacities (fadeInStep tNow b) = opacities b /\
     opacities (fadeOutStep tNow b) = opacities b /\
     opacities (pulseStep sin tNow b) = opacities b) /\
  (forall b, startTime b == tNow ->
     Forall2 Qeq (colors (fadeInStep tNow b))
       (onSpokes (length (opacities b)) (fun c => c * (9 # 10)) (colors b)) /\
     Forall2 Qeq (colors (fadeOutStep tNow b))
       (onSpokes (length (opacities b)) (fun c => c * (95 # 100))
          (colors b)) /\
     visible (fadeOutStep tNow b) = visible b /\
     (Forall (fun c => c == 0) (colors b) ->
      Forall2 Qeq (colors (fadeInStep tNow b)) (colors b) /\
      Forall2 Qeq (colors (fadeOutStep tNow b)) (colors b))).
Proof.
  intros cs cs'. subst cs cs'. unfold updateConnections.
  cbn [connectionStates]. rewrite tickStates_fields.
  rewrite fadingInLoop_spec, fadingOutLoop_spec.
  cbn [fst snd active fadingIn fadingOut pendingRemoval].
  split; [|split; [|split]].
  - intros b Hb He. apply in_map, filter_In. split; [exact Hb|].
    apply negb_true_iff, Qgtb_le. now apply sub64_le_fade_in.
  - intros b Hb He. apply in_map, filter_In. split; [exact Hb|].
    apply negb_true_iff, Qgtb_le. now apply sub64_le_fade_out.
  - intro b. split; [reflexivity|]. split.
    + unfold fadeOutStep. destruct (Qltb _ _); reflexivity.
    + unfold pulseStep. destruct (opacities b) eqn:E; exact E.
  - intros b Hs.
    pose proof (fadeOutFactor_at_start tNow b Hs) as Hf.
    assert (Hv : Qltb (fadeOutFactor tNow b) (1 # 10) = false).
    { apply Qltb_ge. rewrite Hf. discriminate. }
    unfold fadeOutStep. rewrite Hv.
    cbn [fadeInStep setColors colors visible].
    assert (Hin : Forall2 Qeq
              (onSpokes (length (opacities b))
                 (fun c => c * (9 # 10) + (1 # 10) *
                    ((6 # 10) *
                     (sub64 tNow (startTime b) / FADE_IN_DURATION)))
                 (colors b))
              (onSpokes (length (opacities b)) (fun c => c * (9 # 10))
                 (colors b))).
    { apply onSpokes_Forall2. intro c. unfold FADE_IN_DURATION.
      rewrite (sub64_same tNow (startTime b)) by (symmetry; exact Hs).
      field. }
    assert (Hout : Forall2 Qeq
              (onSpokes (length (opacities b))
                 (fun c => c * (95 # 100) * fadeOutFactor tNow b) (colors b))
              (onSpokes (length (opacities b)) (fun c => c * (95 # 100))
                 (colors b))).
    { apply onSpokes_Forall2. intro c. rewrite Hf. ring. }
    split; [exact Hin|]. split; [exact Hout|]. split; [reflexivity|].
    intro Hz. split.
    + eapply Forall2_Qeq_trans; [exact Hin | now apply onSpokes_zero].
    + eapply Forall2_Qeq_trans; [exact Hout | now apply onSpokes_zero].
Qed.

Lemma tick_before_duration_witness :
  In (fadeOutStep 5 (sampleBatch 0 1 (5 # 10) SFadingOut 5))
    (fadingOut (connectionStates (updateConnections sinPoly 5 fadingOutWorld)))
  /\
  visible (fadeOutStep 5 (sampleBatch 0 1 (5 # 10) SFadingOut 5)) = true.
Proof.
  destruct (tick_before_duration sinPoly 5 fadingOutWorld)
    as (_ & H2 & _ & H4).
  split.
  - apply H2; [simpl; auto | discriminate].
  - exact (proj1 (proj2 (proj2 (H4 (sampleBatch 0 1 (5 # 10) SFadingOut 5)
                                  (Qeq_refl 5))))).
Defined.

(** ** The active array is in creation order *)

Lemma sorted_app_iff (l1 l2 : list Batch) :
  StronglySorted older (l1 ++ l2) <->
  StronglySorted older l1 /\ StronglySorted older l2 /\
  forall a b, In a l1 -> In b l2 -> older a b.
Proof.
  induction l1 as [|x l1 IH]; simpl.
  - split; [intro H; repeat split; [constructor | exact H | contradiction]
           | tauto].
  - split.
    + intro H. inversion H as [|? ? Hs Hx]; subst.
      apply IH in Hs. destruct Hs as (S1 & S2 & S3).
      apply Forall_app in Hx. destruct Hx as [X1 X2].
      repeat split; auto.
      * constructor; auto.
      * intros a b [<- | Ha] Hb; [|auto].
        rewrite Forall_forall in X2. auto.
    + intros (S1 & S2 & S3). inversion S1 as [|? ? Hs Hx]; subst.
      constructor.
      * apply IH. repeat split; auto.
      * apply Forall_app. split; [exact Hx|].
        apply Forall_forall. intros b Hb. apply S3; auto.
Qed.

Lemma sorted_map (f : Batch -> Batch) (l : list Batch) :
  (forall b, startTime (f b) = startTime b) ->
  StronglySorted older l -> StronglySorted older (map f l).
Proof.
  intros Hf. induction 1 as [|x l Hs IH Hx]; simpl; constructor; auto.
  apply Forall_forall. intros y Hy. apply in_map_iff in Hy.
  destruct Hy as (z & <- & Hz). rewrite Forall_forall in Hx.
  unfold older. rewrite !Hf. now apply Hx.
Qed.

Lemma startTime_fadeInStep (tNow : Q) (b : Batch) :
  startTime (fadeInStep tNow b) = startTime b.
Proof. reflexivity. Qed.

Lemma startTime_pulseStep sin (tNow : Q) (b : Batch) :
  startTime (pulseStep sin tNow b) = startTime b.
Proof. unfold pulseStep. destruct (opacities b); reflexivity. Qed.

(** On a list in creation order the batches that finished fading in form
    a prefix. *)
Lemma fadeInDone_prefix (tNow : Q) (l : list Batch) :
  StronglySorted older l ->
  filter (fadeInDone tNow) l ++ filter (fun c => negb (fadeInDone tNow c)) l
  = l.
Proof.
  induction 1 as [|x l Hs IH Hx]; simpl; [reflexivity|].
  destruct (fadeInDone tNow x) eqn:E; simpl.
  - now rewrite IH.
  - assert (Hn : forall y, In y l -> fadeInDone tNow y = false).
    { intros y Hy. rewrite Forall_forall in Hx. specialize (Hx y Hy).
      unfold older in Hx. apply Qgtb_le. apply Qgtb_le in E.
      eapply Qle_trans; [|exact E]. apply fl64_mono. lra. }
    assert (F1 : filter (fadeInDone tNow) l = []).
    { clear - Hn. induction l as [|y l IHl]; simpl; [reflexivity|].
      rewrite (Hn y) by now left. apply IHl. intros; apply Hn; now right. }
    assert (F2 : filter (fun c => negb (fadeInDone tNow c)) l = l).
    { clear - Hn. induction l as [|y l IHl]; simpl; [reflexivity|].
      rewrite (Hn y) by now left. simpl. f_equal.
      apply IHl. intros; apply Hn; now right. }
    now rewrite F1, F2.
Qed.

Lemma tick_clockInv sin (T tNow : Q) (w : World) :
  clockInv T w -> clockInv T (updateConnections sin tNow w).
Proof.
  intros (Hs & Hle & Hc). unfold clockInv, updateConnections.
  cbn [connectionStates connections].
  rewrite tickStates_fields, fadingInLoop_spec.
  cbn [fst snd active fadingIn].
  apply sorted_app_iff in Hs as Hs'. destruct Hs' as (_ & HsFI & _).
  pose proof (fadeInDone_prefix tNow _ HsFI) as P.
  split; [|split].
  - apply sorted_app_iff. apply sorted_app_iff in Hs.
    destruct Hs as (S1 & S2 & S3).
    assert (Sd : StronglySorted older
              (active (connectionStates w) ++
               filter (fadeInDone tNow) (fadingIn (connectionStates w)))).
    { apply sorted_app_iff. repeat split; auto.
      - rewrite <- P in S2. now apply sorted_app_iff in S2.
      - intros a b Ha Hb. apply filter_In in Hb. apply S3; tauto. }
    assert (Sn : StronglySorted older
              (filter (fun c => negb (fadeInDone tNow c))
                 (fadingIn (connectionStates w)))).
    { rewrite <- P in S2. now apply sorted_app_iff in S2. }
    repeat split.
    + apply sorted_map; [apply startTime_pulseStep | exact Sd].
    + apply sorted_map; [apply startTime_fadeInStep | exact Sn].
    + intros a b Ha Hb. apply in_map_iff in Ha, Hb.
      destruct Ha as (a0 & <- & Ha), Hb as (b0 & <- & Hb).
      unfold older. rewrite startTime_pulseStep, startTime_fadeInStep.
      apply in_app_or in Ha. destruct Ha as [Ha | Ha].
      * apply filter_In in Hb. apply S3; tauto.
      * rewrite <- P in S2. apply sorted_app_iff in S2.
        destruct S2 as (_ & _ & S2). now apply S2.
  - apply Forall_forall. intros b Hb. rewrite Forall_forall in Hle.
    apply in_app_or in Hb. destruct Hb as [Hb | Hb];
      apply in_map_iff in Hb; destruct Hb as (b0 & <- & Hb).
    + rewrite startTime_pulseStep. apply Hle.
      apply in_app_or in Hb. destruct Hb as [Hb | Hb];
        [|apply filter_In in Hb]; apply in_or_app; tauto.
    + rewrite startTime_fadeInStep. apply Hle.
      apply filter_In in Hb. apply in_or_app; tauto.
  - intro Hn. destruct (Hc Hn) as [-> ->]. simpl. auto.
Qed.

Lemma clockInv_weaken (T T' : Q) (w : World) :
  T <= T' -> clockInv T w -> clockInv T' w.
Proof.
  intros HT (Hs & Hle & Hc). repeat split; auto; try (apply Hc; assumption).
  eapply Forall_impl; [|exact Hle]. simpl. intros b Hb. lra.
Qed.

Lemma demote_clockInv (T tNow total next : Q) (w : World) :
  clockInv T w ->
  clockInv T (setStates w next (balanceDemote tNow total (connectionStates w))).
Proof.
  intros (Hs & Hle & Hc).
  destruct (balanceDemote_shape tNow total (connectionStates w)) as [n E].
  unfold clockInv. cbn [setStates connectionStates connections].
  rewrite E. cbn [active fadingIn].
  rewrite <- (firstn_skipn n (active (connectionStates w))) in Hs, Hle.
  rewrite <- app_assoc in Hs, Hle.
  apply sorted_app_iff in Hs. apply Forall_app in Hle.
  split; [tauto|]. split; [tauto|].
  intro Hn. destruct (Hc Hn) as [Ha Hf]. rewrite Ha, Hf.
  now rewrite skipn_nil.
Qed.

Lemma create_clockInv sqrt positions rnd (T now pct : Q) (cnt : option Z)
  (w : World) :
  Qgeb pct 1 = false -> T <= now ->
  clockInv T w ->
  clockInv now (createConnections sqrt positions rnd now pct cnt w).
Proof.
  intros Hp HT Hinv.
  rewrite (createConnections_partial sqrt positions rnd now pct cnt w Hp).
  destruct (newBatch_facts sqrt positions rnd w now pct
              (Z.to_nat (numHubsToCreate pct cnt)))
    as (m & _ & _ & _ & Hst & _).
  set (nb := newBatch w now pct _) in *.
  destruct (fst (fst _)); [now apply (clockInv_weaken T)|].
  apply (clockInv_weaken T now w HT) in Hinv as (Hs & Hle & Hc).
  assert (Hnb : Forall (fun b => startTime b <= now) [nb]).
  { constructor; [rewrite Hst; apply Qle_refl | constructor]. }
  assert (Snb : StronglySorted older [nb]) by (repeat constructor).
  destruct (connections w) eqn:Ec; unfold clockInv;
    cbn [connectionStates connections active fadingIn].
  - split; [|split; [|discriminate]].
    + rewrite app_assoc. apply sorted_app_iff. repeat split; auto.
      intros a b Ha [<- | []]. unfold older. rewrite Hst.
      rewrite Forall_forall in Hle. now apply Hle.
    + rewrite app_assoc. apply Forall_app. auto.
  - destruct (Hc eq_refl) as [Ha Hf]. rewrite Ha, Hf. simpl.
    split; [exact Snb|]. split; [exact Hnb|discriminate].
Qed.

Lemma setup_clockInv sqrt positions rnd (now : Q) :
  clockInv now (createInitialConnections sqrt positions rnd now emptyWorld).
Proof.
  unfold createInitialConnections, createConnections.
  cbn [connections emptyWorld scene].
  destruct (hubLoop sqrt positions rnd 1 _ 0) as [[p c] o].
  destruct p; unfold clockInv; cbn.
  - repeat split; auto; constructor.
  - repeat split; try discriminate; repeat constructor. apply Qle_refl.
Qed.

Lemma frame_clockInv sqrt sin positions rnd (T tNow now : Q) (w : World) :
  T <= tNow -> tNow <= now ->
  clockInv T w ->
  clockInv now (render sqrt sin positions rnd tNow now w).
Proof.
  intros H1 H2 Hinv. assert (H3 : T <= now) by lra.
  unfold render. apply tick_clockInv.
  destruct (initialSetupDone w && Qgeb tNow (nextConnectionUpdateTime w));
    [|now apply (clockInv_weaken T)].
  unfold balance.
  pose proof (demote_clockInv T tNow (stat_total (connectionStats w))
                (add64 tNow SMALL_BATCH_INTERVAL) w Hinv) as Hd.
  destruct (connectionsToAdd (connectionStats w)) as [c|];
    [|now apply (clockInv_weaken T)].
  destruct (0 <? c)%Z; [|now apply (clockInv_weaken T)].
  now apply (create_clockInv sqrt positions rnd T).
Qed.

Lemma run_clockInv sqrt sin (fs : list Frame) (T : Q) (w : World) :
  clockInv T w -> clockOrdered T fs ->
  exists T', clockInv T' (run sqrt sin fs w).
Proof.
  revert T w. induction fs as [|f fs IH]; intros T w Hinv Hfs.
  - now exists T.
  - destruct Hfs as (H1 & H2 & Hfs). rewrite run_cons.
    apply (IH (f_now f)); [|exact Hfs].
    now apply (frame_clockInv sqrt sin _ _ T).
Qed.

Lemma sorted_front_older (n : nat) (l : list Batch) :
  StronglySorted older l ->
  forall d k, In d (firstn n l) -> In k (skipn n l) -> older d k.
Proof.
  intro Hs. rewrite <- (firstn_skipn n l) in Hs.
  apply sorted_app_iff in Hs. tauto.
Qed.

(** ** The overflow branch (C3) *)

(** C3, as stated, fails: with 100 active batches of 7 hubs each the total
    is 700, ceil((700 - 400) * 0.3) is 90 and is below the number of
    active batches, yet the balancer moves 630 hubs to fadingOut, not 90
    hubs' worth. *)
Lemma overflow_removes_batches_not_hubs :
  let cs := connectionStates crowdedWorld in
  let total := stat_total (connectionStats crowdedWorld) in
  let cs' := balanceDemote 10 total cs in
  total == 700 /\
  Z.min (activeLength cs) (Qceiling ((total - TARGET_CONNECTIONS) * (3 # 10)))
    = 90%Z /\
  sum_hubs (fadingOut cs') - sum_hubs (fadingOut cs) == 630 /\
  ~ (sum_hubs (fadingOut cs') - sum_hubs (fadingOut cs) ==
     inject_Z (Z.min (activeLength cs)
                 (Qceiling ((total - TARGET_CONNECTIONS) * (3 # 10))))).
Proof.
  vm_compute. repeat split; discriminate.
Qed.

(** C3 (amended): when the total hub count exceeds MAX_TOTAL_CONNECTIONS,
    the balancer moves the first n batches of the active array, in array
    order, to the end of fadingOut (state fadingOut, startTime tNow), where
    n = min(active.length, ceil((total - TARGET_CONNECTIONS) * 0.3)) counts
    batches, whatever their hub counts; the other buckets are untouched.
    The batches moved are the oldest ones: along any run from setup whose
    clock never goes back the active array is in creation order. *)
Theorem overflow_demotes_front_batches sqrt sin (tNow total : Q)
  (cs : ConnectionStates) :
  MAX_TOTAL_CONNECTIONS < total ->
  let n := Z.to_nat (numToRemove total cs) in
  numToRemove total cs =
    Z.min (Z.of_nat (length (active cs)))
      (Qceiling ((total - TARGET_CONNECTIONS) * (3 # 10))) /\
  (n <= length (active cs))%nat /\
  balanceDemote tNow total cs =
    mkStates (skipn n (active cs)) (fadingIn cs)
      (fadingOut cs ++ map (demote tNow) (firstn n (active cs)))
      (pendingRemoval cs) /\
  Forall (fun b => state b = SFadingOut /\ startTime b = tNow)
    (map (demote tNow) (firstn n (active cs))) /\
  (StronglySorted older (active cs) ->
   forall d k, In d (firstn n (active cs)) -> In k (skipn n (active cs)) ->
     startTime d <= startTime k) /\
  (forall positions rnd now fs,
     clockOrdered now fs ->
     StronglySorted older
       (active (connectionStates
                  (run sqrt sin fs
                     (createInitialConnections sqrt positions rnd now
                        emptyWorld))))).
Proof.
  intros Hmax n. split; [reflexivity|]. split; [|split; [|split; [|split]]].
  - subst n. unfold numToRemove, activeLength. lia.
  - unfold balanceDemote.
    apply Qgtb_gt in Hmax. rewrite Hmax. apply demoteLoop_shape.
  - apply Forall_forall. intros b Hb.
    apply in_map_iff in Hb. destruct Hb as [a [<- _]]. now split.
  - intros Hs d k Hd Hk. exact (sorted_front_older n _ Hs d k Hd Hk).
  - intros positions rnd now fs Hfs.
    destruct (run_clockInv sqrt sin fs now _
                (setup_clockInv sqrt positions rnd now) Hfs)
      as (T & Hs & _).
    apply sorted_app_iff in Hs. tauto.
Qed.

Lemma overflow_demotes_front_batches_witness :
  MAX_TOTAL_CONNECTIONS < 700 /\
  length (active (balanceDemote 10 700 (connectionStates crowdedWorld)))
    = 10%nat.
Proof.
  split; [reflexivity|].
  destruct (overflow_demotes_front_batches sqrtQ sinPoly 10 700
              (connectionStates crowdedWorld)) as (_ & _ & E & _).
  - reflexivity.
  - rewrite E. reflexivity.
Defined.

(** * Further properties of the lifecycle *)

(** ** What a frame adds before its tick *)

Lemma hubColors_zero sqrt positions rnd (k : nat) :
  Forall (fun c => c == 0) (hubColors sqrt positions rnd k).
Proof. unfold hubColors. simpl. repeat constructor. Qed.

Lemma hubLoop_colors_zero sqrt positions rnd (pct : Q) (n k : nat) :
  Forall (fun c => c == 0) (snd (fst (hubLoop sqrt positions rnd pct n k))).
Proof.
  revert k. induction n as [|n IH]; intro k; cbn [hubLoop].
  - constructor.
  - specialize (IH (k + drawsPerHub)%nat).
    destruct (hubLoop sqrt positions rnd pct n (k + drawsPerHub))
      as [[ps cs] os].
    pose proof (hubColors_zero sqrt positions rnd k) as Hz.
    unfold hubIteration.
    destruct (potentialNeighbors sqrt positions rnd k) as [|? [|? [|? ?]]];
      cbn [fst snd app] in *; auto.
    apply Forall_app. auto.
Qed.

Lemma newBatch_colors sqrt positions rnd (w : World) (now pct : Q) (n : nat) :
  Forall (fun c => c == 0)
    (colors (newBatch w now pct (hubLoop sqrt positions rnd pct n 0))).
Proof.
  pose proof (hubLoop_colors_zero sqrt positions rnd pct n 0) as H.
  destruct (hubLoop sqrt positions rnd pct n 0) as [[p c] o]. exact H.
Qed.

Lemma preTick_detail sqrt positions rnd (tNow now : Q) (w : World) :
  let w1 := preTick sqrt positions rnd tNow now w in
  exists (n : nat) (newA newFI : list Batch),
    connectionStates w1
      = preTickStates tNow (connectionStates w) n newA newFI /\
    connectionStats w1 = connectionStats w /\
    initialSetupDone w1 = initialSetupDone w /\
    nextId w1 = (nextId w + length (newA ++ newFI))%nat /\
    (length (newA ++ newFI) <= 1)%nat /\
    Forall (fun b => bid b = nextId w /\ shaped b /\ hubsCount b <= 20 /\
                     startTime b = now /\
                     Forall (fun c => c == 0) (colors b))
      (newA ++ newFI) /\
    (newA ++ newFI <> [] ->
     stat_total (connectionStats w) - stat_fadingOut (connectionStats w) + 20
     < TARGET_CONNECTIONS) /\
    scene w1 = (if length (newA ++ newFI) =? 0 then scene w
                else scene_add (nextId w) (scene w))%nat.
Proof.
  intro w1. subst w1. unfold preTick.
  destruct (initialSetupDone w && Qgeb tNow (nextConnectionUpdateTime w)).
  2:{ exists 0%nat, [], []. rewrite preTickStates_id. simpl.
      repeat split; auto. congruence. }
  unfold balance.
  destruct (balanceDemote_shape tNow (stat_total (connectionStats w))
              (connectionStates w)) as [n En].
  set (w1 := setStates w _ _).
  assert (H1 : connectionStates w1
               = preTickStates tNow (connectionStates w) n [] []).
  { subst w1. cbn [setStates connectionStates]. rewrite En.
    unfold preTickStates. now rewrite !app_nil_r. }
  assert (Hw1 : exists n newA newFI,
    connectionStates w1
      = preTickStates tNow (connectionStates w) n newA newFI /\
    connectionStats w1 = connectionStats w /\
    initialSetupDone w1 = initialSetupDone w /\
    nextId w1 = (nextId w + length (newA ++ newFI))%nat /\
    (length (newA ++ newFI) <= 1)%nat /\
    Forall (fun b => bid b = nextId w /\ shaped b /\ hubsCount b <= 20 /\
                     startTime b = now /\
                     Forall (fun c => c == 0) (colors b))
      (newA ++ newFI) /\
    (newA ++ newFI <> [] ->
     stat_total (connectionStats w) - stat_fadingOut (connectionStats w) + 20
     < TARGET_CONNECTIONS) /\
    scene w1 = (if length (newA ++ newFI) =? 0 then scene w
                else scene_add (nextId w) (scene w))%nat).
  { exists n, [], []. simpl. repeat split; auto. congruence. }
  pose proof (connectionsToAdd_spec (connectionStats w)) as Sp.
  cbv zeta in Sp.
  destruct Sp as [(E & _ & Hlt & Hc) | (E & _)]; rewrite E; [|exact Hw1].
  set (c := Z.min 20 _) in *.
  destruct (0 <? c)%Z; [|exact Hw1].
  rewrite (createConnections_partial sqrt positions rnd now
             CONNECTION_REFRESH_RATE (Some c) w1 eq_refl).
  assert (Hreq : numHubsToCreate CONNECTION_REFRESH_RATE (Some c) = c).
  { unfold numHubsToCreate. destruct (Z.eqb_spec c 0); [lia|auto]. }
  destruct (newBatch_facts sqrt positions rnd w1 now CONNECTION_REFRESH_RATE
              (Z.to_nat (numHubsToCreate CONNECTION_REFRESH_RATE (Some c))))
    as (m & Hm & Hm1 & Hbid & Hst & _ & _ & Hlp & Hlc & Hop & Hh).
  rewrite Hreq in *.
  set (nb := newBatch w1 now CONNECTION_REFRESH_RATE _) in *.
  destruct (fst (fst _)) eqn:Eg; [exact Hw1|].
  assert (Hm2 : (1 <= m)%nat) by (apply Hm1; discriminate).
  assert (Hnb : bid nb = nextId w /\ shaped nb /\ hubsCount nb <= 20 /\
                startTime nb = now /\
                Forall (fun c => c == 0) (colors nb)).
  { split; [exact Hbid|]. split; [|split; [|split; [exact Hst|]]].
    - exists m. rewrite Hop, repeat_length. auto.
    - rewrite Hh. change 20 with (inject_Z 20). rewrite <- Zle_Qle. lia.
    - apply newBatch_colors. }
  destruct (connections w1).
  - exists n, [], [nb].
    cbn [connectionStates connectionStats initialSetupDone nextId scene].
    rewrite H1. unfold preTickStates.
    cbn [active fadingIn fadingOut pendingRemoval]. rewrite !app_nil_r.
    simpl. repeat split; auto; try (subst w1; simpl; lia); tauto.
  - exists n, [nb], [].
    cbn [connectionStates connectionStats initialSetupDone nextId scene].
    rewrite H1. unfold preTickStates.
    cbn [active fadingIn fadingOut pendingRemoval]. rewrite !app_nil_r.
    simpl. repeat split; auto; try (subst w1; simpl; lia); tauto.
Qed.

Lemma run_preserves sqrt sin (P : World -> Prop) :
  (forall f w, P w -> P (renderFrame sqrt sin f w)) ->
  forall fs w, P w -> P (run sqrt sin fs w).
Proof.
  intros Hstep fs. induction fs as [|f fs IH]; intros w Hw; [exact Hw|].
  rewrite run_cons. apply IH, Hstep, Hw.
Qed.

(** Where the batches found after a tick come from. *)
Lemma tick_batch_origin sin (tNow : Q) (cs : ConnectionStates) (b' : Batch) :
  In b' (all_batches (tickStates sin tNow cs)) ->
  (exists b, In b (fadingIn cs) /\ fadeInDone tNow b = false /\
             b' = fadeInStep tNow b) \/
  (exists b, In b (active cs) /\ b' = pulseStep sin tNow b) \/
  (exists b, In b (fadingIn cs) /\ fadeInDone tNow b = true /\
             b' = pulseStep sin tNow b) \/
  (exists b, In b (fadingOut cs) /\ fadeOutDone tNow b = false /\
             b' = fadeOutStep tNow b) \/
  (In b' (fadingOut cs) /\ fadeOutDone tNow b' = true).
Proof.
  rewrite tickStates_fields, fadingInLoop_spec, fadingOutLoop_spec.
  unfold all_batches. cbn [fst snd active fadingIn fadingOut pendingRemoval].
  rewrite !in_app_iff, !in_map_iff.
  intros [H | [H | [H | H]]].
  - destruct H as (b & <- & H). apply filter_In in H. destruct H as [H E].
    apply negb_true_iff in E. left. eauto.
  - destruct H as (b & <- & H). apply in_app_or in H.
    destruct H as [H | H]; [right; left; eauto|].
    apply filter_In in H. right; right; left. exists b. tauto.
  - destruct H as (b & <- & H). apply filter_In in H. destruct H as [H E].
    apply negb_true_iff in E. do 3 right. left. eauto.
  - apply filter_In in H. do 4 right. exact H.
Qed.

Lemma preTick_batch_origin (tNow : Q) (cs : ConnectionStates) (n : nat)
  (newA newFI : list Batch) (b' : Batch) :
  In b' (all_batches (preTickStates tNow cs n newA newFI)) ->
  In b' (all_batches cs) \/
  (exists b, In b (active cs) /\ b' = demote tNow b) \/
  In b' (newA ++ newFI).
Proof.
  unfold all_batches, preTickStates.
  cbn [active fadingIn fadingOut pendingRemoval].
  rewrite !in_app_iff, in_map_iff.
  pose proof (firstn_skipn n (active cs)) as E.
  assert (H1 : forall x, In x (firstn n (active cs)) -> In x (active cs)).
  { intros x Hx. rewrite <- E. apply in_or_app. now left. }
  assert (H2 : forall x, In x (skipn n (active cs)) -> In x (active cs)).
  { intros x Hx. rewrite <- E. apply in_or_app. now right. }
  intros [[H|H] | [[H|H] | [[H|H] | H]]].
  - tauto.
  - tauto.
  - apply H2 in H. tauto.
  - tauto.
  - tauto.
  - destruct H as (b & <- & H). right. left. exists b. auto.
  - tauto.
Qed.

Lemma setup_detail sqrt positions rnd (now : Q) :
  let w := createInitialConnections sqrt positions rnd now emptyWorld in
  connectionStats w = mkStats 0 0 0 0 /\
  initialSetupDone w = true /\
  nextConnectionUpdateTime w = 0 /\
  fadingIn (connectionStates w) = [] /\
  fadingOut (connectionStates w) = [] /\
  pendingRemoval (connectionStates w) = [] /\
  scene w = bids (active (connectionStates w)) /\
  (active (connectionStates w) = [] \/
   exists nb, active (connectionStates w) = [nb] /\
     shaped nb /\ hubsCount nb <= 300 /\ startTime nb = now /\
     state nb = SActive).
Proof.
  intro w. subst w.
  pose proof (newBatch_facts sqrt positions rnd emptyWorld now 1
                (Z.to_nat (numHubsToCreate 1 (Some INITIAL_CONNECTIONS))))
    as F. cbv zeta in F.
  assert (E300 : Z.to_nat (numHubsToCreate 1 (Some INITIAL_CONNECTIONS))
                 = 300%nat) by (vm_compute; reflexivity).
  unfold createInitialConnections, createConnections.
  rewrite E300 in F |- *.
  generalize dependent (hubLoop sqrt positions rnd 1 300 0).
  intros [[p c] o] F.
  destruct F as (m & Hm & Hm1 & Hbid & Hst & _ & Hstate & Hlp & Hlc & Hop & Hh).
  cbn [fst] in Hm1.
  destruct p as [|x p]; cbn.
  - do 7 (split; [reflexivity|]). now left.
  - do 7 (split; [reflexivity|]). right.
    exists (newBatch emptyWorld now 1 (x :: p, c, o)).
    split; [reflexivity|].
    specialize (Hm1 ltac:(discriminate)).
    split; [|split; [|split; [exact Hst | exact Hstate]]].
    + exists m. rewrite Hop, repeat_length. auto.
    + rewrite Hh. change 300 with (inject_Z 300). rewrite <- Zle_Qle.
      lia.
Qed.

(** ** Batches keep whole hubs *)

Lemma onSpokes_length (n : nat) (f : Q -> Q) (l : list Q) :
  length (onSpokes n f l) = length l.
Proof.
  unfold onSpokes. rewrite length_app, length_map, <- length_app.
  now rewrite firstn_skipn.
Qed.

Lemma pulseColors_length sin (tNow : Q) (n i : nat) (l : list Q) :
  length (pulseColors sin tNow n i l) = length l.
Proof.
  revert i l. induction n as [|n IH]; intros i l; [reflexivity|].
  cbn [pulseColors]. rewrite length_app, length_map, IH, <- length_app.
  now rewrite firstn_skipn.
Qed.

Lemma shaped_fadeInStep (tNow : Q) (b : Batch) :
  shaped b -> shaped (fadeInStep tNow b).
Proof.
  intros (h & H). exists h. unfold fadeInStep.
  cbn [setColors opacities colors linePositions hubsCount].
  now rewrite onSpokes_length.
Qed.

Lemma shaped_fadeOutStep (tNow : Q) (b : Batch) :
  shaped b -> shaped (fadeOutStep tNow b).
Proof.
  intros (h & H). exists h. unfold fadeOutStep.
  destruct (Qltb _ _);
    cbn [setVisible setColors opacities colors linePositions hubsCount];
    now rewrite onSpokes_length.
Qed.

Lemma shaped_pulseStep sin (tNow : Q) (b : Batch) :
  shaped b -> shaped (pulseStep sin tNow b).
Proof.
  intros (h & H). unfold pulseStep.
  destruct (opacities b) eqn:E; [exists h; now rewrite E|].
  exists h. cbn [setColors opacities colors linePositions hubsCount].
  now rewrite pulseColors_length, E.
Qed.

Lemma shaped_demote (tNow : Q) (b : Batch) : shaped b -> shaped (demote tNow b).
Proof. intros (h & H). exists h. exact H. Qed.

Lemma tick_Forall sin (tNow : Q) (P : Batch -> Prop) (cs : ConnectionStates) :
  (forall b, P b -> P (fadeInStep tNow b)) ->
  (forall b, P b -> P (fadeOutStep tNow b)) ->
  (forall b, P b -> P (pulseStep sin tNow b)) ->
  Forall P (all_batches cs) ->
  Forall P (all_batches (tickStates sin tNow cs)).
Proof.
  intros H1 H2 H3 HP. rewrite Forall_forall in *. intros b' Hb'.
  assert (Hin : forall b, In b (fadingIn cs) \/ In b (active cs) \/
                          In b (fadingOut cs) -> P b).
  { intros b Hb. apply HP. unfold all_batches. rewrite !in_app_iff. tauto. }
  destruct (tick_batch_origin sin tNow cs b' Hb')
    as [(b & Hb & _ & ->) | [(b & Hb & ->) | [(b & Hb & _ & ->) |
        [(b & Hb & _ & ->) | (Hb & _)]]]]; auto.
Qed.

Lemma frame_Forall sqrt sin (P : Batch -> Prop) (f : Frame) (w : World) :
  (forall t b, P b -> P (fadeInStep t b)) ->
  (forall t b, P b -> P (fadeOutStep t b)) ->
  (forall t b, P b -> P (pulseStep sin t b)) ->
  (forall t b, P b -> P (demote t b)) ->
  (forall b, shaped b -> hubsCount b <= 20 -> startTime b = f_now f -> P b) ->
  Forall P (all_batches (connectionStates w)) ->
  Forall P (all_batches (connectionStates (renderFrame sqrt sin f w))).
Proof.
  intros H1 H2 H3 H4 H5 HP. unfold renderFrame. rewrite render_preTick.
  destruct (preTick_detail sqrt (f_positions f) (f_rnd f) (f_tNow f)
              (f_now f) w)
    as (n & newA & newFI & Hcs & _ & _ & _ & _ & Hnew & _).
  unfold updateConnections. cbn [connectionStates].
  apply tick_Forall; auto. rewrite Hcs.
  rewrite Forall_forall in *. intros b' Hb'.
  destruct (preTick_batch_origin _ _ _ _ _ _ Hb')
    as [Hb | [(b & Hb & ->) | Hb]]; auto.
  - apply H4, HP. unfold all_batches. rewrite !in_app_iff. tauto.
  - destruct (Hnew _ Hb) as (_ & Hs & Hh & Ht & _). auto.
Qed.

(** X1: from setup on, every batch in every bucket holds whole hubs: at
    least one hub, three opacities and eighteen colour and position values
    per hub, the hub count being the number of hubs; in particular every
    active batch counts at least one hub. *)
Theorem batches_hold_whole_hubs sqrt sin positions rnd (now : Q)
  (fs : list Frame) :
  let w := run sqrt sin fs
             (createInitialConnections sqrt positions rnd now emptyWorld) in
  Forall shaped (all_batches (connectionStates w)) /\
  Forall (fun b => 1 <= hubsCount b) (active (connectionStates w)).
Proof.
  intro w.
  assert (H : Forall shaped (all_batches (connectionStates w))).
  { subst w.
    apply (run_preserves sqrt sin
             (fun w => Forall shaped (all_batches (connectionStates w)))).
    - intros f w Hw. apply frame_Forall; auto using shaped_fadeInStep,
        shaped_fadeOutStep, shaped_pulseStep, shaped_demote.
    - destruct (setup_detail sqrt positions rnd now)
        as (_ & _ & _ & E1 & E2 & E3 & _ & Ha).
      unfold all_batches. rewrite E1, E2, E3.
      destruct Ha as [Ea | (nb & Ea & Hs & _)]; rewrite Ea; simpl;
        repeat constructor; auto. }
  split; [exact H|].
  rewrite Forall_forall in *. intros b Hb.
  destruct (H b) as (h & Hh & _ & _ & _ & E).
  - unfold all_batches. rewrite !in_app_iff. tauto.
  - rewrite E. change 1 with (inject_Z 1). rewrite <- Zle_Qle. lia.
Qed.

(** ** The live population stays under the target *)

Lemma sum_hubs_nil : sum_hubs [] == 0.
Proof. reflexivity. Qed.

Lemma sum_hubs_app (l1 l2 : list Batch) :
  sum_hubs (l1 ++ l2) == sum_hubs l1 + sum_hubs l2.
Proof.
  induction l1 as [|x l1 IH]; simpl.
  - rewrite sum_hubs_nil. ring.
  - rewrite !sum_hubs_cons, IH. ring.
Qed.

Lemma sum_hubs_map (f : Batch -> Batch) (l : list Batch) :
  (forall b, hubsCount (f b) = hubsCount b) ->
  sum_hubs (map f l) == sum_hubs l.
Proof.
  intro H. induction l as [|x l IH]; simpl; [reflexivity|].
  rewrite !sum_hubs_cons, IH, H. reflexivity.
Qed.

Lemma sum_hubs_filter (p : Batch -> bool) (l : list Batch) :
  sum_hubs (filter p l) + sum_hubs (filter (fun c => negb (p c)) l)
  == sum_hubs l.
Proof.
  induction l as [|x l IH]; simpl; [rewrite sum_hubs_nil; ring|].
  destruct (p x); simpl; rewrite !sum_hubs_cons, <- IH; ring.
Qed.

Lemma sum_hubs_nonneg (l : list Batch) :
  Forall shaped l -> 0 <= sum_hubs l.
Proof.
  induction 1 as [|x l (h & _ & _ & _ & _ & E) _ IH].
  - rewrite sum_hubs_nil. apply Qle_refl.
  - rewrite sum_hubs_cons, E.
    assert (0 <= inject_Z (Z.of_nat h)).
    { change 0 with (inject_Z 0). rewrite <- Zle_Qle. lia. }
    lra.
Qed.

Lemma hubsCount_fadeInStep (tNow : Q) (b : Batch) :
  hubsCount (fadeInStep tNow b) = hubsCount b.
Proof. reflexivity. Qed.

Lemma hubsCount_pulseStep sin (tNow : Q) (b : Batch) :
  hubsCount (pulseStep sin tNow b) = hubsCount b.
Proof. unfold pulseStep. destruct (opacities b); reflexivity. Qed.

Lemma tick_liveHubs sin (tNow : Q) (cs : ConnectionStates) :
  liveHubs (tickStates sin tNow cs) == liveHubs cs.
Proof.
  unfold liveHubs. rewrite tickStates_fields, fadingInLoop_spec.
  cbn [fst snd active fadingIn].
  rewrite (sum_hubs_map (pulseStep sin tNow))
    by apply hubsCount_pulseStep.
  rewrite (sum_hubs_map (fadeInStep tNow)) by apply hubsCount_fadeInStep.
  rewrite sum_hubs_app.
  rewrite <- (sum_hubs_filter (fadeInDone tNow) (fadingIn cs)).
  ring.
Qed.

Lemma tick_statsLive sin (tNow : Q) (w : World) :
  statsLive (updateConnections sin tNow w).
Proof.
  unfold statsLive, updateConnections, computeStats, liveHubs.
  cbn [connectionStats connectionStates stat_total stat_fadingOut]. ring.
Qed.

Lemma preTick_liveHubs (tNow : Q) (cs : ConnectionStates) (n : nat)
  (newA newFI : list Batch) :
  Forall shaped (active cs) ->
  liveHubs (preTickStates tNow cs n newA newFI)
  <= liveHubs cs + sum_hubs (newA ++ newFI).
Proof.
  intro Hs. unfold liveHubs, preTickStates. cbn [active fadingIn].
  rewrite !sum_hubs_app.
  rewrite <- (firstn_skipn n (active cs)) in Hs. apply Forall_app in Hs.
  pose proof (sum_hubs_nonneg _ (proj1 Hs)) as H0.
  rewrite <- (firstn_skipn n (active cs)) at 2. rewrite sum_hubs_app.
  lra.
Qed.

(** The invariant behind the bound: the statistics are those of the
    buckets, or (right after setup) there is room for one more build. *)
Lemma frame_live_invariant sqrt sin (f : Frame) (w : World) :
  Forall shaped (all_batches (connectionStates w)) ->
  liveHubs (connectionStates w) < TARGET_CONNECTIONS ->
  statsLive w \/ liveHubs (connectionStates w) + 20 < TARGET_CONNECTIONS ->
  liveHubs (connectionStates (renderFrame sqrt sin f w))
    < TARGET_CONNECTIONS /\
  statsLive (renderFrame sqrt sin f w).
Proof.
  intros Hs Hlive Hst. unfold renderFrame. rewrite render_preTick.
  split; [|apply tick_statsLive].
  destruct (preTick_detail sqrt (f_positions f) (f_rnd f) (f_tNow f)
              (f_now f) w)
    as (n & newA & newFI & Hcs & _ & _ & _ & Hlen & Hnew & Hcond & _).
  unfold updateConnections. cbn [connectionStates].
  rewrite tick_liveHubs, Hcs.
  assert (HsA : Forall shaped (active (connectionStates w))).
  { unfold all_batches in Hs. rewrite !Forall_app in Hs. tauto. }
  pose proof (preTick_liveHubs (f_tNow f) (connectionStates w) n newA newFI
                HsA) as Hle.
  destruct (newA ++ newFI) as [|nb [|nb2 l]] eqn:E; simpl in Hlen; [| |lia].
  - rewrite sum_hubs_nil in Hle. lra.
  - inversion Hnew as [|? ? (_ & _ & H20 & _ & _) _]; subst.
    rewrite sum_hubs_cons, sum_hubs_nil in Hle.
    specialize (Hcond ltac:(discriminate)).
    destruct Hst as [Hst | Hst]; [unfold statsLive in Hst; lra | lra].
Qed.

(** X2: along any run from setup the hubs of the live buckets (active and
    fadingIn together) stay below TARGET_CONNECTIONS: a build adds at most
    20 hubs and only when the live count is below TARGET_CONNECTIONS - 20
    (or, in the first cycle, when the initial build left at most 300). *)
Theorem live_population_below_target sqrt sin positions rnd (now : Q)
  (fs : list Frame) :
  let w := run sqrt sin fs
             (createInitialConnections sqrt positions rnd now emptyWorld) in
  sum_hubs (active (connectionStates w))
  + sum_hubs (fadingIn (connectionStates w)) < TARGET_CONNECTIONS.
Proof.
  intro w. subst w.
  apply (run_preserves sqrt sin
           (fun w => Forall shaped (all_batches (connectionStates w)) /\
                     liveHubs (connectionStates w) < TARGET_CONNECTIONS /\
                     (statsLive w \/
                      liveHubs (connectionStates w) + 20
                      < TARGET_CONNECTIONS))).
  - intros f w (Hs & Hl & Hst).
    destruct (frame_live_invariant sqrt sin f w Hs Hl Hst) as [H1 H2].
    split; [|auto].
    apply frame_Forall; auto using shaped_fadeInStep, shaped_fadeOutStep,
      shaped_pulseStep, shaped_demote.
  - destruct (setup_detail sqrt positions rnd now)
      as (_ & _ & _ & E1 & E2 & E3 & _ & Ha).
    unfold all_batches, liveHubs. rewrite E1, E2, E3.
    destruct Ha as [Ea | (nb & Ea & Hs & Hh & _)]; rewrite Ea; simpl.
    + rewrite sum_hubs_nil. unfold TARGET_CONNECTIONS.
      split; [constructor|]. split; [lra | right; lra].
    + rewrite sum_hubs_cons, !sum_hubs_nil. unfold TARGET_CONNECTIONS.
      split; [repeat constructor; auto|]. split; [lra | right; lra].
Qed.

(** ** The scene holds the lines of the batches in the buckets *)

Lemma detachAll_spec (l : list Batch) (s : list nat) (i : nat) :
  In i (detachAll l s) <-> In i s /\ ~ In i (bids l).
Proof.
  revert s. induction l as [|x l IH]; intro s.
  - simpl. tauto.
  - rewrite detachAll_cons, IH. simpl.
    destruct (has_parent (bid x) s) eqn:E.
    + rewrite scene_remove_in. intuition congruence.
    + assert (~ In (bid x) s).
      { intro H. apply has_parent_In in H. congruence. }
      intuition congruence.
Qed.

Lemma detachAll_NoDup (l : list Batch) (s : list nat) :
  NoDup s -> NoDup (detachAll l s).
Proof.
  revert s. induction l as [|x l IH]; intros s H; [exact H|].
  rewrite detachAll_cons. apply IH.
  destruct (has_parent (bid x) s); [|exact H].
  now apply NoDup_filter.
Qed.

Lemma scene_add_spec (i j : nat) (s : list nat) :
  In i (scene_add j s) <-> In i s \/ i = j.
Proof.
  unfold scene_add. rewrite in_app_iff, scene_remove_in. simpl.
  destruct (Nat.eq_dec i j); intuition.
Qed.

Lemma scene_add_NoDup (j : nat) (s : list nat) :
  NoDup s -> NoDup (scene_add j s).
Proof.
  intro H. unfold scene_add. apply NoDup_app.
  - now apply NoDup_filter.
  - repeat constructor. simpl. tauto.
  - intros a Ha [<- | []]. apply scene_remove_in in Ha. tauto.
Qed.

Lemma frame_sceneTracks sqrt sin (f : Frame) (w : World) :
  wfWorld w -> sceneTracks w ->
  sceneTracks (renderFrame sqrt sin f w).
Proof.
  intros [Hnd Hlt] [Hsn Hsc]. unfold renderFrame. rewrite render_preTick.
  destruct (preTick_detail sqrt (f_positions f) (f_rnd f) (f_tNow f)
              (f_now f) w)
    as (n & newA & newFI & Hcs & _ & _ & _ & Hlen & Hnew & _ & Hscene).
  set (w1 := preTick sqrt (f_positions f) (f_rnd f) (f_tNow f) (f_now f) w)
    in *.
  pose proof (preTickStates_all_bids (f_tNow f) (connectionStates w) n
                newA newFI) as P.
  rewrite <- Hcs in P.
  assert (Hnew' : forall i, In i (bids (newA ++ newFI)) -> i = nextId w).
  { intros i Hi. apply in_map_iff in Hi. destruct Hi as (b & <- & Hb).
    rewrite Forall_forall in Hnew. now apply Hnew. }
  assert (Hnd1 : NoDup (bids (all_batches (connectionStates w1)))).
  { eapply Permutation_NoDup; [apply Permutation_sym, P|].
    apply NoDup_app; [exact Hnd | |].
    - destruct (newA ++ newFI) as [|x [|y l]]; simpl in *;
        [constructor | repeat constructor; auto | lia].
    - intros i Hi Hi'. rewrite Forall_forall in Hlt.
      apply Hlt in Hi. apply Hnew' in Hi'. lia. }
  assert (Hsc1 : forall i, In i (scene w1) <->
                   In i (bids (all_batches (connectionStates w1)))).
  { intro i. split.
    - intro Hi. apply (Permutation_in _ (Permutation_sym P)).
      apply in_or_app. rewrite Hscene in Hi.
      destruct (newA ++ newFI) as [|x l] eqn:E; simpl in Hi.
      + left. now apply Hsc.
      + apply scene_add_spec in Hi. destruct Hi as [Hi | ->].
        * left. now apply Hsc.
        * right. simpl. left.
          inversion Hnew as [|? ? (Hb & _) _]. exact Hb.
    - intro Hi. apply (Permutation_in _ P) in Hi.
      apply in_app_or in Hi. rewrite Hscene.
      destruct (newA ++ newFI) as [|x l] eqn:E; simpl.
      + destruct Hi as [Hi | []]. now apply Hsc.
      + apply scene_add_spec. destruct Hi as [Hi | Hi].
        * left. now apply Hsc.
        * right. apply Hnew'. exact Hi. }
  assert (Hsn1 : NoDup (scene w1)).
  { rewrite Hscene. destruct (length (newA ++ newFI) =? 0)%nat;
      [exact Hsn | now apply scene_add_NoDup]. }
  clearbody w1. clear - Hnd1 Hsc1 Hsn1.
  unfold sceneTracks, updateConnections. cbn [scene connectionStates].
  split; [now apply detachAll_NoDup|].
  intro i. rewrite detachAll_spec, Hsc1.
  pose proof (tick_all_bids sin (f_tNow f) (connectionStates w1)) as T.
  unfold all_batches in Hnd1 |- * at 1. rewrite !bids_app in Hnd1 |- *.
  rewrite !app_assoc in Hnd1. apply NoDup_app_disjoint in Hnd1.
  destruct Hnd1 as [_ Hd]. rewrite <- !app_assoc in Hd.
  split.
  - intros [Hi Hn]. apply (Permutation_in _ (Permutation_sym T)).
    rewrite !in_app_iff in *. tauto.
  - intro Hi. apply (Permutation_in _ T) in Hi.
    split; [rewrite !in_app_iff in *; tauto|].
    now apply Hd.
Qed.

(** X3: along any run from setup the scene holds exactly the lines of the
    batches that sit in the four buckets, each once: nothing stays attached
    after its batch has been dropped, and no tracked batch is detached. *)
Theorem scene_tracks_buckets sqrt sin positions rnd (now : Q)
  (fs : list Frame) :
  let w := run sqrt sin fs
             (createInitialConnections sqrt positions rnd now emptyWorld) in
  NoDup (scene w) /\
  forall i, In i (scene w) <-> In i (bids (all_batches (connectionStates w))).
Proof.
  intro w. subst w.
  apply (run_preserves sqrt sin (fun w => wfWorld w /\ sceneTracks w)).
  - intros f w [Hwf Hs]. split.
    + apply frame_wf, Hwf.
    + now apply frame_sceneTracks.
  - split; [apply setup_wf|].
    destruct (setup_detail sqrt positions rnd now)
      as (_ & _ & _ & E1 & E2 & E3 & Es & Ha).
    unfold sceneTracks, all_batches. rewrite E1, E2, E3, Es.
    destruct Ha as [Ea | (nb & Ea & _)]; rewrite Ea; simpl;
      (split; [repeat constructor; simpl; tauto | tauto]).
Qed.

(** ** What the normal branch demotes *)

Lemma normal_branch_idle (tNow total : Q) (cs : ConnectionStates) :
  total <= MAX_TOTAL_CONNECTIONS ->
  (activeLength cs <= minActiveToKeep)%Z ->
  balanceDemote tNow total cs = cs.
Proof.
  intros Hmax Hlen. apply Qgtb_le in Hmax.
  unfold balanceDemote. rewrite Hmax.
  destruct (Z.ltb_spec 0 (activeLength cs)) as [Hpos|]; [|reflexivity].
  pose proof (numToFadeOut_bounds cs Hpos) as B.
  unfold actualFadeOut.
  destruct (Z.ltb_spec (activeLength cs - numToFadeOut cs) minActiveToKeep);
    [|lia].
  destruct (Z.ltb_spec 0 (activeLength cs - minActiveToKeep)); [lia|].
  reflexivity.
Qed.

(** X4: in the normal branch (total not above MAX_TOTAL_CONNECTIONS) the
    balancer demotes nothing while there are at most 240 active batches,
    whatever their hub counts; with more, it leaves max(240, n - k) of the
    n active batches, k = max(1, ceil(0.05 * n)), and appends the others,
    taken from the front, to fadingOut. *)
Theorem normal_branch_demotion (tNow total : Q) (cs : ConnectionStates) :
  total <= MAX_TOTAL_CONNECTIONS ->
  let cs' := balanceDemote tNow total cs in
  ((activeLength cs <= minActiveToKeep)%Z -> cs' = cs) /\
  ((minActiveToKeep < activeLength cs)%Z ->
   activeLength cs'
     = Z.max minActiveToKeep (activeLength cs - numToFadeOut cs) /\
   exists n : nat,
     Z.of_nat n = (activeLength cs - activeLength cs')%Z /\
     active cs' = skipn n (active cs) /\
     fadingOut cs'
       = fadingOut cs ++ map (demote tNow) (firstn n (active cs))).
Proof.
  intros Hmax cs'. split; [now apply normal_branch_idle|].
  intro Hlen. subst cs'. apply Qgtb_le in Hmax.
  unfold balanceDemote. rewrite Hmax.
  assert (Hpos : (0 < activeLength cs)%Z)
    by (rewrite minActiveToKeep_value in Hlen; lia).
  pose proof (numToFadeOut_bounds cs Hpos) as B.
  destruct (Z.ltb_spec 0 (activeLength cs)); [|lia].
  assert (Hact : (0 < actualFadeOut cs <= activeLength cs - minActiveToKeep)%Z
                 /\ (activeLength cs - actualFadeOut cs
                     = Z.max minActiveToKeep
                         (activeLength cs - numToFadeOut cs))%Z).
  { unfold actualFadeOut.
    destruct (Z.ltb_spec (activeLength cs - numToFadeOut cs) minActiveToKeep);
      lia. }
  destruct Hact as [Ha Hm].
  destruct (Z.ltb_spec 0 (actualFadeOut cs)); [|lia].
  rewrite demoteLoop_shape. unfold activeLength in *.
  cbn [active fadingOut]. rewrite length_skipn.
  split; [lia|].
  exists (Z.to_nat (actualFadeOut cs)). repeat split; auto. lia.
Qed.

Lemma normal_branch_demotion_witness :
  activeLength (balanceDemote 10 250 (connectionStates steadyWorld)) = 240%Z.
Proof.
  destruct (normal_branch_demotion 10 250 (connectionStates steadyWorld))
    as [_ H].
  - unfold MAX_TOTAL_CONNECTIONS. lra.
  - destruct H as [E _]; [vm_compute; reflexivity|].
    rewrite E. vm_compute. reflexivity.
Defined.

(** ** The first cycle after setup *)

(** X5: the statistics are still zero when the first balancing cycle
    runs, so however many hubs the initial build made, that cycle demotes
    nothing and asks the builder for 20 hubs; and the first rendered frame
    at a time of 0 or later does run it. *)
Theorem first_cycle_after_setup sqrt sin positions rnd (now : Q)
  positions' rnd' (tNow now' : Q) :
  let w0 := createInitialConnections sqrt positions rnd now emptyWorld in
  let w1 := setStates w0 (add64 tNow SMALL_BATCH_INTERVAL) (connectionStates w0) in
  balance sqrt positions' rnd' tNow now' w0
    = createConnections sqrt positions' rnd' now' CONNECTION_REFRESH_RATE
        (Some 20%Z) w1 /\
  (0 <= tNow ->
   render sqrt sin positions' rnd' tNow now' w0
   = updateConnections sin tNow
       (createConnections sqrt positions' rnd' now' CONNECTION_REFRESH_RATE
          (Some 20%Z) w1)).
Proof.
  intros w0 w1.
  destruct (setup_detail sqrt positions rnd now)
    as (Hst & Hini & Hnext & _ & _ & _ & _ & Ha).
  fold w0 in Hst, Hini, Hnext, Ha.
  assert (Hb : balance sqrt positions' rnd' tNow now' w0
               = createConnections sqrt positions' rnd' now'
                   CONNECTION_REFRESH_RATE (Some 20%Z) w1).
  { unfold balance. rewrite Hst. cbn [stat_total].
    rewrite normal_branch_idle.
    - reflexivity.
    - unfold MAX_TOTAL_CONNECTIONS. lra.
    - unfold activeLength. rewrite minActiveToKeep_value.
      destruct Ha as [-> | (nb & -> & _)]; simpl; lia. }
  split; [exact Hb|].
  intro Ht. unfold render. rewrite Hini, Hnext.
  assert (E : Qgeb tNow 0 = true) by (apply Qle_bool_iff; exact Ht).
  rewrite E. cbn [andb]. now rewrite Hb.
Qed.

Lemma first_cycle_after_setup_witness :
  nextId (render sqrtQ sinPoly samplePositions rndSameNeighbor 1 (101 # 100)
            noHubWorld) = 1%nat.
Proof.
  destruct (first_cycle_after_setup sqrtQ sinPoly samplePositions
              (fun _ => 0) 0 samplePositions rndSameNeighbor 1 (101 # 100))
    as [_ H].
  unfold noHubWorld. rewrite H by (unfold Qle; simpl; lia).
  vm_compute. reflexivity.
Defined.

(** ** Between two balancing cycles *)

Lemma render_quiet sqrt sin positions rnd (tNow now : Q) (w : World) :
  tNow < nextConnectionUpdateTime w ->
  render sqrt sin positions rnd tNow now w = updateConnections sin tNow w.
Proof.
  intro H. unfold render.
  assert (E : Qgeb tNow (nextConnectionUpdateTime w) = false).
  { unfold Qgeb. destruct (Qle_bool _ _) eqn:E; [|reflexivity].
    apply Qle_bool_iff in E. exfalso. exact (Qlt_not_le _ _ H E). }
  rewrite E, andb_false_r. reflexivity.
Qed.

Lemma run_quiet sqrt sin (fs : list Frame) (w : World) :
  Forall (fun f => f_tNow f < nextConnectionUpdateTime w) fs ->
  run sqrt sin fs w = tickOnly sin fs w /\
  nextId (run sqrt sin fs w) = nextId w.
Proof.
  revert w. induction fs as [|f fs IH]; intros w H; [now split|].
  inversion H as [|? ? Hf Hfs]; subst.
  rewrite run_cons. unfold renderFrame. rewrite render_quiet by exact Hf.
  apply (IH (updateConnections sin (f_tNow f) w)). exact Hfs.
Qed.

Lemma balance_next sqrt positions rnd (tNow now : Q) (w : World) :
  nextConnectionUpdateTime (balance sqrt positions rnd tNow now w)
  = add64 tNow SMALL_BATCH_INTERVAL.
Proof.
  unfold balance.
  destruct (connectionsToAdd (connectionStats w)) as [c|]; [|reflexivity].
  destruct (0 <? c)%Z; [|reflexivity].
  rewrite (createConnections_partial sqrt positions rnd now
             CONNECTION_REFRESH_RATE (Some c) _ eq_refl).
  destruct (fst (fst _)); [reflexivity|].
  destruct (connections _); reflexivity.
Qed.

Lemma render_cycle sqrt sin positions rnd (tNow now : Q) (w : World) :
  initialSetupDone w = true ->
  nextConnectionUpdateTime w <= tNow ->
  nextConnectionUpdateTime (render sqrt sin positions rnd tNow now w)
  = add64 tNow SMALL_BATCH_INTERVAL /\
  initialSetupDone (render sqrt sin positions rnd tNow now w) = true.
Proof.
  intros Hini Hnext. split.
  - unfold render. rewrite Hini.
    assert (Eg : Qgeb tNow (nextConnectionUpdateTime w) = true)
      by (apply Qle_bool_iff; exact Hnext).
    rewrite Eg. cbn [andb updateConnections nextConnectionUpdateTime].
    apply balance_next.
  - rewrite render_preTick.
    destruct (preTick_detail sqrt positions rnd tNow now w)
      as (n & newA & newFI & _ & _ & Ei & _).
    cbv zeta in Ei. unfold updateConnections. cbn [initialSetupDone].
    now rewrite Ei.
Qed.

(** X6: a frame that runs the balancing cycle at time tNow schedules the
    next one at the double nearest to tNow + SMALL_BATCH_INTERVAL; the
    frames rendered before that stored time only tick: they demote
    nothing and build nothing; a frame at that stored time or later runs
    the cycle again. *)
Theorem one_cycle_per_interval sqrt sin positions rnd (tNow now : Q)
  (fs : list Frame) (w : World) :
  initialSetupDone w = true ->
  nextConnectionUpdateTime w <= tNow ->
  Forall (fun f => f_tNow f < add64 tNow SMALL_BATCH_INTERVAL) fs ->
  let w' := render sqrt sin positions rnd tNow now w in
  nextConnectionUpdateTime w' = add64 tNow SMALL_BATCH_INTERVAL /\
  run sqrt sin fs w' = tickOnly sin fs w' /\
  nextId (run sqrt sin fs w') = nextId w' /\
  forall f, add64 tNow SMALL_BATCH_INTERVAL <= f_tNow f ->
    nextConnectionUpdateTime (renderFrame sqrt sin f w')
    = add64 (f_tNow f) SMALL_BATCH_INTERVAL.
Proof.
  intros Hini Hnext Hfs w'.
  destruct (render_cycle sqrt sin positions rnd tNow now w Hini Hnext)
    as [E Ei].
  fold w' in E, Ei.
  split; [exact E|].
  destruct (run_quiet sqrt sin fs w') as [R1 R2]; [now rewrite E|].
  split; [exact R1|]. split; [exact R2|].
  intros f Hf. unfold renderFrame.
  apply render_cycle; [exact Ei | now rewrite E].
Qed.

(** A cycle run at the double after 1: the stored time of the next cycle
    is the double 2, the frames at 1.5 and 1.9 only tick, and a frame at
    time 2 runs the cycle. *)
Lemma one_cycle_per_interval_witness :
  let t := 4503599627370497 # 2 ^ 52 in
  let w' := render sqrtQ sinPoly samplePositions rndSameNeighbor t t
              mixedWorld in
  2 < t + SMALL_BATCH_INTERVAL /\
  nextConnectionUpdateTime w' == 2 /\
  nextId (run sqrtQ sinPoly quietFrames w') = nextId w' /\
  nextConnectionUpdateTime
    (renderFrame sqrtQ sinPoly
       (mkFrame samplePositions rndThreeNeighbors 2 2) w')
  = add64 2 SMALL_BATCH_INTERVAL.
Proof.
  intros t w'.
  destruct (one_cycle_per_interval sqrtQ sinPoly samplePositions
              rndSameNeighbor t t quietFrames mixedWorld)
    as (E & _ & N & C).
  - reflexivity.
  - discriminate.
  - repeat constructor.
  - split; [reflexivity|]. split; [|split].
    + unfold w'. rewrite E. vm_compute. reflexivity.
    + exact N.
    + apply (C (mkFrame samplePositions rndThreeNeighbors 2 2)).
      vm_compute. discriminate.
Defined.

(** ** The end of a fade-in *)

(** X10: a batch of fadingIn is moved to active by a tick whose computed
    elapsed time (the double nearest to tNow - startTime) exceeds
    FADE_IN_DURATION, which is the case whenever tNow is later than
    startTime + FADE_IN_DURATION + 2^-54; that tick pulses it at once, and
    it is then in active and in no other bucket.  While the computed
    elapsed time is at most FADE_IN_DURATION the batch stays in fadingIn. *)
Theorem fade_in_completion sin (tNow : Q) (w : World) (b : Batch) :
  wfWorld w ->
  In b (fadingIn (connectionStates w)) ->
  let cs' := connectionStates (updateConnections sin tNow w) in
  (startTime b + FADE_IN_DURATION + pow2 (-54) < tNow ->
   FADE_IN_DURATION < elapsedAt tNow b) /\
  (FADE_IN_DURATION < elapsedAt tNow b ->
   In (pulseStep sin tNow b) (active cs') /\
   ~ In (bid b) (bids (fadingIn cs')) /\
   rank cs' (bid b) = 1%nat) /\
  (elapsedAt tNow b <= FADE_IN_DURATION ->
   In (fadeInStep tNow b) (fadingIn cs') /\
   rank cs' (bid b) = 0%nat).
Proof.
  intros [Hnd _] Hb cs'. subst cs'.
  split; [apply sub64_gt_fade_in|].
  unfold all_batches in Hnd. rewrite bids_app in Hnd.
  apply NoDup_app_remove_r in Hnd.
  unfold updateConnections. cbn [connectionStates].
  destruct (tick_bids sin tNow (connectionStates w)) as (E1 & _).
  cbv zeta in E1.
  split.
  - intro Ht.
    assert (Hdone : fadeInDone tNow b = true) by (apply Qgtb_gt; exact Ht).
    assert (HA : In (pulseStep sin tNow b)
                   (active (tickStates sin tNow (connectionStates w)))).
    { rewrite tickStates_fields, fadingInLoop_spec. cbn [fst snd active].
      apply in_map, in_or_app. right. apply filter_In. auto. }
    assert (HF : ~ In (bid b)
                   (bids (fadingIn (tickStates sin tNow
                                      (connectionStates w))))).
    { rewrite E1. intro H. apply in_map_iff in H. destruct H as (b2 & E & H).
      apply filter_In in H. destruct H as [H Hn].
      assert (b2 = b) by (eapply NoDup_bids_inj; eauto). subst b2.
      rewrite Hdone in Hn. discriminate. }
    split; [exact HA|]. split; [exact HF|].
    assert (HA' : In (bid b)
                    (bids (active (tickStates sin tNow
                                     (connectionStates w))))).
    { rewrite <- (bid_pulseStep sin tNow b). now apply in_map. }
    destruct (rank_spec (tickStates sin tNow (connectionStates w)) (bid b))
      as [(?&?)|[(?&?&?)|[(?&?&?&?)|[(?&?&?&?&?)|(?&?&?&?&?)]]]];
      tauto.
  - intro Ht.
    assert (Hdone : fadeInDone tNow b = false) by (apply Qgtb_le; exact Ht).
    assert (HI : In (fadeInStep tNow b)
                   (fadingIn (tickStates sin tNow (connectionStates w)))).
    { rewrite tickStates_fields, fadingInLoop_spec. cbn [fst snd fadingIn].
      apply in_map, filter_In. split; [exact Hb|]. now rewrite Hdone. }
    split; [exact HI|].
    assert (HI' : In (bid b)
                    (bids (fadingIn (tickStates sin tNow
                                       (connectionStates w))))).
    { rewrite <- (bid_fadeInStep tNow b). now apply in_map. }
    destruct (rank_spec (tickStates sin tNow (connectionStates w)) (bid b))
      as [(?&?)|[(?&?&?)|[(?&?&?&?)|[(?&?&?&?&?)|(?&?&?&?&?)]]]];
      tauto.
Qed.

Lemma fade_in_completion_witness :
  rank (connectionStates (updateConnections sinPoly 5 mixedWorld)) 1 = 1%nat.
Proof.
  destruct (fade_in_completion sinPoly 5 mixedWorld
              (sampleBatch 1 1 (1 # 100) SFadingIn 4) mixedWorld_wf)
    as (H1 & H2 & _).
  - simpl. auto.
  - exact (proj2 (proj2 (H2 (H1 ltac:(vm_compute; reflexivity))))).
Defined.

(** A batch that entered fadingIn at the double 0.01 and is ticked at the
    double 0.76: the exact difference is above 0.75, the computed one is
    the double 0.75, and the batch stays in fadingIn. *)
Lemma fade_in_waits_for_rounding :
  let t0 := 5764607523034235 # 2 ^ 59 in
  let t := 3422735716801577 # 2 ^ 52 in
  let b := sampleBatch 0 1 (1 # 100) SFadingIn t0 in
  let w := worldOf (mkStates [] [b] [] []) 1 in
  let w' := updateConnections sinPoly t w in
  t0 + FADE_IN_DURATION < t /\
  elapsedAt t b == FADE_IN_DURATION /\
  active (connectionStates w') = [] /\
  rank (connectionStates w') 0 = 0%nat.
Proof. vm_compute. repeat split; reflexivity. Qed.

(** ** Visibility during the fade-out *)

Lemma cube_bounds (a lo hi : Q) :
  0 <= lo -> lo <= a -> a <= hi ->
  lo * lo * lo <= cube a /\ cube a <= hi * hi * hi.
Proof.
  intros H0 H1 H2. unfold cube.
  assert (E : a ^ 3 == a * a * a) by (simpl; ring). rewrite E.
  assert (Ha : 0 <= a) by lra.
  pose proof (Qmult_le_0_compat (a - lo) (a + lo)) as P1.
  pose proof (Qmult_le_0_compat (a * a - lo * lo) a) as P2.
  pose proof (Qmult_le_0_compat (lo * lo) (a - lo)) as P3.
  pose proof (Qmult_le_0_compat lo lo H0 H0) as P4.
  pose proof (Qmult_le_0_compat (hi - a) (hi + a)) as P5.
  pose proof (Qmult_le_0_compat (hi * hi - a * a) a) as P6.
  pose proof (Qmult_le_0_compat (hi * hi) (hi - a)) as P7.
  pose proof (Qmult_le_0_compat hi hi) as P8.
  assert (Q1 : 0 <= (a - lo) * (a + lo)) by (apply P1; lra).
  assert (Q5 : 0 <= (hi - a) * (hi + a)) by (apply P5; lra).
  assert (Q8 : 0 <= hi * hi) by (apply P8; lra).
  assert (Q2 : 0 <= (a * a - lo * lo) * a) by (apply P2; lra).
  assert (Q3 : 0 <= lo * lo * (a - lo)) by (apply P3; lra).
  assert (Q6 : 0 <= (hi * hi - a * a) * a) by (apply P6; lra).
  assert (Q7 : 0 <= hi * hi * (hi - a)) by (apply P7; lra).
  split; lra.
Qed.

Lemma fadeOutFactor_cube (tNow : Q) (b : Batch) :
  fadeOutFactor tNow b
  == cube (1 - elapsedAt tNow b / FADE_OUT_DURATION).
Proof. unfold fadeOutFactor, elapsedAt. ring. Qed.

Lemma elapsedAt_bounds (tNow lo hi : Q) (b : Batch) :
  lo <= tNow - startTime b -> tNow - startTime b <= hi ->
  fl64 lo <= elapsedAt tNow b <= fl64 hi.
Proof.
  intros L H. unfold elapsedAt, sub64. split; now apply fl64_mono.
Qed.

Lemma tick_keeps_fading_out sin (tNow : Q) (w : World) (b : Batch) :
  In b (fadingOut (connectionStates w)) ->
  tNow - startTime b <= FADE_OUT_DURATION ->
  In (fadeOutStep tNow b)
    (fadingOut (connectionStates (updateConnections sin tNow w))).
Proof.
  intros Hb He. unfold updateConnections. cbn [connectionStates].
  rewrite tickStates_fields, fadingOutLoop_spec. cbn [fst fadingOut].
  apply in_map, filter_In. split; [exact Hb|].
  apply negb_true_iff, Qgtb_le. now apply sub64_le_fade_out.
Qed.

(** X9: a batch that stays in fadingOut keeps its visibility during the
    first 0.8 s of the fade and is hidden by any tick from 0.81 s on (the
    fade factor (1 - elapsed / 1.5) ^ 3 is then under 0.1), so the last
    part of the 1.5 s fade is not drawn; no tick makes a fading-out batch
    visible again. *)
Theorem fade_out_hides_batch sin (tNow : Q) (w : World) (b : Batch) :
  In b (fadingOut (connectionStates w)) ->
  0 <= tNow - startTime b ->
  tNow - startTime b <= FADE_OUT_DURATION ->
  In (fadeOutStep tNow b)
    (fadingOut (connectionStates (updateConnections sin tNow w))) /\
  (tNow - startTime b <= 8 # 10 ->
   visible (fadeOutStep tNow b) = visible b) /\
  (81 # 100 <= tNow - startTime b -> visible (fadeOutStep tNow b) = false) /\
  (visible b = false -> visible (fadeOutStep tNow b) = false).
Proof.
  intros Hb H0 H1. split; [now apply tick_keeps_fading_out|].
  pose proof (fadeOutFactor_cube tNow b) as Ef.
  destruct (elapsedAt_bounds tNow 0 FADE_OUT_DURATION b H0 H1) as [E0 E1].
  rewrite (fl64_zero 0) in E0 by reflexivity. rewrite fl64_FADE_OUT in E1.
  set (e := elapsedAt tNow b) in *.
  assert (Ea : 1 - e / FADE_OUT_DURATION == 1 - e * (2 # 3))
    by (unfold FADE_OUT_DURATION; field).
  unfold FADE_OUT_DURATION in E1.
  unfold fadeOutStep. split; [|split].
  - intro H2.
    destruct (elapsedAt_bounds tNow 0 (8 # 10) b H0 H2) as [_ E2].
    fold e in E2.
    assert (C : fl64 (8 # 10) <= 8025 # 10000) by (vm_compute; discriminate).
    destruct (cube_bounds (1 - e / FADE_OUT_DURATION) (465 # 1000) 1)
      as [Hlo _]; [lra | rewrite Ea; lra | rewrite Ea; lra |].
    assert (E : Qltb (fadeOutFactor tNow b) (1 # 10) = false).
    { apply Qltb_ge. rewrite Ef. eapply Qle_trans; [|exact Hlo].
      unfold Qle. simpl. lia. }
    rewrite E. reflexivity.
  - intro H2.
    destruct (elapsedAt_bounds tNow (81 # 100) FADE_OUT_DURATION b H2 H1)
      as [E2 _].
    fold e in E2.
    assert (C : 8085 # 10000 <= fl64 (81 # 100)) by (vm_compute; discriminate).
    destruct (cube_bounds (1 - e / FADE_OUT_DURATION) 0 (461 # 1000))
      as [_ Hhi]; [lra | rewrite Ea; lra | rewrite Ea; lra |].
    assert (E : Qltb (fadeOutFactor tNow b) (1 # 10) = true).
    { apply Qltb_lt. rewrite Ef. eapply Qle_lt_trans; [exact Hhi|].
      reflexivity. }
    rewrite E. reflexivity.
  - intro Hv. destruct (Qltb _ _); [reflexivity | exact Hv].
Qed.

Lemma fade_out_hides_batch_witness :
  visible (fadeOutStep 4 (sampleBatch 2 1 (3 # 10) SFadingOut 3)) = false.
Proof.
  destruct (fade_out_hides_batch sinPoly 4 mixedWorld
              (sampleBatch 2 1 (3 # 10) SFadingOut 3)) as (_ & _ & H & _).
  - simpl. auto.
  - discriminate.
  - discriminate.
  - apply H. discriminate.
Defined.

(** ** Colour values during the fades *)

Lemma onSpokes_all (n : nat) (f : Q -> Q) (l : list Q) :
  (length l <= 6 * n)%nat -> onSpokes n f l = map f l.
Proof.
  intro H. unfold onSpokes.
  rewrite firstn_all2, skipn_all2 by exact H. apply app_nil_r.
Qed.

Lemma onSpokes_Forall (P : Q -> Prop) (n : nat) (f : Q -> Q) (l : list Q) :
  (forall c, P c -> P (f c)) -> Forall P l -> Forall P (onSpokes n f l).
Proof.
  intros Hf Hl. unfold onSpokes.
  rewrite <- (firstn_skipn (6 * n) l) in Hl. apply Forall_app in Hl.
  apply Forall_app. split; [|tauto].
  destruct Hl as [Hl _]. induction Hl; simpl; constructor; auto.
Qed.

Lemma pulseColors_Forall sin (P : Q -> Prop) (tNow : Q) (n i : nat)
  (l : list Q) :
  (forall x c, P c ->
     P (c * (95 # 100) + (5 # 100) * ((5 # 10) + (2 # 10) * sin x))) ->
  Forall P l -> Forall P (pulseColors sin tNow n i l).
Proof.
  intro Hf. revert i l. induction n as [|n IH]; intros i l Hl; [exact Hl|].
  cbn [pulseColors].
  rewrite <- (firstn_skipn 6 l) in Hl. apply Forall_app in Hl.
  destruct Hl as [H1 H2]. apply Forall_app. split; [|now apply IH].
  induction H1; simpl; constructor; auto.
Qed.

(** X7: when the builder reads the clock later than the frame did (now
    after tNow), the batch it adds to fadingIn is ticked in that same frame
    with a negative elapsed time, and leaves the frame with every colour
    component below zero. *)
Theorem fresh_batch_goes_negative sqrt sin (f : Frame) (w : World)
  (b' : Batch) :
  wfWorld w ->
  f_tNow f < f_now f ->
  In b' (fadingIn (connectionStates (renderFrame sqrt sin f w))) ->
  bid b' = nextId w ->
  colors b' <> [] /\ Forall (fun c => c < 0) (colors b').
Proof.
  intros [_ Hlt] Hclock Hb' Hid. unfold renderFrame in Hb'.
  rewrite render_preTick in Hb'.
  destruct (preTick_detail sqrt (f_positions f) (f_rnd f) (f_tNow f)
              (f_now f) w)
    as (n & newA & newFI & Hcs & _ & _ & _ & _ & Hnew & _).
  unfold updateConnections in Hb'. cbn [connectionStates] in Hb'.
  rewrite tickStates_fields, fadingInLoop_spec, Hcs in Hb'.
  cbn [fst fadingIn preTickStates] in Hb'.
  apply in_map_iff in Hb'. destruct Hb' as (b & <- & Hb).
  apply filter_In in Hb. destruct Hb as [Hb _].
  rewrite bid_fadeInStep in Hid.
  apply in_app_or in Hb. destruct Hb as [Hb | Hb].
  { exfalso. rewrite Forall_forall in Hlt.
    assert (bid b < nextId w)%nat; [|lia].
    apply Hlt. apply in_map. unfold all_batches. apply in_or_app. now left. }
  rewrite Forall_forall in Hnew.
  destruct (Hnew b) as (_ & (h & Hh & Lo & Lc & _) & _ & Hst & Hz).
  { apply in_or_app. now right. }
  unfold fadeInStep. cbn [setColors colors].
  rewrite onSpokes_all by lia.
  split.
  - destruct (colors b); [simpl in Lc; lia | discriminate].
  - rewrite Forall_forall in *. intros c' Hc'.
    apply in_map_iff in Hc'. destruct Hc' as (c & <- & Hc).
    rewrite (Hz c Hc), Hst.
    pose proof (sub64_neg (f_tNow f) (f_now f) Hclock) as Hneg.
    set (e := sub64 (f_tNow f) (f_now f)) in *.
    assert (E : e / FADE_IN_DURATION == e * (4 # 3))
      by (unfold FADE_IN_DURATION; field).
    rewrite E. lra.
Qed.

Lemma fresh_batch_goes_negative_witness :
  Forall (fun c => c < 0)
    (colors (hd (sampleBatch 0 0 0 SActive 0)
               (fadingIn (connectionStates
                            (renderFrame sqrtQ sinPoly
                               (mkFrame samplePositions rndSameNeighbor 5
                                  (501 # 100)) mixedWorld))))).
Proof.
  apply (fresh_batch_goes_negative sqrtQ sinPoly
           (mkFrame samplePositions rndSameNeighbor 5 (501 # 100))
           mixedWorld _ mixedWorld_wf).
  - reflexivity.
  - vm_compute. left. reflexivity.
  - vm_compute. reflexivity.
Defined.

(** X8: with a sine between -1 and 1, a tick at which no fading batch has
    a start time in the future keeps every colour component of every batch
    within [0, 0.7] once they all are. *)
Theorem tick_keeps_colors_in_range sin (tNow : Q) (w : World) :
  (forall x, -1 <= sin x <= 1) ->
  Forall (fun b => startTime b <= tNow)
    (fadingIn (connectionStates w) ++ fadingOut (connectionStates w)) ->
  Forall (colorsIn 0 (7 # 10)) (all_batches (connectionStates w)) ->
  Forall (colorsIn 0 (7 # 10))
    (all_batches (connectionStates (updateConnections sin tNow w))).
Proof.
  intros Hsin Hstart Hc. unfold updateConnections. cbn [connectionStates].
  rewrite Forall_forall in *. intros b' Hb'.
  assert (Hin : forall b, In b (fadingIn (connectionStates w)) \/
                          In b (active (connectionStates w)) \/
                          In b (fadingOut (connectionStates w)) ->
                          colorsIn 0 (7 # 10) b).
  { intros b Hb. apply Hc. unfold all_batches. rewrite !in_app_iff. tauto. }
  assert (Hpulse : forall b, colorsIn 0 (7 # 10) b ->
                             colorsIn 0 (7 # 10) (pulseStep sin tNow b)).
  { intros b Hb. unfold pulseStep, colorsIn in *.
    destruct (opacities b); [exact Hb|]. cbn [setColors colors].
    apply pulseColors_Forall; [|exact Hb].
    intros x c Hcx. specialize (Hsin x). lra. }
  destruct (tick_batch_origin sin tNow (connectionStates w) b' Hb')
    as [(b & Hb & Hd & ->) | [(b & Hb & ->) | [(b & Hb & _ & ->) |
        [(b & Hb & Hd & ->) | (Hb & _)]]]]; auto.
  - assert (Hs : startTime b <= tNow)
      by (apply Hstart, in_or_app; now left).
    apply Qgtb_le in Hd. specialize (Hin b (or_introl Hb)).
    unfold colorsIn, fadeInStep in *. cbn [setColors colors].
    apply onSpokes_Forall; [|exact Hin].
    intros c Hcx.
    pose proof (sub64_nonneg tNow (startTime b) Hs) as He.
    unfold elapsedAt in Hd.
    set (e := sub64 tNow (startTime b)) in *.
    assert (E : e / FADE_IN_DURATION == e * (4 # 3))
      by (unfold FADE_IN_DURATION; field).
    rewrite E. unfold FADE_IN_DURATION in Hd. lra.
  - assert (Hs : startTime b <= tNow)
      by (apply Hstart, in_or_app; now right).
    apply Qgtb_le in Hd. specialize (Hin b (or_intror (or_intror Hb))).
    pose proof (fadeOutFactor_cube tNow b) as Ef.
    pose proof (sub64_nonneg tNow (startTime b) Hs) as He.
    fold (elapsedAt tNow b) in He.
    set (e := elapsedAt tNow b) in *.
    assert (Ea : 1 - e / FADE_OUT_DURATION == 1 - e * (2 # 3))
      by (unfold FADE_OUT_DURATION; field).
    unfold FADE_OUT_DURATION in Hd.
    destruct (cube_bounds (1 - e / FADE_OUT_DURATION) 0 1)
      as [Hlo Hhi]; [lra | rewrite Ea; lra | rewrite Ea; lra |].
    rewrite <- Ef in Hlo, Hhi.
    assert (Hcol : Forall (fun c => 0 <= c <= 7 # 10)
              (onSpokes (length (opacities b))
                 (fun c => c * (95 # 100) * fadeOutFactor tNow b)
                 (colors b))).
    { apply onSpokes_Forall; [|exact Hin].
      intros c [Hc0 Hc1].
      pose proof (Qmult_le_0_compat c (fadeOutFactor tNow b)) as P1.
      pose proof (Qmult_le_0_compat c (1 - fadeOutFactor tNow b)) as P2.
      assert (0 <= c * fadeOutFactor tNow b) by (apply P1; lra).
      assert (0 <= c * (1 - fadeOutFactor tNow b)) by (apply P2; lra).
      lra. }
    unfold colorsIn, fadeOutStep.
    destruct (Qltb _ _); cbn [setVisible setColors colors]; exact Hcol.
Qed.

Lemma one_plus_square_pos (x : Q) : 0 < 1 + x * x.
Proof.
  assert (0 <= x * x).
  { destruct (Qlt_le_dec x 0) as [H | H].
    - setoid_replace (x * x) with ((- x) * (- x)) by ring.
      apply Qmult_le_0_compat; lra.
    - now apply Qmult_le_0_compat. }
  lra.
Qed.

Lemma sinRat_bounds (x : Q) : -1 <= sinRat x <= 1.
Proof.
  pose proof (one_plus_square_pos x) as Hp.
  assert (H1 : 0 <= (x - 1) * (x - 1)).
  { destruct (Qlt_le_dec x 1) as [H | H].
    - setoid_replace ((x - 1) * (x - 1)) with ((1 - x) * (1 - x)) by ring.
      apply Qmult_le_0_compat; lra.
    - apply Qmult_le_0_compat; lra. }
  assert (H2 : 0 <= (x + 1) * (x + 1)).
  { destruct (Qlt_le_dec x (-1)) as [H | H].
    - setoid_replace ((x + 1) * (x + 1)) with ((- x - 1) * (- x - 1))
        by ring.
      apply Qmult_le_0_compat; lra.
    - apply Qmult_le_0_compat; lra. }
  unfold sinRat. split.
  - apply Qle_shift_div_l; [exact Hp|]. lra.
  - apply Qle_shift_div_r; [exact Hp|]. lra.
Qed.

Lemma tick_keeps_colors_in_range_witness :
  Forall (colorsIn 0 (7 # 10))
    (all_batches (connectionStates (updateConnections sinRat 5 mixedWorld))).
Proof.
  apply (tick_keeps_colors_in_range sinRat 5 mixedWorld sinRat_bounds).
  - repeat constructor; discriminate.
  - repeat constructor; discriminate.
Defined.

(** * The point field and the colours *)

(** ** hexToRgbNorm *)

Lemma land_255 (n : Z) : Z.land n 255 = (n mod 256)%Z.
Proof. change 255%Z with (Z.ones 8). now rewrite Z.land_ones by lia. Qed.

Lemma channel_range (n : Z) :
  0 <= inject_Z (Z.land n 255) / 255 <= 1.
Proof.
  rewrite land_255.
  pose proof (Z.mod_pos_bound n 256 ltac:(lia)) as B.
  assert (H0 : 0 <= inject_Z (n mod 256)).
  { change 0 with (inject_Z 0). rewrite <- Zle_Qle. lia. }
  assert (H1 : inject_Z (n mod 256) <= 255).
  { change 255 with (inject_Z 255). rewrite <- Zle_Qle. lia. }
  split.
  - apply Qle_shift_div_l; [reflexivity | lra].
  - apply Qle_shift_div_r; [reflexivity | lra].
Qed.

Lemma channel_value (n : Z) :
  inject_Z (Z.land n 255) / 255 * 255 == inject_Z (n mod 256).
Proof.
  rewrite land_255. field.
Qed.

Lemma channel_mod (hex k : Z) :
  (0 <= k)%Z -> (k + 8 <= 24)%Z ->
  Z.land (Z.shiftr (hex mod 2 ^ 24) k) 255 = Z.land (Z.shiftr hex k) 255.
Proof.
  intros H0 H1. apply Z.bits_inj'. intros i Hi.
  rewrite !Z.land_spec, !Z.shiftr_spec by lia.
  change 255%Z with (Z.ones 8).
  destruct (Z.ltb_spec i 8) as [Hi8 | Hi8].
  - now rewrite Z.mod_pow2_bits_low by lia.
  - rewrite Z.ones_spec_high by lia. now rewrite !andb_false_r.
Qed.

Lemma hexDigitValue_char (d : Z) :
  (0 <= d < 16)%Z -> hexDigitValue (hexDigitChar d) = Some d.
Proof.
  intro H.
  assert (E : (d = 0 \/ d = 1 \/ d = 2 \/ d = 3 \/ d = 4 \/ d = 5 \/
               d = 6 \/ d = 7 \/ d = 8 \/ d = 9 \/ d = 10 \/ d = 11 \/
               d = 12 \/ d = 13 \/ d = 14 \/ d = 15)%Z) by lia.
  repeat (destruct E as [-> | E]; [reflexivity|]). subst. reflexivity.
Qed.

Lemma parseInt16_digit (d : Z) (s : list ascii) :
  (0 <= d < 16)%Z ->
  parseInt16 (hexDigitChar d :: s) = parseDigits (hexDigitChar d :: s) None.
Proof.
  intro H.
  assert (E : (d = 0 \/ d = 1 \/ d = 2 \/ d = 3 \/ d = 4 \/ d = 5 \/
               d = 6 \/ d = 7 \/ d = 8 \/ d = 9 \/ d = 10 \/ d = 11 \/
               d = 12 \/ d = 13 \/ d = 14 \/ d = 15)%Z) by lia.
  repeat (destruct E as [-> | E]; [reflexivity|]). subst. reflexivity.
Qed.

Lemma parseDigits_step (d : Z) (s : list ascii) (acc : option Z) :
  (0 <= d < 16)%Z ->
  parseDigits (hexDigitChar d :: s) acc
  = parseDigits s (Some (16 * accValue acc + d)%Z).
Proof.
  intro H. cbn [parseDigits]. now rewrite hexDigitValue_char.
Qed.

Lemma hexDigits_S (fuel : nat) (n : Z) (s : list ascii) :
  hexDigits (S fuel) n s =
  if (n <? 16)%Z then hexDigitChar (n mod 16) :: s
  else hexDigits fuel (n / 16) (hexDigitChar (n mod 16) :: s).
Proof. reflexivity. Qed.

(** Parsing the digits of [n] gives [n] back. *)
Lemma parseDigits_hexDigits (fuel : nat) (n : Z) (s : list ascii)
  (acc : option Z) :
  accValue acc = 0%Z -> (0 <= n < 16 ^ Z.of_nat (S fuel))%Z ->
  parseDigits (hexDigits (S fuel) n s) acc = parseDigits s (Some n).
Proof.
  intro Ha. revert n s. induction fuel as [|fuel IH]; intros n s Hn;
    rewrite hexDigits_S.
  - change (16 ^ Z.of_nat 1)%Z with 16%Z in Hn.
    destruct (Z.ltb_spec n 16) as [L|L]; [|lia].
    rewrite parseDigits_step, Ha by (apply Z.mod_pos_bound; lia).
    rewrite Z.mod_small by lia. f_equal.
  - destruct (Z.ltb_spec n 16) as [L|L].
    + rewrite parseDigits_step, Ha by (apply Z.mod_pos_bound; lia).
      rewrite Z.mod_small by lia. f_equal.
    + rewrite IH.
      * rewrite parseDigits_step by (apply Z.mod_pos_bound; lia).
        cbn [accValue]. f_equal. f_equal.
        pose proof (Z.div_mod n 16). lia.
      * split; [apply Z.div_pos; lia|].
        apply Z.div_lt_upper_bound; [lia|].
        replace (Z.of_nat (S (S fuel))) with (Z.succ (Z.of_nat (S fuel)))
          in Hn by lia.
        rewrite Z.pow_succ_r in Hn by lia. lia.
Qed.

Lemma hexDigits_head (fuel : nat) (n : Z) (s : list ascii) :
  (0 <= n)%Z ->
  exists d rest, (0 <= d < 16)%Z /\
                 hexDigits (S fuel) n s = hexDigitChar d :: rest.
Proof.
  revert n s. induction fuel as [|fuel IH]; intros n s Hn;
    rewrite hexDigits_S.
  - destruct (n <? 16)%Z; exists (n mod 16)%Z, s;
      (split; [apply Z.mod_pos_bound; lia | reflexivity]).
  - destruct (n <? 16)%Z.
    + exists (n mod 16)%Z, s.
      split; [apply Z.mod_pos_bound; lia | reflexivity].
    + apply IH. apply Z.div_pos; lia.
Qed.

Lemma hexDigits_length_ge (fuel : nat) (n : Z) (s : list ascii) :
  (length s < length (hexDigits (S fuel) n s))%nat.
Proof.
  revert n s. induction fuel as [|fuel IH]; intros n s; rewrite hexDigits_S.
  - destruct (n <? 16)%Z; cbn [hexDigits length]; lia.
  - destruct (n <? 16)%Z; [cbn [length]; lia|].
    specialize (IH (n / 16)%Z (hexDigitChar (n mod 16) :: s)).
    cbn [length] in IH. lia.
Qed.

(** The number of digits: at most [k] exactly when [n < 16^k]. *)
Lemma hexDigits_length (fuel : nat) (n : Z) (s : list ascii) (k : nat) :
  (0 <= n < 16 ^ Z.of_nat (S fuel))%Z -> (1 <= k)%nat ->
  (length (hexDigits (S fuel) n s) <= length s + k)%nat <->
  (n < 16 ^ Z.of_nat k)%Z.
Proof.
  revert n s k. induction fuel as [|fuel IH]; intros n s k Hn Hk;
    rewrite hexDigits_S.
  - change (16 ^ Z.of_nat 1)%Z with 16%Z in Hn.
    destruct (Z.ltb_spec n 16) as [L|L]; [|lia].
    cbn [length]. split; [|lia]. intros _.
    apply Z.lt_le_trans with (16 ^ 1)%Z; [lia|].
    apply Z.pow_le_mono_r; lia.
  - destruct (Z.ltb_spec n 16) as [L|L].
    + cbn [length]. split; [|lia]. intros _.
      apply Z.lt_le_trans with (16 ^ 1)%Z; [lia|].
      apply Z.pow_le_mono_r; lia.
    + assert (Hd : (0 <= n / 16 < 16 ^ Z.of_nat (S fuel))%Z).
      { split; [apply Z.div_pos; lia|].
        apply Z.div_lt_upper_bound; [lia|].
        replace (Z.of_nat (S (S fuel))) with (Z.succ (Z.of_nat (S fuel)))
          in Hn by lia.
        rewrite Z.pow_succ_r in Hn by lia. lia. }
      destruct k as [|[|k]]; [lia| |].
      * pose proof (hexDigits_length_ge fuel (n / 16)
                      (hexDigitChar (n mod 16) :: s)) as G.
        cbn [length] in G. change (16 ^ Z.of_nat 1)%Z with 16%Z. lia.
      * pose proof (IH (n / 16)%Z (hexDigitChar (n mod 16) :: s) (S k) Hd
                      ltac:(lia)) as I.
        cbn [length] in I.
        replace (Z.of_nat (S (S k))) with (Z.succ (Z.of_nat (S k))) by lia.
        rewrite Z.pow_succ_r by lia.
        pose proof (Z.div_mod n 16 ltac:(lia)).
        pose proof (Z.mod_pos_bound n 16 ltac:(lia)).
        split; intro HH.
        -- assert (n / 16 < 16 ^ Z.of_nat (S k))%Z by (apply I; lia). lia.
        -- assert (J : (n / 16 < 16 ^ Z.of_nat (S k))%Z)
             by (apply Z.div_lt_upper_bound; lia).
           apply I in J. lia.
Qed.

Lemma parseDigits_zeros (k : nat) (s : list ascii) (acc : option Z) :
  accValue acc = 0%Z ->
  parseDigits (repeat "0"%char k ++ s) acc
  = parseDigits s (if (k =? 0)%nat then acc else Some 0%Z).
Proof.
  revert acc. induction k as [|k IH]; intros acc Ha; [reflexivity|].
  cbn [repeat app]. change "0"%char with (hexDigitChar 0).
  rewrite parseDigits_step by lia. change (hexDigitChar 0) with "0"%char.
  rewrite IH by (cbn [accValue]; lia). rewrite Ha.
  destruct k; reflexivity.
Qed.

Lemma fuel_enough (n : Z) :
  (0 <= n)%Z -> (n < 16 ^ Z.of_nat (S (Z.to_nat (Z.log2 n))))%Z.
Proof.
  intro H.
  destruct (Z.eq_dec n 0) as [->|N]; [reflexivity|].
  pose proof (Z.log2_spec n ltac:(lia)) as [_ U].
  pose proof (Z.log2_nonneg n).
  rewrite Nat2Z.inj_succ, Z2Nat.id by lia.
  eapply Z.lt_le_trans; [exact U|].
  apply Z.pow_le_mono_l. lia.
Qed.

(** What [parseInt] reads back from the padded string. *)
Lemma parseInt16_padded (hex : Z) :
  parseInt16 (padStart 6 "0"%char (toString16 hex))
  = Some (if (hex <? 0)%Z && (-65536 <? hex)%Z then 0 else hex)%Z.
Proof.
  unfold toString16, padStart.
  set (n := Z.abs hex). set (fuel := Z.to_nat (Z.log2 n)).
  assert (Hn : (0 <= n)%Z) by apply Z.abs_nonneg.
  pose proof (fuel_enough n Hn) as Hf. fold fuel in Hf.
  destruct (Z.ltb_spec hex 0) as [Neg|Pos]; cbn [andb].
  - cbn [length].
    pose proof (hexDigits_length fuel n [] 4 (conj Hn Hf) ltac:(lia)) as L.
    cbn [length] in L.
    destruct (Z.ltb_spec (-65536) hex) as [Small|Big].
    + assert (Ln : (length (hexDigits (S fuel) n []) <= 4)%nat).
      { apply L. subst n. lia. }
      destruct (6 - S (length (hexDigits (S fuel) n [])))%nat as [|k] eqn:K;
        [lia|].
      cbn [repeat app]. unfold parseInt16.
      change "0"%char with (hexDigitChar 0) at 1.
      cbn [hexDigitChar nth Z.to_nat].
      change (parseDigits ("0"%char :: repeat "0"%char k ++
                "-"%char :: hexDigits (S fuel) n []) None)
        with (parseDigits (repeat "0"%char (S k) ++
                "-"%char :: hexDigits (S fuel) n []) None).
      rewrite parseDigits_zeros by reflexivity. reflexivity.
    + assert (Ln : ~ (length (hexDigits (S fuel) n []) <= 4)%nat).
      { rewrite L. subst n. lia. }
      replace (6 - S (length (hexDigits (S fuel) n [])))%nat with 0%nat by lia.
      cbn [repeat app parseInt16].
      rewrite parseDigits_hexDigits by (auto; lia).
      cbn [parseDigits option_map]. f_equal. subst n. lia.
  - assert (E : n = hex) by (subst n; lia).
    destruct (hexDigits_head fuel n [] Hn) as (d & rest & Hd & Er).
    assert (P : parseInt16 (repeat "0"%char
                              (6 - length (hexDigits (S fuel) n []))
                            ++ hexDigits (S fuel) n [])
                = parseDigits (repeat "0"%char
                                 (6 - length (hexDigits (S fuel) n []))
                               ++ hexDigits (S fuel) n []) None).
    { destruct (6 - length (hexDigits (S fuel) n []))%nat as [|k].
      - cbn [repeat app]. rewrite Er. now apply parseInt16_digit.
      - cbn [repeat app]. reflexivity. }
    rewrite P, parseDigits_zeros by reflexivity.
    rewrite parseDigits_hexDigits.
    + cbn [parseDigits]. now rewrite E.
    + destruct (_ =? _)%nat; reflexivity.
    + auto.
Qed.

Lemma padStart_length (n : nat) (c : ascii) (s : list ascii) :
  (n <= length (padStart n c s))%nat.
Proof. unfold padStart. rewrite length_app, repeat_length. lia. Qed.

(** The low 32 bits are those of the number. *)
Lemma toInt32_bits (n j : Z) :
  (0 <= j <= 24)%Z ->
  Z.land (Z.shiftr (toInt32 n) j) 255 = Z.land (Z.shiftr n j) 255.
Proof.
  intro Hj. apply Z.bits_inj'. intros i Hi.
  rewrite !Z.land_spec, !Z.shiftr_spec by lia.
  destruct (Z.ltb_spec i 8) as [L|L].
  - f_equal.
    assert (E : (toInt32 n mod 2 ^ 32 = n mod 2 ^ 32)%Z).
    { unfold toInt32.
      pose proof (Z.div_mod (n + 2 ^ 31) (2 ^ 32) ltac:(lia)) as D.
      replace ((n + 2 ^ 31) mod 2 ^ 32 - 2 ^ 31)%Z
        with (n + - ((n + 2 ^ 31) / 2 ^ 32) * 2 ^ 32)%Z by lia.
      apply Z.mod_add. lia. }
    rewrite <- (Z.mod_pow2_bits_low (toInt32 n) 32 (i + j)) by lia.
    rewrite <- (Z.mod_pow2_bits_low n 32 (i + j)) by lia.
    now rewrite E.
  - change 255%Z with (Z.ones 8). rewrite Z.ones_spec_high by lia.
    now rewrite !andb_false_r.
Qed.

Lemma hexToRgbNorm_spec (hex : Z) :
  hexToRgbNorm hex
  = rgbOf (if (hex <? 0)%Z && (-65536 <? hex)%Z then 0 else hex).
Proof.
  unfold hexToRgbNorm.
  pose proof (padStart_length 6 "0"%char (toString16 hex)) as L.
  destruct (Nat.eqb_spec (length (padStart 6 "0"%char (toString16 hex))) 3)
    as [E|_]; [lia|].
  rewrite parseInt16_padded. unfold rgbOf.
  rewrite !toInt32_bits by lia.
  replace (Z.land (toInt32 _) 255) with
    (Z.land (Z.shiftr (toInt32
       (if (hex <? 0)%Z && (-65536 <? hex)%Z then 0 else hex)%Z) 0) 255)
    by now rewrite Z.shiftr_0_r.
  rewrite toInt32_bits by lia. now rewrite Z.shiftr_0_r.
Qed.

Lemma rgbOf_facts (num : Z) :
  let '(r, g, b) := rgbOf num in
  (0 <= r <= 1 /\ 0 <= g <= 1 /\ 0 <= b <= 1) /\
  ((0 <= num < 2 ^ 24)%Z ->
   r * 255 * 65536 + g * 255 * 256 + b * 255 == inject_Z num) /\
  rgbOf (num mod 2 ^ 24) = rgbOf num.
Proof.
  unfold rgbOf. split; [|split].
  - repeat split; apply channel_range.
  - intro H. rewrite !channel_value, !Z.shiftr_div_pow2 by lia.
    change 65536 with (inject_Z 65536). change 256 with (inject_Z 256).
    rewrite <- !inject_Z_mult, <- !inject_Z_plus.
    apply inject_Z_injective.
    change (2 ^ 16)%Z with 65536%Z. change (2 ^ 8)%Z with 256%Z.
    change (2 ^ 24)%Z with 16777216%Z in H.
    Z.div_mod_to_equations. lia.
  - rewrite <- (Z.shiftr_0_r (num mod 2 ^ 24)), <- (Z.shiftr_0_r num) at 3.
    now rewrite !channel_mod by lia.
Qed.

(** X11: hexToRgbNorm writes its number in base 16, pads the string to six
    characters with zeros and parses it back.  Each channel it returns
    lies in [0, 1].  A number that is not negative is read back as it is:
    below 2^24 the three channels scaled back by 255 are its three bytes,
    red * 65536 + green * 256 + blue giving the number again, and bits from
    2^24 up are ignored.  For a negative number above -65536 the padding
    zeros stand before the minus sign, the parse stops there and the
    colour is black; from -65536 down the sign leads the string and the
    channels are the low bytes of the two's complement. *)
Theorem hex_channels (hex : Z) :
  let '(r, g, b) := hexToRgbNorm hex in
  (0 <= r <= 1 /\ 0 <= g <= 1 /\ 0 <= b <= 1) /\
  ((0 <= hex < 2 ^ 24)%Z ->
   r * 255 * 65536 + g * 255 * 256 + b * 255 == inject_Z hex) /\
  ((0 <= hex)%Z -> hexToRgbNorm (hex mod 2 ^ 24) = hexToRgbNorm hex) /\
  ((-65536 < hex < 0)%Z ->
   hexToRgbNorm hex = hexToRgbNorm 0 /\ r == 0 /\ g == 0 /\ b == 0) /\
  ((hex <= -65536)%Z -> hexToRgbNorm hex = hexToRgbNorm (hex mod 2 ^ 24)).
Proof.
  assert (M : (0 <= hex mod 2 ^ 24)%Z) by (apply Z.mod_pos_bound; lia).
  rewrite !hexToRgbNorm_spec.
  destruct (Z.ltb_spec (hex mod 2 ^ 24) 0) as [?|_]; [lia|].
  destruct (Z.ltb_spec hex 0) as [Neg|Pos]; cbn [andb].
  - destruct (Z.ltb_spec (-65536) hex) as [Small|Big].
    + change (rgbOf 0) with (0 # 255, 0 # 255, 0 # 255).
      repeat split; try lia; try reflexivity; discriminate.
    + pose proof (rgbOf_facts hex) as F.
      destruct (rgbOf hex) as [[r g] b]. destruct F as (R & _ & E).
      repeat split; try lia; try apply R. now rewrite E.
  - pose proof (rgbOf_facts hex) as F.
    destruct (rgbOf hex) as [[r g] b]. destruct F as (R & V & E).
    repeat split; try lia; try apply R; auto.
Qed.

Lemma hex_channels_witness :
  let '(r, g, b) := hexToRgbNorm 0x14b8a6 in
  r * 255 * 65536 + g * 255 * 256 + b * 255 == inject_Z 0x14b8a6.
Proof.
  pose proof (hex_channels 0x14b8a6) as H.
  destruct (hexToRgbNorm 0x14b8a6) as [[r g] b].
  destruct H as (_ & H & _). apply H. lia.
Defined.

(** ** The generated points *)

Lemma lerp_range (a b t : Q) :
  0 <= a <= 1 -> 0 <= b <= 1 -> 0 <= t <= 1 ->
  0 <= a * (1 - t) + b * t <= 1.
Proof.
  intros Ha Hb Ht.
  pose proof (Qmult_le_0_compat a (1 - t)) as P1.
  pose proof (Qmult_le_0_compat (1 - a) (1 - t)) as P2.
  pose proof (Qmult_le_0_compat b t) as P3.
  pose proof (Qmult_le_0_compat (1 - b) t) as P4.
  assert (0 <= a * (1 - t)) by (apply P1; lra).
  assert (0 <= (1 - a) * (1 - t)) by (apply P2; lra).
  assert (0 <= b * t) by (apply P3; lra).
  assert (0 <= (1 - b) * t) by (apply P4; lra).
  split; lra.
Qed.

Lemma distRatio_range (dist : Q) : 0 <= dist -> 0 <= Qmin (dist / 6) 1 <= 1.
Proof.
  intro H.
  assert (H6 : 0 <= dist / 6) by (apply Qle_shift_div_l; [reflexivity|lra]).
  destruct (Q.min_spec (dist / 6) 1) as [[Hlt E] | [Hle E]]; rewrite E; lra.
Qed.

Lemma mixColor_range (dist : Q) :
  0 <= dist ->
  let '(r, g, b) := mixColor dist in
  0 <= r <= 1 /\ 0 <= g <= 1 /\ 0 <= b <= 1.
Proof.
  intro H. pose proof (distRatio_range dist H) as Ht.
  unfold mixColor. rewrite !hexToRgbNorm_spec. unfold rgbOf.
  repeat split; apply lerp_range; auto; apply channel_range.
Qed.

Lemma square_nonneg (x : Q) : 0 <= x * x.
Proof.
  destruct (Qlt_le_dec x 0) as [H | H].
  - setoid_replace (x * x) with ((- x) * (- x)) by ring.
    apply Qmult_le_0_compat; lra.
  - now apply Qmult_le_0_compat.
Qed.

(** A factor between -1 and 1 keeps a number within its bound. *)
Lemma scaled_range (u c m : Q) :
  - m <= u <= m -> -1 <= c <= 1 -> - m <= u * c <= m.
Proof.
  intros [U1 U2] [C1 C2].
  pose proof (Qmult_le_0_compat (m - u) (1 + c)) as P1.
  pose proof (Qmult_le_0_compat (m + u) (1 - c)) as P2.
  pose proof (Qmult_le_0_compat (m + u) (1 + c)) as P3.
  pose proof (Qmult_le_0_compat (m - u) (1 - c)) as P4.
  assert (0 <= (m - u) * (1 + c)) by (apply P1; lra).
  assert (0 <= (m + u) * (1 - c)) by (apply P2; lra).
  assert (0 <= (m + u) * (1 + c)) by (apply P3; lra).
  assert (0 <= (m - u) * (1 - c)) by (apply P4; lra).
  split; lra.
Qed.

Section GeneratedPoints.

Variables (sqrt sin cos acos pow : Q -> Q) (PI : Q) (rnd : nat -> Q).
Hypothesis rnd_range : forall k, 0 <= rnd k < 1.
Hypothesis pow_range : forall r, 0 <= r < 1 -> 0 <= pow r <= 1.
Hypothesis sin_range : forall a, -1 <= sin a <= 1.
Hypothesis cos_range : forall a, -1 <= cos a <= 1.
Hypothesis sqrt_nonneg : forall x, 0 <= x -> 0 <= sqrt x.

Lemma galaxy_point_box (d theta phi : Q) :
  0 <= d <= 8 ->
  -8 <= d * sin phi * cos theta <= 8 /\
  -8 <= d * sin phi * sin theta <= 8 /\
  -8 <= d * cos phi <= 8.
Proof.
  intro Hd.
  assert (D : - d <= d <= d) by lra.
  pose proof (scaled_range d (sin phi) d D (sin_range phi)) as S.
  pose proof (scaled_range _ (cos theta) d S (cos_range theta)) as X.
  pose proof (scaled_range _ (sin theta) d S (sin_range theta)) as Y.
  pose proof (scaled_range d (cos phi) d D (cos_range phi)) as Z.
  repeat split; lra.
Qed.

Lemma randomGalaxyPoint_range (k : nat) :
  let '((x, y, z), k') := randomGalaxyPoint sin cos acos pow PI rnd k in
  (-8 <= x <= 8 /\ -8 <= y <= 8 /\ -8 <= z <= 8) /\
  (k + 4 <= k' <= k + 5)%nat.
Proof.
  unfold randomGalaxyPoint.
  pose proof (pow_range (rnd k) (rnd_range k)) as Hp.
  pose proof (rnd_range (k + 2)) as Hr.
  destruct (Qgtb (rnd (k + 1)) (95 # 100)).
  - split; [apply galaxy_point_box; lra | lia].
  - split; [apply galaxy_point_box; lra | lia].
Qed.

Lemma setupPoint_range (k : nat) :
  pointInRange (fst (setupPoint sqrt sin cos acos pow PI rnd k)) /\
  (k + 5 <= snd (setupPoint sqrt sin cos acos pow PI rnd k) <= k + 6)%nat.
Proof.
  unfold setupPoint.
  pose proof (randomGalaxyPoint_range k) as H.
  destruct (randomGalaxyPoint sin cos acos pow PI rnd k) as [[[x y] z] k1].
  destruct H as [Hn Hk]. cbn [fst snd]. split; [|lia].
  unfold pointInRange. cbn [p_position p_color p_animated].
  assert (Hsum : 0 <= x * x + y * y + z * z).
  { pose proof (square_nonneg x). pose proof (square_nonneg y).
    pose proof (square_nonneg z). lra. }
  pose proof (mixColor_range (sqrt (x * x + y * y + z * z))
                (sqrt_nonneg _ Hsum)) as Hc.
  destruct (mixColor (sqrt (x * x + y * y + z * z))) as [[r g] b].
  split; [exact Hn|]. split; [exact Hc|].
  destruct (Qltb (rnd k1) PERCENTAGE_ANIMATED); auto.
Qed.

Lemma setupPoints_range (n k : nat) :
  length (fst (setupPoints sqrt sin cos acos pow PI rnd n k)) = n /\
  (k + 5 * n <= snd (setupPoints sqrt sin cos acos pow PI rnd n k)
   <= k + 6 * n)%nat /\
  Forall pointInRange (fst (setupPoints sqrt sin cos acos pow PI rnd n k)).
Proof.
  revert k. induction n as [|n IH]; intro k; cbn [setupPoints].
  - cbn [fst snd length]. repeat split; try lia. constructor.
  - pose proof (setupPoint_range k) as [Hp Hk].
    destruct (setupPoint sqrt sin cos acos pow PI rnd k) as [p k1].
    cbn [fst snd] in Hp, Hk.
    destruct (IH k1) as (Hl & Hk2 & Hf).
    destruct (setupPoints sqrt sin cos acos pow PI rnd n k1) as [ps k2].
    cbn [fst snd length] in *. repeat split; try lia.
    constructor; assumption.
Qed.

End GeneratedPoints.

(** X12: on a host where Math.random stays in [0, 1), Math.pow(r, 1.5)
    stays in [0, 1] on that range, sine and cosine stay in [-1, 1] and
    Math.sqrt of a number that is not negative is not negative, the point
    loop of setupScene makes the requested number of points, each with
    its three coordinates in [-8, 8], colour channels in [0, 1] and an
    animated flag equal to 0 or 1; a point costs five random draws, or six
    when it goes to the outer shell. *)
Theorem generated_points_in_range (sqrt sin cos acos pow : Q -> Q) (PI : Q)
  (rnd : nat -> Q) (n k : nat) :
  (forall k, 0 <= rnd k < 1) ->
  (forall r, 0 <= r < 1 -> 0 <= pow r <= 1) ->
  (forall a, -1 <= sin a <= 1) ->
  (forall a, -1 <= cos a <= 1) ->
  (forall x, 0 <= x -> 0 <= sqrt x) ->
  length (fst (setupPoints sqrt sin cos acos pow PI rnd n k)) = n /\
  (k + 5 * n <= snd (setupPoints sqrt sin cos acos pow PI rnd n k)
   <= k + 6 * n)%nat /\
  Forall pointInRange (fst (setupPoints sqrt sin cos acos pow PI rnd n k)).
Proof.
  intros H1 H2 H3 H4 H5. now apply setupPoints_range.
Qed.

Lemma sqrtQ_nonneg (x : Q) : 0 <= sqrtQ x.
Proof.
  unfold sqrtQ, Qle. simpl. rewrite Z.mul_1_r. apply Z.sqrt_nonneg.
Qed.

Lemma sqrtQ_nonneg_on (x : Q) : 0 <= x -> 0 <= sqrtQ x.
Proof. intros _. apply sqrtQ_nonneg. Qed.

Lemma cosRat_bounds (x : Q) : -1 <= cosRat x <= 1.
Proof.
  pose proof (one_plus_square_pos x) as Hp.
  pose proof (square_nonneg x) as Hs.
  unfold cosRat. split.
  - apply Qle_shift_div_l; [exact Hp|]. lra.
  - apply Qle_shift_div_r; [exact Hp|]. lra.
Qed.

Lemma rndShell_range (k : nat) : 0 <= rndShell k < 1.
Proof.
  unfold rndShell. destruct (k mod 11 =? 1)%nat; split; reflexivity
    || discriminate.
Qed.

Lemma square_range (r : Q) : 0 <= r < 1 -> 0 <= r * r <= 1.
Proof.
  intros [H0 H1].
  pose proof (Qmult_le_0_compat r r H0 H0).
  pose proof (Qmult_le_0_compat r (1 - r)) as P.
  assert (0 <= r * (1 - r)) by (apply P; lra).
  lra.
Qed.

Lemma generated_points_in_range_witness :
  Forall pointInRange
    (fst (setupPoints sqrtQ sinRat cosRat (fun x => x) (fun r => r * r)
            (355 # 113) rndShell 3 0)) /\
  snd (setupPoints sqrtQ sinRat cosRat (fun x => x) (fun r => r * r)
         (355 # 113) rndShell 3 0) = 17%nat.
Proof.
  split.
  - apply (generated_points_in_range sqrtQ sinRat cosRat (fun x => x)
             (fun r => r * r) (355 # 113) rndShell 3 0
             rndShell_range square_range sinRat_bounds cosRat_bounds
             sqrtQ_nonneg_on).
  - vm_compute. reflexivity.
Defined.

(** X13: the colour mix is clamped: a point at distance 6 or more from the
    origin gets the outer colour itself, a point at distance 0 the centre
    colour. *)
Theorem mix_color_ends (dist : Q) :
  let '(r, g, b) := mixColor dist in
  let '(cr, cg, cb) := hexToRgbNorm (centerColor CONFIG) in
  let '(outr, outg, outb) := hexToRgbNorm (outerColor CONFIG) in
  (6 <= dist -> r == outr /\ g == outg /\ b == outb) /\
  (dist == 0 -> r == cr /\ g == cg /\ b == cb).
Proof.
  unfold mixColor. rewrite !hexToRgbNorm_spec. unfold rgbOf. split.
  - intro H.
    assert (E : Qmin (dist / 6) 1 == 1).
    { apply Q.min_r. apply Qle_shift_div_l; [reflexivity|lra]. }
    rewrite E. repeat split; ring.
  - intro H.
    assert (E : Qmin (dist / 6) 1 == 0).
    { rewrite H. reflexivity. }
    rewrite E. repeat split; ring.
Qed.

Lemma mix_color_ends_witness :
  let '(r, g, b) := mixColor 7 in
  r == 20 # 255 /\ g == 184 # 255 /\ b == 166 # 255.
Proof.
  pose proof (mix_color_ends 7) as H.
  destruct (mixColor 7) as [[r g] b].
  rewrite !hexToRgbNorm_spec in H.
  cbv beta iota zeta delta [rgbOf] in H.
  destruct H as [H _]. apply H. discriminate.
Defined.

(** ** The animation of the points *)

Lemma animateLoop_spec sqrt sin (tNow : Q) (orig flags : Z -> Q)
  (n : nat) (i0 : Z) (pos : Z -> Q) (j : Z) :
  animateLoop sqrt sin tNow orig flags n i0 pos j =
  if ((i0 <=? j / 3) && (j / 3 <? i0 + Z.of_nat n)
      && pointMoves sqrt orig flags (j / 3))%Z
  then orig j * pointScale sin tNow (j / 3)
  else pos j.
Proof.
  revert i0 pos. induction n as [|n IH]; intros i0 pos.
  - cbn [animateLoop].
    destruct (Z.leb_spec i0 (j / 3)), (Z.ltb_spec (j / 3) (i0 + Z.of_nat 0));
      try reflexivity; lia.
  - cbn [animateLoop]. rewrite IH.
    fold (pointMoves sqrt orig flags i0).
    assert (Em : (if Qgtb (flags i0) 0
                  then
                    if Qltb
                         (sqrt (orig (i0 * 3)%Z * orig (i0 * 3)%Z
                                + orig (i0 * 3 + 1)%Z * orig (i0 * 3 + 1)%Z
                                + orig (i0 * 3 + 2)%Z * orig (i0 * 3 + 2)%Z))
                         (1 # 10)
                    then pos
                    else
                      setAt (setAt (setAt pos (i0 * 3)%Z
                                      (orig (i0 * 3)%Z
                                       * pointScale sin tNow i0))
                               (i0 * 3 + 1)%Z
                               (orig (i0 * 3 + 1)%Z * pointScale sin tNow i0))
                        (i0 * 3 + 2)%Z
                        (orig (i0 * 3 + 2)%Z * pointScale sin tNow i0)
                  else pos)
                 = if pointMoves sqrt orig flags i0
                   then
                     setAt (setAt (setAt pos (i0 * 3)%Z
                                     (orig (i0 * 3)%Z
                                      * pointScale sin tNow i0))
                              (i0 * 3 + 1)%Z
                              (orig (i0 * 3 + 1)%Z * pointScale sin tNow i0))
                       (i0 * 3 + 2)%Z
                       (orig (i0 * 3 + 2)%Z * pointScale sin tNow i0)
                   else pos).
    { unfold pointMoves. destruct (Qgtb (flags i0) 0); [|reflexivity].
      destruct (Qltb _ (1 # 10)); reflexivity. }
    rewrite Em. clear Em.
    assert (Hq : (3 * (j / 3) <= j < 3 * (j / 3) + 3)%Z).
    { pose proof (Z.div_mod j 3 ltac:(lia)).
      pose proof (Z.mod_pos_bound j 3 ltac:(lia)). lia. }
    destruct (Z.eq_dec (j / 3) i0) as [E | E].
    + rewrite E.
      destruct (Z.leb_spec (i0 + 1) i0); [lia|].
      destruct (Z.leb_spec i0 i0); [|lia].
      destruct (Z.ltb_spec i0 (i0 + Z.of_nat (S n))); [|lia].
      cbn [andb].
      destruct (pointMoves sqrt orig flags i0); [|reflexivity].
      unfold setAt.
      destruct (Z.eqb_spec j (i0 * 3 + 2)) as [->|]; [reflexivity|].
      destruct (Z.eqb_spec j (i0 * 3 + 1)) as [->|]; [reflexivity|].
      destruct (Z.eqb_spec j (i0 * 3)) as [->|]; [reflexivity|]. lia.
    + assert (Hp : (if pointMoves sqrt orig flags i0
                    then
                      setAt (setAt (setAt pos (i0 * 3)%Z
                                      (orig (i0 * 3)%Z
                                       * pointScale sin tNow i0))
                               (i0 * 3 + 1)%Z
                               (orig (i0 * 3 + 1)%Z * pointScale sin tNow i0))
                        (i0 * 3 + 2)%Z
                        (orig (i0 * 3 + 2)%Z * pointScale sin tNow i0)
                    else pos) j = pos j).
      { destruct (pointMoves sqrt orig flags i0); [|reflexivity].
        unfold setAt.
        destruct (Z.eqb_spec j (i0 * 3 + 2)); [lia|].
        destruct (Z.eqb_spec j (i0 * 3 + 1)); [lia|].
        destruct (Z.eqb_spec j (i0 * 3)); [lia|]. reflexivity. }
      rewrite Hp.
      destruct (Z.leb_spec (i0 + 1) (j / 3)), (Z.leb_spec i0 (j / 3)),
        (Z.ltb_spec (j / 3) (i0 + 1 + Z.of_nat n)),
        (Z.ltb_spec (j / 3) (i0 + Z.of_nat (S n)));
        try reflexivity; lia.
Qed.

Lemma pointScale_range sin (tNow : Q) (i : Z) :
  (forall x, -1 <= sin x <= 1) ->
  7 # 10 <= pointScale sin tNow i <= 11 # 10.
Proof.
  intro H. unfold pointScale.
  specialize (H (tNow * ((5 # 10) + (5 # 10) * inject_Z (i mod 5) * (1 # 10))
                 + inject_Z i * (1 # 10000))).
  lra.
Qed.

(** X14: the animation of render recomputes every moving point from its
    original position, so nothing accumulates from frame to frame: the
    buffer after a frame does not depend on the frames before it on the
    entries it writes, and it leaves every other entry alone (entries
    outside the point range, points not flagged, points within 0.1 of the
    centre); with a sine between -1 and 1 the scale factor of a moving
    point stays within [0.7, 1.1]. *)
Theorem animation_does_not_accumulate sqrt sin (t1 t2 : Q)
  (orig flags pos : Z -> Q) (j : Z) :
  animatePoints sqrt sin t2 orig flags
    (animatePoints sqrt sin t1 orig flags pos) j
  = animatePoints sqrt sin t2 orig flags pos j /\
  ((j < 0 \/ 3 * NUM_POINTS <= j)%Z ->
   animatePoints sqrt sin t2 orig flags pos j = pos j) /\
  (pointMoves sqrt orig flags (j / 3) = false ->
   animatePoints sqrt sin t2 orig flags pos j = pos j) /\
  ((0 <= j < 3 * NUM_POINTS)%Z ->
   pointMoves sqrt orig flags (j / 3) = true ->
   animatePoints sqrt sin t2 orig flags pos j
   = orig j * pointScale sin t2 (j / 3)) /\
  ((forall x, -1 <= sin x <= 1) ->
   7 # 10 <= pointScale sin t2 (j / 3) <= 11 # 10).
Proof.
  unfold animatePoints. rewrite !animateLoop_spec.
  assert (Hq : (3 * (j / 3) <= j < 3 * (j / 3) + 3)%Z).
  { pose proof (Z.div_mod j 3 ltac:(lia)).
    pose proof (Z.mod_pos_bound j 3 ltac:(lia)). lia. }
  change (Z.of_nat (Z.to_nat NUM_POINTS)) with NUM_POINTS.
  split; [|split; [|split; [|split]]].
  - destruct (_ && _ && _)%bool; reflexivity.
  - intro H.
    destruct (Z.leb_spec 0 (j / 3)), (Z.ltb_spec (j / 3) (0 + NUM_POINTS));
      try reflexivity; lia.
  - intros ->. now rewrite andb_false_r.
  - intros H ->.
    destruct (Z.leb_spec 0 (j / 3)), (Z.ltb_spec (j / 3) (0 + NUM_POINTS));
      try reflexivity; lia.
  - apply pointScale_range.
Qed.

Lemma animation_does_not_accumulate_witness :
  animatePoints sqrtQ sinRat 2 samplePositions sampleFlags samplePositions 36
  == 10 * pointScale sinRat 2 12 /\
  7 # 10 <= pointScale sinRat 2 12 <= 11 # 10.
Proof.
  destruct (animation_does_not_accumulate sqrtQ sinRat 1 2 samplePositions
              sampleFlags samplePositions 36) as (_ & _ & _ & H & Hs).
  split.
  - rewrite H; [reflexivity | unfold NUM_POINTS; lia | reflexivity].
  - apply Hs, sinRat_bounds.
Defined.

(** ** The positions buffer *)

Lemma fillPositions_spec (ps : list PointData) (i0 : Z) (base : Z -> Q)
  (k c : Z) :
  (0 <= c < 3)%Z ->
  fillPositions ps i0 base (k * 3 + c) =
  match (if (k <? i0)%Z then None else nth_error ps (Z.to_nat (k - i0))) with
  | Some p => fround (component c p)
  | None => base (k * 3 + c)%Z
  end.
Proof.
  intro Hc. revert i0 base. induction ps as [|p ps IH]; intros i0 base.
  - cbn [fillPositions].
    destruct (k <? i0)%Z; [reflexivity|].
    now destruct (Z.to_nat (k - i0)).
  - cbn [fillPositions].
    destruct (p_position p) as [[x y] z] eqn:Ep. rewrite IH.
    destruct (Z.ltb_spec k i0) as [H | H].
    + destruct (Z.ltb_spec k (i0 + 1)); [|lia].
      unfold setAt.
      destruct (Z.eqb_spec (k * 3 + c) (i0 * 3 + 2)); [lia|].
      destruct (Z.eqb_spec (k * 3 + c) (i0 * 3 + 1)); [lia|].
      destruct (Z.eqb_spec (k * 3 + c) (i0 * 3)); [lia|]. reflexivity.
    + destruct (Z.eq_dec k i0) as [-> | Hne].
      * destruct (Z.ltb_spec i0 (i0 + 1)); [|lia].
        rewrite Z.sub_diag. cbn [Z.to_nat nth_error].
        unfold component. rewrite Ep. unfold setAt.
        destruct (Z.eqb_spec (i0 * 3 + c) (i0 * 3 + 2)) as [E|E].
        { destruct (Z.eqb_spec c 0); [lia|].
          destruct (Z.eqb_spec c 1); [lia|]. reflexivity. }
        destruct (Z.eqb_spec (i0 * 3 + c) (i0 * 3 + 1)) as [E1|E1].
        { destruct (Z.eqb_spec c 0); [lia|].
          destruct (Z.eqb_spec c 1); [|lia]. reflexivity. }
        destruct (Z.eqb_spec (i0 * 3 + c) (i0 * 3)) as [E2|E2]; [|lia].
        destruct (Z.eqb_spec c 0); [|lia]. reflexivity.
      * destruct (Z.ltb_spec k (i0 + 1)); [lia|].
        replace (Z.to_nat (k - i0)) with (S (Z.to_nat (k - (i0 + 1))))
          by lia.
        cbn [nth_error].
        destruct (nth_error ps (Z.to_nat (k - (i0 + 1)))); [reflexivity|].
        unfold setAt.
        destruct (Z.eqb_spec (k * 3 + c) (i0 * 3 + 2)); [lia|].
        destruct (Z.eqb_spec (k * 3 + c) (i0 * 3 + 1)); [lia|].
        destruct (Z.eqb_spec (k * 3 + c) (i0 * 3)); [lia|]. reflexivity.
Qed.

Lemma coord_positionsOf (ps : list PointData) (i : nat) (p : PointData)
  (c : Z) :
  nth_error ps i = Some p -> (0 <= c < 3)%Z ->
  coord (positionsOf ps) (Z.of_nat i) c = fround (component c p).
Proof.
  intros Hp Hc. unfold coord, positionsOf.
  rewrite fillPositions_spec by exact Hc.
  destruct (Z.ltb_spec (Z.of_nat i) 0); [lia|].
  now rewrite Z.sub_0_r, Nat2Z.id, Hp.
Qed.

Lemma fround_mono (x y : Q) : x <= y -> fround x <= fround y.
Proof. apply roundTo_mono. lia. Qed.

(** 8 and -8 are single precision numbers, so rounding stays between
    them. *)
Lemma fround_box (x : Q) : -8 <= x <= 8 -> -8 <= fround x <= 8.
Proof.
  intros [L U].
  assert (E8 : fround 8 == 8) by (vm_compute; reflexivity).
  assert (En : fround (-8) == -8) by (vm_compute; reflexivity).
  split.
  - rewrite <- En. now apply fround_mono.
  - rewrite <- E8. now apply fround_mono.
Qed.

(** X16: the buffer the point loop of setupScene writes is a
    Float32Array, which the builder reads back point by point: the three
    entries it reads for anchor index i are the coordinates of point i
    rounded to single precision, and a coordinate in [-8, 8] is still in
    [-8, 8] when read back. *)
Theorem positions_buffer_lookup (ps : list PointData) (i : nat)
  (p : PointData) :
  nth_error ps i = Some p ->
  let '(x, y, z) := p_position p in
  let positions := positionsOf ps in
  (coord positions (Z.of_nat i) 0 = fround x /\
   coord positions (Z.of_nat i) 1 = fround y /\
   coord positions (Z.of_nat i) 2 = fround z) /\
  (-8 <= x <= 8 -> -8 <= coord positions (Z.of_nat i) 0 <= 8) /\
  (-8 <= y <= 8 -> -8 <= coord positions (Z.of_nat i) 1 <= 8) /\
  (-8 <= z <= 8 -> -8 <= coord positions (Z.of_nat i) 2 <= 8).
Proof.
  intro Hp.
  pose proof (coord_positionsOf ps i p 0 Hp ltac:(lia)) as E0.
  pose proof (coord_positionsOf ps i p 1 Hp ltac:(lia)) as E1.
  pose proof (coord_positionsOf ps i p 2 Hp ltac:(lia)) as E2.
  unfold component in E0, E1, E2.
  destruct (p_position p) as [[x y] z]. cbn [Z.eqb] in E0, E1, E2.
  cbv zeta. rewrite E0, E1, E2.
  split; [auto|]. split; [|split]; intro HH; now apply fround_box.
Qed.

Lemma positions_buffer_lookup_witness :
  coord (positionsOf samplePoints) 0 0 = fround (1 # 10) /\
  coord (positionsOf samplePoints) 1 1 = fround (- (1 # 3)) /\
  -8 <= coord (positionsOf samplePoints) 2 0 <= 8.
Proof.
  pose proof (positions_buffer_lookup samplePoints 0
                (mkPoint (1 # 10, 2, -3) (0, 0, 0) 1) eq_refl) as H0.
  pose proof (positions_buffer_lookup samplePoints 1
                (mkPoint (8, -(1 # 3), 0) (0, 0, 0) 0) eq_refl) as H1.
  pose proof (positions_buffer_lookup samplePoints 2
                (mkPoint (-8, 5 # 7, 1 # 1000) (0, 0, 0) 1) eq_refl) as H2.
  cbn [p_position] in H0, H1, H2.
  destruct H0 as ((A & _) & _), H1 as ((_ & B & _) & _), H2 as (_ & C & _).
  split; [exact A|]. split; [exact B|].
  apply C. split; discriminate.
Defined.

(** ** A full rebuild on a populated world *)

(** X15: a full rebuild (replacementPercentage at least 1) detaches only
    the lines of the batch the connections reference points to: every
    other attached line stays in the scene.  When the build yields a hub,
    the buckets are nevertheless reset to the one new batch; when it yields
    none, the buckets are left as they were, connections becomes null and
    the batch it pointed to stays in its bucket without its lines. *)
Theorem full_rebuild_keeps_other_lines sqrt positions rnd (now pct : Q)
  (cnt : option Z) (w : World) :
  1 <= pct ->
  let w' := createConnections sqrt positions rnd now pct cnt w in
  (forall i, In i (scene w) -> connections w <> Some i -> In i (scene w')) /\
  (forall c, connections w = Some c -> c <> nextId w -> ~ In c (scene w')) /\
  ((exists nb, connectionStates w' = mkStates [nb] [] [] [] /\
               bid nb = nextId w /\ connections w' = Some (nextId w)) \/
   (connectionStates w' = connectionStates w /\ connections w' = None)).
Proof.
  intros Hpct w'.
  assert (Hp : Qgeb pct 1 = true) by (apply Qle_bool_iff; exact Hpct).
  subst w'. rewrite (createConnections_full _ _ _ _ _ _ _ Hp).
  destruct (newBatch_facts sqrt positions rnd w now pct
              (Z.to_nat (numHubsToCreate pct cnt)))
    as (m & _ & _ & Hbid & _).
  set (nb := newBatch w now pct _) in *.
  assert (H0 : forall i, In i (scene w) -> connections w <> Some i ->
                 In i (match connections w with
                       | Some c => scene_remove c (scene w)
                       | None => scene w
                       end)).
  { intros i Hi Hc. destruct (connections w) as [c|]; [|exact Hi].
    apply scene_remove_in. split; [exact Hi | congruence]. }
  assert (H1 : forall c, connections w = Some c ->
                 ~ In c (match connections w with
                         | Some c => scene_remove c (scene w)
                         | None => scene w
                         end)).
  { intros c Hc. rewrite Hc. intro H. apply scene_remove_in in H. tauto. }
  destruct (fst (fst _)); cbn [scene connectionStates connections].
  - split; [exact H0|]. split; [intros c Hc _; now apply H1|]. now right.
  - split; [|split].
    + intros i Hi Hc. apply scene_add_spec. left. now apply H0.
    + intros c Hc Hn H. apply scene_add_spec in H.
      destruct H as [H | H]; [now apply (H1 c Hc) | contradiction].
    + left. exists nb. auto.
Qed.

Lemma full_rebuild_keeps_other_lines_witness :
  In 2%nat
    (scene (createConnections sqrtQ samplePositions rndSameNeighbor 9 1
              (Some 2%Z) mixedWorld)) /\
  ~ In 0%nat
      (scene (createConnections sqrtQ samplePositions rndSameNeighbor 9 1
                (Some 2%Z) mixedWorld)).
Proof.
  destruct (full_rebuild_keeps_other_lines sqrtQ samplePositions
              rndSameNeighbor 9 1 (Some 2%Z) mixedWorld) as (H1 & H2 & _).
  - discriminate.
  - split.
    + apply H1; [simpl; auto | discriminate].
    + apply (H2 0%nat); [reflexivity | discriminate].
Defined.

(** ** The initial build *)

(** X17: whatever the points and the draws, setup leaves either no batch
    at all (connections null, scene empty) or exactly one batch, which sits
    in active with state active, holds between 1 and 300 whole hubs, has
    every opacity at 0.5 and zero colours, is attached to the scene and is
    the batch connections refers to; the statistics are still zero and the
    first balancing cycle is due at time 0. *)
Theorem initial_build sqrt positions rnd (now : Q) :
  let w := createInitialConnections sqrt positions rnd now emptyWorld in
  connectionStats w = mkStats 0 0 0 0 /\
  initialSetupDone w = true /\
  nextConnectionUpdateTime w = 0 /\
  fadingIn (connectionStates w) = [] /\
  fadingOut (connectionStates w) = [] /\
  pendingRemoval (connectionStates w) = [] /\
  ((active (connectionStates w) = [] /\ connections w = None /\
    scene w = []) \/
   exists nb,
     active (connectionStates w) = [nb] /\
     connections w = Some (bid nb) /\ scene w = [bid nb] /\
     state nb = SActive /\ startTime nb = now /\ visible nb = true /\
     shaped nb /\ hubsCount nb <= 300 /\
     Forall (fun o => o = 5 # 10) (opacities nb) /\
     Forall (fun c => c == 0) (colors nb)).
Proof.
  intro w. subst w.
  pose proof (newBatch_facts sqrt positions rnd emptyWorld now 1
                (Z.to_nat (numHubsToCreate 1 (Some INITIAL_CONNECTIONS))))
    as F. cbv zeta in F.
  pose proof (newBatch_colors sqrt positions rnd emptyWorld now 1
                (Z.to_nat (numHubsToCreate 1 (Some INITIAL_CONNECTIONS))))
    as Fc.
  assert (E300 : Z.to_nat (numHubsToCreate 1 (Some INITIAL_CONNECTIONS))
                 = 300%nat) by (vm_compute; reflexivity).
  unfold createInitialConnections, createConnections.
  rewrite E300 in F, Fc |- *.
  generalize dependent (hubLoop sqrt positions rnd 1 300 0).
  intros [[p c] o] F Fc.
  destruct F as (m & Hm & Hm1 & Hbid & Hst & Hv & Hstate & Hlp & Hlc & Hop & Hh).
  cbn [fst] in Hm1.
  destruct p as [|x p]; cbn.
  - do 6 (split; [reflexivity|]). left. auto.
  - do 6 (split; [reflexivity|]). right.
    exists (newBatch emptyWorld now 1 (x :: p, c, o)).
    specialize (Hm1 ltac:(discriminate)).
    do 6 (split; [reflexivity|]).
    split; [|split; [|split; [|exact Fc]]].
    + exists m. rewrite Hop, repeat_length. auto.
    + rewrite Hh. change 300 with (inject_Z 300). rewrite <- Zle_Qle. lia.
    + rewrite Hop. apply Forall_forall. intros q Hq.
      apply repeat_spec in Hq. exact Hq.
Qed.

(** ** What a tick leaves alone *)

Lemma sameBatch_fadeInStep (tNow : Q) (b : Batch) :
  sameBatch b (fadeInStep tNow b).
Proof.
  unfold sameBatch, fadeInStep.
  cbn [setColors setVisible bid state startTime hubsCount opacities
    linePositions colors].
  rewrite onSpokes_length. tauto.
Qed.

Lemma sameBatch_fadeOutStep (tNow : Q) (b : Batch) :
  sameBatch b (fadeOutStep tNow b).
Proof.
  unfold sameBatch, fadeOutStep.
  destruct (Qltb _ _);
    cbn [setColors setVisible bid state startTime hubsCount opacities
      linePositions colors];
    rewrite onSpokes_length; tauto.
Qed.

Lemma sameBatch_pulseStep sin (tNow : Q) (b : Batch) :
  sameBatch b (pulseStep sin tNow b).
Proof.
  unfold sameBatch, pulseStep.
  destruct (opacities b) eqn:E; [tauto|].
  cbn [setColors setVisible bid state startTime hubsCount opacities
    linePositions colors].
  rewrite pulseColors_length, E. tauto.
Qed.

(** X18: a tick rewrites nothing of a batch but its colour values and its
    visibility: every batch found in a bucket afterwards is a batch of
    before with the same identity, state field, start time, hub count,
    opacities, positions and buffer length.  In particular the state field
    does not follow the bucket: a batch moved from fadingIn to active (its
    computed elapsed time exceeds FADE_IN_DURATION) still carries state
    fadingIn. *)
Theorem tick_rewrites_colors_only sin (tNow : Q) (w : World) :
  let cs := connectionStates w in
  let cs' := connectionStates (updateConnections sin tNow w) in
  (forall b', In b' (all_batches cs') ->
     exists b, In b (all_batches cs) /\ sameBatch b b') /\
  (forall b, In b (fadingIn cs) -> FADE_IN_DURATION < elapsedAt tNow b ->
     In (pulseStep sin tNow b) (active cs') /\
     state (pulseStep sin tNow b) = state b).
Proof.
  intros cs cs'. subst cs cs'. unfold updateConnections.
  cbn [connectionStates]. split.
  - intros b' Hb'.
    assert (Hin : forall b, In b (fadingIn (connectionStates w)) \/
                            In b (active (connectionStates w)) \/
                            In b (fadingOut (connectionStates w)) ->
                            In b (all_batches (connectionStates w))).
    { intros b Hb. unfold all_batches. rewrite !in_app_iff. tauto. }
    destruct (tick_batch_origin sin tNow (connectionStates w) b' Hb')
      as [(b & Hb & _ & ->) | [(b & Hb & ->) | [(b & Hb & _ & ->) |
          [(b & Hb & _ & ->) | (Hb & _)]]]].
    + exists b. split; [auto | apply sameBatch_fadeInStep].
    + exists b. split; [auto | apply sameBatch_pulseStep].
    + exists b. split; [auto | apply sameBatch_pulseStep].
    + exists b. split; [auto | apply sameBatch_fadeOutStep].
    + exists b'. split; [auto | unfold sameBatch; tauto].
  - intros b Hb Ht. split.
    + rewrite tickStates_fields, fadingInLoop_spec. cbn [fst snd active].
      apply in_map, in_or_app. right. apply filter_In. split; [exact Hb|].
      apply Qgtb_gt. exact Ht.
    + apply (sameBatch_pulseStep sin tNow b).
Qed.

Lemma tick_rewrites_colors_only_witness :
  In (pulseStep sinPoly 5 (sampleBatch 1 1 (1 # 100) SFadingIn 4))
    (active (connectionStates (updateConnections sinPoly 5 mixedWorld))) /\
  state (pulseStep sinPoly 5 (sampleBatch 1 1 (1 # 100) SFadingIn 4))
  = SFadingIn.
Proof.
  destruct (tick_rewrites_colors_only sinPoly 5 mixedWorld) as [_ H].
  destruct (H (sampleBatch 1 1 (1 # 100) SFadingIn 4)) as [H1 H2].
  - simpl. auto.
  - vm_compute. reflexivity.
  - split; [exact H1 | exact H2].
Defined.

(** ** Hubs are conserved *)

Lemma hubsCount_fadeOutStep (tNow : Q) (b : Batch) :
  hubsCount (fadeOutStep tNow b) = hubsCount b.
Proof. unfold fadeOutStep. destruct (Qltb _ _); reflexivity. Qed.

(** X19: neither the balancer nor the tick loses or invents a hub: the
    demotion moves hubs from active to fadingOut, and after a tick the
    total of the statistics plus the hubs of the batches just moved to
    pendingRemoval is the hub count of active, fadingIn and fadingOut
    before it; the three buckets' statistics are the sums over the new
    buckets. *)
Theorem hubs_are_conserved sin (tNow total : Q) (w : World) :
  let cs := connectionStates w in
  let w' := updateConnections sin tNow w in
  sum_hubs (active (balanceDemote tNow total cs))
  + sum_hubs (fadingOut (balanceDemote tNow total cs))
  == sum_hubs (active cs) + sum_hubs (fadingOut cs) /\
  stat_total (connectionStats w')
  + sum_hubs (pendingRemoval (connectionStates w'))
  == sum_hubs (active cs) + sum_hubs (fadingIn cs) + sum_hubs (fadingOut cs)
  /\
  stat_active (connectionStats w') = sum_hubs (active (connectionStates w'))
  /\
  stat_fadingIn (connectionStats w')
  = sum_hubs (fadingIn (connectionStates w')) /\
  stat_fadingOut (connectionStats w')
  = sum_hubs (fadingOut (connectionStates w')).
Proof.
  intros cs w'. subst cs w'. split; [|split].
  - destruct (balanceDemote_shape tNow total (connectionStates w)) as [n ->].
    cbn [active fadingOut].
    rewrite sum_hubs_app, (sum_hubs_map (demote tNow)) by reflexivity.
    rewrite <- (firstn_skipn n (active (connectionStates w))) at 3.
    rewrite sum_hubs_app. ring.
  - unfold updateConnections, computeStats.
    cbn [connectionStats connectionStates stat_total].
    set (cs := connectionStates w).
    pose proof (tick_liveHubs sin tNow cs) as L. unfold liveHubs in L.
    rewrite tickStates_fields in *.
    cbn [active fadingIn fadingOut pendingRemoval] in *.
    rewrite fadingOutLoop_spec. cbn [fst snd].
    rewrite (sum_hubs_map (fadeOutStep tNow)) by apply hubsCount_fadeOutStep.
    rewrite <- (sum_hubs_filter (fadeOutDone tNow) (fadingOut cs)).
    lra.
  - repeat split.
Qed.

(** ** setupScene as a whole *)

Lemma setup_sceneTracks sqrt positions rnd (now : Q) :
  sceneTracks (createInitialConnections sqrt positions rnd now emptyWorld).
Proof.
  destruct (setup_detail sqrt positions rnd now)
    as (_ & _ & _ & E1 & E2 & E3 & Es & Ha).
  unfold sceneTracks, all_batches. rewrite E1, E2, E3, Es.
  destruct Ha as [Ea | (nb & Ea & _)]; rewrite Ea; simpl;
    (split; [repeat constructor; simpl; tauto | tauto]).
Qed.

Lemma setup_shaped sqrt positions rnd (now : Q) :
  Forall shaped
    (all_batches
       (connectionStates
          (createInitialConnections sqrt positions rnd now emptyWorld))).
Proof.
  destruct (setup_detail sqrt positions rnd now)
    as (_ & _ & _ & E1 & E2 & E3 & _ & Ha).
  unfold all_batches. rewrite E1, E2, E3.
  destruct Ha as [Ea | (nb & Ea & Hs & _)]; rewrite Ea; simpl;
    repeat constructor; auto.
Qed.

(** X20: on a host where Math.random stays in [0, 1), Math.pow(r, 1.5)
    stays in [0, 1] on that range, sine and cosine stay in [-1, 1] and
    Math.sqrt of a number that is not negative is not negative, setupScene
    makes exactly NUM_POINTS points, all within range; every entry of the
    positions buffer handed to the builder is the single precision
    rounding of the coordinate computed for it and lies in [-8, 8]; the
    world the first build leaves has every batch in one bucket, holding
    whole hubs, and attached to the scene. *)
Theorem setup_scene_result (sqrt sin cos acos pow : Q -> Q) (PI : Q)
  (rnd : nat -> Q) (now : Q) :
  (forall k, 0 <= rnd k < 1) ->
  (forall r, 0 <= r < 1 -> 0 <= pow r <= 1) ->
  (forall a, -1 <= sin a <= 1) ->
  (forall a, -1 <= cos a <= 1) ->
  (forall x, 0 <= x -> 0 <= sqrt x) ->
  let ps := fst (setupScene sqrt sin cos acos pow PI rnd now) in
  let w := snd (setupScene sqrt sin cos acos pow PI rnd now) in
  Z.of_nat (length ps) = NUM_POINTS /\
  Forall pointInRange ps /\
  (forall i c : Z, (0 <= i < NUM_POINTS)%Z -> (0 <= c < 3)%Z ->
     exists p, nth_error ps (Z.to_nat i) = Some p /\
               coord (positionsOf ps) i c = fround (component c p) /\
               -8 <= coord (positionsOf ps) i c <= 8) /\
  wfWorld w /\ sceneTracks w /\
  Forall shaped (all_batches (connectionStates w)).
Proof.
  intros H1 H2 H3 H4 H5 ps w. subst ps w. unfold setupScene.
  destruct (setupPoints_range sqrt sin cos acos pow PI rnd H1 H2 H3 H4 H5
              (Z.to_nat NUM_POINTS) 0) as (Hl & _ & Hf).
  destruct (setupPoints sqrt sin cos acos pow PI rnd (Z.to_nat NUM_POINTS) 0)
    as [ps k]. cbn [fst snd] in *.
  split; [rewrite Hl; reflexivity|]. split; [exact Hf|].
  split.
  { intros i c Hi Hc.
    destruct (nth_error ps (Z.to_nat i)) as [p|] eqn:Ep.
    2:{ apply nth_error_None in Ep. rewrite Hl in Ep. lia. }
    exists p. split; [reflexivity|].
    pose proof (coord_positionsOf ps (Z.to_nat i) p c Ep Hc) as E.
    rewrite Z2Nat.id in E by lia.
    split; [exact E|]. rewrite E. apply fround_box.
    rewrite Forall_forall in Hf.
    pose proof (Hf p (nth_error_In _ _ Ep)) as R.
    unfold pointInRange in R. unfold component.
    destruct (p_position p) as [[x y] z], (p_color p) as [[r g] b].
    destruct R as ((Rx & Ry & Rz) & _).
    destruct (c =? 0)%Z; [exact Rx|]. destruct (c =? 1)%Z; assumption. }
  split; [apply setup_wf|].
  split; [apply setup_sceneTracks | apply setup_shaped].
Qed.

Lemma setup_scene_result_witness :
  Z.of_nat (length (fst (setupScene sqrtQ sinRat cosRat (fun x => x)
                           (fun r => r * r) (355 # 113) rndShell 0)))
  = NUM_POINTS.
Proof.
  exact (proj1 (setup_scene_result sqrtQ sinRat cosRat (fun x => x)
                  (fun r => r * r) (355 # 113) rndShell 0
                  rndShell_range square_range sinRat_bounds cosRat_bounds
                  sqrtQ_nonneg_on)).
Defined.
